(** * CGF-Podcast (OmniStream Studio): the speech encoder and the stream preview

    A shallow embedding of
      - [src/services/geminiService.ts]: [decode], [decodeAudioData] and
        [createAudioUrl], the path from the base64 speech payload to the
        WAV blob; [generateSpeechFromText]; [generateVideoFromImage] with
        its polling loop;
      - [src/App.tsx]: the two effects of [StreamPreview], the state and
        the handlers of [App], the three generation handlers of
        [CreatePanel], the camera button of [Controls], and the page
        [App] makes of its state, the webcam hook and the preview;
      - [src/hooks/useWebcam.ts]: the hook [useWebcam].

    Numbers of the script are IEEE 754 binary64 values; they are modelled
    with the executable specification of the Standard Library
    ([SpecFloat]), kept in canonical form.  Typed arrays, [DataView] and
    the media elements are modelled by the part of their state the script
    reads and writes. *)

From Stdlib Require Import ZArith String Ascii Bool Lia List DecimalString.
From Stdlib Require Import Floats.SpecFloat.
Import ListNotations.
Open Scope Z_scope.

(** ** Completions of script code *)

(** An exception object: its [name] and its [message].  The message of an
    exception thrown by the platform is implementation-defined; the model
    leaves it empty. *)
Record Exn : Type := { name : string; message : string }.

Definition platform_exn (name : string) : Exn := {| name := name; message := "" |}.

(** [new Error(message)] *)
Definition Error (message : string) : Exn := {| name := "Error"; message := message |}.

(** A call either returns a value or throws. *)
Inductive JsResult (A : Type) : Type :=
| Return (a : A)
| Throw (e : Exn).
Arguments Return {A} a.
Arguments Throw {A} e.

Definition bind {A B : Type} (r : JsResult A) (k : A -> JsResult B) : JsResult B :=
  match r with
  | Return a => k a
  | Throw e => Throw e
  end.

Notation "'do' x <- r ; k" := (bind r (fun x => k))
  (at level 10, x name, r at level 100, k at level 200).

(** ** Numbers *)

Module Number.

(** binary64: 53 bits of precision, infinities at exponent 1024. *)
Definition prec : Z := 53.
Definition emax : Z := 1024.

Definition of_Z (z : Z) : spec_float := binary_normalize prec emax z 0 false.

Definition mul : spec_float -> spec_float -> spec_float := SFmul prec emax.
Definition div : spec_float -> spec_float -> spec_float := SFdiv prec emax.
Definition sub : spec_float -> spec_float -> spec_float := SFsub prec emax.
Definition ltb : spec_float -> spec_float -> bool := SFltb.
Definition leb : spec_float -> spec_float -> bool := SFleb.
Definition abs : spec_float -> spec_float := SFabs.

Definition is_neg_zero (x : spec_float) : bool :=
  match x with S754_zero true => true | _ => false end.

(** [Math.min] and [Math.max]: NaN if an argument is NaN; -0 is below +0. *)
Definition Math_min (a b : spec_float) : spec_float :=
  match SFcompare a b with
  | None => S754_nan
  | Some Lt => a
  | Some Gt => b
  | Some Eq => if is_neg_zero a then a else b
  end.

Definition Math_max (a b : spec_float) : spec_float :=
  match SFcompare a b with
  | None => S754_nan
  | Some Lt => b
  | Some Gt => a
  | Some Eq => if is_neg_zero a then b else a
  end.

(** The integer part of a number, rounded towards zero; 0 for NaN and
    the infinities (the first steps of ToInt16 and ToUint32). *)
Definition truncate (x : spec_float) : Z :=
  match x with
  | S754_finite s m e =>
      let a := match e with
               | Zneg p => Z.shiftr (Zpos m) (Zpos p)
               | _ => Z.shiftl (Zpos m) e
               end in
      if s then - a else a
  | _ => 0
  end.

(** binary32, the element type of [Float32Array]. *)
Definition fround (x : spec_float) : spec_float :=
  match x with
  | S754_finite s m e => binary_round 24 128 s m e
  | _ => x
  end.

(** A binary32 value read back as a number: the same value, in the
    canonical binary64 form. *)
Definition widen (x : spec_float) : spec_float :=
  match x with
  | S754_finite s m e => binary_round prec emax s m e
  | _ => x
  end.


(** The mantissa [p] followed by [k] zero bits. *)
Definition shl (p : positive) (k : Z) : positive := Z.to_pos (Zpos p * 2 ^ k).

(** The number nearest to [n / d]. *)
Definition ratio (n d : Z) : spec_float := div (of_Z n) (of_Z d).

End Number.

(** ** Typed arrays and DataView *)

Module Buffer.

(** An [ArrayBuffer] is the list of its bytes, each in [0, 255]. *)
Definition ArrayBuffer := list Z.

Definition alloc (n : nat) : ArrayBuffer := repeat 0 n.

(** Little-endian bytes of the low [8 * n] bits of [v]. *)
Fixpoint le_bytes (n : nat) (v : Z) : list Z :=
  match n with
  | O => []
  | S n' => v mod 256 :: le_bytes n' (v / 256)
  end.

(** [DataView] setters: the write lies inside the view or a RangeError
    is thrown. *)
Definition store (view : ArrayBuffer) (offset : nat) (bytes : list Z)
  : JsResult ArrayBuffer :=
  if (offset + length bytes <=? length view)%nat
  then Return (firstn offset view ++ bytes ++ skipn (offset + length bytes) view)
  else Throw (platform_exn "RangeError").

Definition setUint8 (view : ArrayBuffer) (offset : nat) (v : Z) :=
  store view offset (le_bytes 1 v).

(** The scripts pass [true] for [littleEndian] everywhere. *)
Definition setUint16 (view : ArrayBuffer) (offset : nat) (v : Z) :=
  store view offset (le_bytes 2 v).

Definition setUint32 (view : ArrayBuffer) (offset : nat) (v : Z) :=
  store view offset (le_bytes 4 v).

(** [setInt16] takes a number: ToInt16 truncates it and reduces it
    modulo 2^16; the two's complement bytes are those of the residue. *)
Definition ToInt16 (x : spec_float) : Z :=
  let i := Number.truncate x mod 65536 in
  if 32768 <=? i then i - 65536 else i.

Definition setInt16 (view : ArrayBuffer) (offset : nat) (x : spec_float) :=
  store view offset (le_bytes 2 (ToInt16 x)).

(** [new Int16Array(buffer)]: a RangeError unless the byte length is a
    multiple of 2; elements are read in the platform's byte order,
    little-endian. *)
Definition int16_of_bytes (lo hi : Z) : Z :=
  let u := lo + 256 * hi in
  if 32768 <=? u then u - 65536 else u.

Fixpoint int16_elements (bytes : list Z) : list Z :=
  match bytes with
  | lo :: hi :: rest => int16_of_bytes lo hi :: int16_elements rest
  | _ => []
  end.

Definition Int16Array (buffer : ArrayBuffer) : JsResult (list Z) :=
  if Nat.even (length buffer)
  then Return (int16_elements buffer)
  else Throw (platform_exn "RangeError").

End Buffer.

(** ** src/services/geminiService.ts *)

Module GeminiService.
Import Number Buffer.

(** *** atob

    The platform's forgiving-base64 decoder: ASCII whitespace is
    dropped, one or two trailing [=] of a length-4-multiple are removed,
    a remaining length of 1 modulo 4 or a character outside the
    alphabet is an InvalidCharacterError.  The result is a binary
    string: a string whose characters have codes below 256. *)

Definition charCode (c : ascii) : Z := Z.of_N (N_of_ascii c).

Definition is_ascii_whitespace (c : ascii) : bool :=
  let n := charCode c in
  (n =? 9) || (n =? 10) || (n =? 12) || (n =? 13) || (n =? 32).

Definition base64_value (c : ascii) : option Z :=
  let n := charCode c in
  if (65 <=? n) && (n <=? 90) then Some (n - 65)
  else if (97 <=? n) && (n <=? 122) then Some (n - 71)
  else if (48 <=? n) && (n <=? 57) then Some (n + 4)
  else if n =? 43 then Some 62
  else if n =? 47 then Some 63
  else None.

Fixpoint base64_values (l : list ascii) : option (list Z) :=
  match l with
  | [] => Some []
  | c :: r =>
      match base64_value c, base64_values r with
      | Some v, Some vs => Some (v :: vs)
      | _, _ => None
      end
  end.

Fixpoint base64_groups (l : list Z) : list Z :=
  match l with
  | a :: b :: c :: d :: r =>
      let w := a * 262144 + b * 4096 + c * 64 + d in
      w / 65536 :: (w / 256) mod 256 :: w mod 256 :: base64_groups r
  | [a; b; c] =>
      let w := (a * 4096 + b * 64 + c) / 4 in
      [w / 256; w mod 256]
  | [a; b] => [(a * 64 + b) / 16]
  | _ => []
  end.

Definition strip_padding (l : list ascii) : list ascii :=
  if (length l mod 4 =? 0)%nat then
    match rev l with
    | "="%char :: "="%char :: r => rev r
    | "="%char :: r => rev r
    | _ => l
    end
  else l.

Definition string_of_codes (l : list Z) : string :=
  string_of_list_ascii (map (fun v => ascii_of_N (Z.to_N v)) l).

Definition atob (base64 : string) : JsResult string :=
  let data := strip_padding
                (filter (fun c => negb (is_ascii_whitespace c))
                        (list_ascii_of_string base64)) in
  if (length data mod 4 =? 1)%nat then Throw (platform_exn "InvalidCharacterError")
  else match base64_values data with
       | None => Throw (platform_exn "InvalidCharacterError")
       | Some vs => Return (string_of_codes (base64_groups vs))
       end.

(** *** decode (lines 4-12): the char codes of [atob]'s result, stored
    in a fresh [Uint8Array]. *)
Definition decode (base64 : string) : JsResult ArrayBuffer :=
  do binaryString <- atob base64;
  Return (map (fun c => charCode c mod 256) (list_ascii_of_string binaryString)).

(** *** AudioBuffer

    One channel of binary32 samples.  [createBuffer(1, length, rate)]
    throws a NotSupportedError when [length] is zero (Web Audio). *)
Record AudioBuffer : Type := {
  ab_sampleRate : Z;
  channelData : list spec_float
}.

Definition ab_length (b : AudioBuffer) : nat := length (channelData b).

Definition createBuffer (frameCount : nat) (sampleRate : Z) : JsResult AudioBuffer :=
  if (frameCount =? 0)%nat then Throw (platform_exn "NotSupportedError")
  else Return {| ab_sampleRate := sampleRate;
                 channelData := repeat (S754_zero false) frameCount |}.

(** *** decodeAudioData (lines 14-26) *)
Definition decodeAudioData (data : ArrayBuffer) (sampleRate : Z) : JsResult AudioBuffer :=
  do dataInt16 <- Int16Array data;
  let frameCount := length dataInt16 in
  do buffer <- createBuffer frameCount sampleRate;
  Return {| ab_sampleRate := ab_sampleRate buffer;
            channelData :=
              map (fun v => fround (div (of_Z v) (of_Z 32768))) dataInt16 |}.

(** *** createAudioUrl (lines 28-66) *)

Fixpoint writeString (view : ArrayBuffer) (offset : nat) (s : string)
  : JsResult ArrayBuffer :=
  match s with
  | EmptyString => Return view
  | String c rest =>
      do view' <- setUint8 view offset (charCode c);
      writeString view' (S offset) rest
  end.

(** One sample of the loop of lines 59-62: line 60 clamps, line 61
    scales; [setInt16] stores. *)
Definition clamp (x : spec_float) : spec_float :=
  Math_max (of_Z (-1)) (Math_min (of_Z 1) x).

Definition scale (s : spec_float) : spec_float :=
  if ltb s (of_Z 0) then mul s (of_Z 32768) else mul s (of_Z 32767).

Definition quantize (x : spec_float) : spec_float := scale (clamp x).

Fixpoint writeSamples (view : ArrayBuffer) (offset : nat) (channels : list spec_float)
  : JsResult ArrayBuffer :=
  match channels with
  | [] => Return view
  | x :: rest =>
      do view' <- setInt16 view offset (quantize (widen x));
      writeSamples view' (offset + 2) rest
  end.

(** The context is constructed with [{ sampleRate: 24000 }]. *)
Definition outputSampleRate : Z := 24000.

(** A [Blob] with its MIME type; the returned object URL is a handle on
    it, so the model returns the blob. *)
Record Blob : Type := { blob_type : string; blob_bytes : list Z }.

Definition createAudioUrl (base64Audio : string) : JsResult Blob :=
  do decodedBytes <- decode base64Audio;
  do audioBuffer <- decodeAudioData decodedBytes outputSampleRate;
  let view := alloc (44 + ab_length audioBuffer * 2) in
  let channels := channelData audioBuffer in
  let n := Z.of_nat (length channels) in
  do view <- writeString view 0 "RIFF";
  do view <- setUint32 view 4 (36 + n * 2);
  do view <- writeString view 8 "WAVE";
  do view <- writeString view 12 "fmt ";
  do view <- setUint32 view 16 16;
  do view <- setUint16 view 20 1;
  do view <- setUint16 view 22 1;
  do view <- setUint32 view 24 outputSampleRate;
  do view <- setUint32 view 28 (outputSampleRate * 2);
  do view <- setUint16 view 32 2;
  do view <- setUint16 view 34 16;
  do view <- writeString view 36 "data";
  do view <- setUint32 view 40 (n * 2);
  do view <- writeSamples view 44 channels;
  Return {| blob_type := "audio/wav"; blob_bytes := view |}.

End GeminiService.

(** ** src/types.ts *)

Module Types.

Inductive StreamSource : Type := WEBCAM | VIDEO_LIBRARY | ANIMATION.

Definition StreamSource_eqb (a b : StreamSource) : bool :=
  match a, b with
  | WEBCAM, WEBCAM | VIDEO_LIBRARY, VIDEO_LIBRARY | ANIMATION, ANIMATION => true
  | _, _ => false
  end.

(** [createdAt] is the number of milliseconds of the [Date]. *)
Record VideoAsset : Type := {
  va_id : string; va_url : string; va_prompt : string; va_createdAt : Z
}.

Record TalkingAnimationAsset : Type := {
  ta_id : string; ta_videoUrl : string; ta_audioUrl : string;
  ta_imagePrompt : string; ta_ttsText : string; ta_createdAt : Z
}.

Inductive HistoryType : Type := H_VIDEO | H_AUDIO | H_STREAM | H_ANIMATION | H_OVERLAY.

Record HistoryItem : Type := {
  hi_id : string; hi_type : HistoryType; hi_description : string; hi_timestamp : Z
}.

End Types.

(** ** src/App.tsx: StreamPreview *)

Module StreamPreview.
Import Number Types.

(** A capture stream is an object; only its identity matters here. *)
Record MediaStream : Type := { stream_id : nat }.

Definition MediaStream_eqb (a b : MediaStream) : bool :=
  Nat.eqb (stream_id a) (stream_id b).

(** [string | null] is [option string]; the empty string is falsy. *)
Definition truthy (o : option string) : bool :=
  match o with
  | Some s => negb (String.eqb s "")
  | None => false
  end.

Definition or_empty (o : option string) : string :=
  if truthy o then match o with Some s => s | None => "" end else "".

Record Props : Type := {
  stream : option MediaStream;
  source : StreamSource;
  currentVideoUrl : option string;
  currentAudioUrl : option string;
  activeOverlayUrl : option string;
  isStreaming : bool
}.

(** *** The elements *)

Inductive EventType : Type := EvPlay | EvPause | EvTimeupdate.

Definition EventType_eqb (a b : EventType) : bool :=
  match a, b with
  | EvPlay, EvPlay | EvPause, EvPause | EvTimeupdate, EvTimeupdate => true
  | _, _ => false
  end.

(** The three closures of the sync effect.  A closure is a function
    object: it is identified by the effect run that allocated it
    ([h_run]) and by its code ([h_code]); [h_audio] is the audio element
    it captured. *)
Inductive HandlerCode : Type := HandlePlay | HandlePause | HandleSeek.

Definition HandlerCode_eqb (a b : HandlerCode) : bool :=
  match a, b with
  | HandlePlay, HandlePlay | HandlePause, HandlePause | HandleSeek, HandleSeek => true
  | _, _ => false
  end.

Record Handler : Type := { h_code : HandlerCode; h_run : nat; h_audio : nat }.

Definition Handler_eqb (a b : Handler) : bool :=
  HandlerCode_eqb (h_code a) (h_code b) && Nat.eqb (h_run a) (h_run b).

Record Listener : Type := { l_type : EventType; l_handler : Handler }.

Definition Listener_eqb (a b : Listener) : bool :=
  EventType_eqb (l_type a) (l_type b) && Handler_eqb (l_handler a) (l_handler b).

Record HTMLVideoElement : Type := {
  v_srcObject : option MediaStream;
  v_src : string;
  v_muted : bool;
  v_paused : bool;
  v_currentTime : spec_float;
  v_listeners : list Listener
}.

Record HTMLAudioElement : Type := {
  a_src : string;
  a_paused : bool;
  a_currentTime : spec_float
}.

(** [addEventListener] ignores a listener that is already registered;
    [removeEventListener] removes the registered one. *)
Definition addEventListener (v : HTMLVideoElement) (t : EventType) (h : Handler)
  : HTMLVideoElement :=
  let l := {| l_type := t; l_handler := h |} in
  {| v_srcObject := v_srcObject v; v_src := v_src v; v_muted := v_muted v;
     v_paused := v_paused v; v_currentTime := v_currentTime v;
     v_listeners := if existsb (Listener_eqb l) (v_listeners v)
                    then v_listeners v else v_listeners v ++ [l] |}.

Definition removeEventListener (v : HTMLVideoElement) (t : EventType) (h : Handler)
  : HTMLVideoElement :=
  let l := {| l_type := t; l_handler := h |} in
  {| v_srcObject := v_srcObject v; v_src := v_src v; v_muted := v_muted v;
     v_paused := v_paused v; v_currentTime := v_currentTime v;
     v_listeners := filter (fun l' => negb (Listener_eqb l l')) (v_listeners v) |}.

(** *** The component instance

    [videoEl] is [videoRef.current]: the [<video>] is rendered
    unconditionally, so the ref is set whenever an effect runs.
    [audioEls] holds every [<audio>] element created so far, by index;
    [audioRef] is [audioRef.current].  [syncCleanup] is the cleanup
    closure the last run of the sync effect returned: the run and the
    audio element it captured.  [playCalls] counts the calls of
    [play()]; [console] collects the [console.error] messages and
    [unhandled] the rejections no handler took. *)
Record Preview : Type := {
  props : Props;
  videoEl : HTMLVideoElement;
  audioEls : list HTMLAudioElement;
  audioRef : option nat;
  syncCleanup : option (nat * nat);
  nextRun : nat;
  playCalls : nat;
  console : list (string * Exn);
  unhandled : list Exn
}.

Definition with_video (f : HTMLVideoElement -> HTMLVideoElement) (st : Preview) : Preview :=
  {| props := props st; videoEl := f (videoEl st); audioEls := audioEls st;
     audioRef := audioRef st; syncCleanup := syncCleanup st; nextRun := nextRun st;
     playCalls := playCalls st; console := console st; unhandled := unhandled st |}.

Fixpoint update_nth {A : Type} (n : nat) (f : A -> A) (l : list A) : list A :=
  match l, n with
  | [], _ => []
  | x :: r, O => f x :: r
  | x :: r, S n' => x :: update_nth n' f r
  end.

Definition with_audio (a : nat) (f : HTMLAudioElement -> HTMLAudioElement) (st : Preview)
  : Preview :=
  {| props := props st; videoEl := videoEl st;
     audioEls := update_nth a f (audioEls st);
     audioRef := audioRef st; syncCleanup := syncCleanup st; nextRun := nextRun st;
     playCalls := playCalls st; console := console st; unhandled := unhandled st |}.

Definition console_error (msg : string) (e : Exn) (st : Preview) : Preview :=
  {| props := props st; videoEl := videoEl st; audioEls := audioEls st;
     audioRef := audioRef st; syncCleanup := syncCleanup st; nextRun := nextRun st;
     playCalls := playCalls st; console := console st ++ [(msg, e)];
     unhandled := unhandled st |}.

Definition count_play (st : Preview) : Preview :=
  {| props := props st; videoEl := videoEl st; audioEls := audioEls st;
     audioRef := audioRef st; syncCleanup := syncCleanup st; nextRun := nextRun st;
     playCalls := S (playCalls st); console := console st; unhandled := unhandled st |}.

Definition set_video_paused (b : bool) (v : HTMLVideoElement) : HTMLVideoElement :=
  {| v_srcObject := v_srcObject v; v_src := v_src v; v_muted := v_muted v;
     v_paused := b; v_currentTime := v_currentTime v; v_listeners := v_listeners v |}.

Definition set_audio_paused (b : bool) (a : HTMLAudioElement) : HTMLAudioElement :=
  {| a_src := a_src a; a_paused := b; a_currentTime := a_currentTime a |}.

Definition set_audio_currentTime (t : spec_float) (a : HTMLAudioElement) : HTMLAudioElement :=
  {| a_src := a_src a; a_paused := a_paused a; a_currentTime := t |}.

Definition set_audio_src (s : string) (a : HTMLAudioElement) : HTMLAudioElement :=
  {| a_src := s; a_paused := a_paused a; a_currentTime := a_currentTime a |}.

(** *** play() and its promise

    Whether the platform lets the [n]-th call of [play()] start playback
    is not decided by the script: it is the parameter [policy].  An
    allowed call clears [paused] and its promise is fulfilled; a refused
    call leaves the element as it is and its promise is rejected.  The
    promise is settled where the call is made: the handlers attached to
    it only write to the console. *)
Definition Policy := nat -> bool.

Definition promise_of_play (policy : Policy) (n : nat) : JsResult unit :=
  if policy n then Return tt else Throw (platform_exn "NotAllowedError").

(** [promise.catch(onRejected)]: the handler takes the rejection, and the
    promise [catch] returns is fulfilled once the handler has returned. *)
Definition catch (r : JsResult unit) (onRejected : Exn -> Preview -> Preview)
           (st : Preview) : Preview * JsResult unit :=
  match r with
  | Return _ => (st, Return tt)
  | Throw e => (onRejected e st, Return tt)
  end.

(** A promise the script lets go of: the platform reports the rejection
    nobody handled. *)
Definition drop (r : JsResult unit) (st : Preview) : Preview :=
  match r with
  | Return _ => st
  | Throw e =>
      {| props := props st; videoEl := videoEl st; audioEls := audioEls st;
         audioRef := audioRef st; syncCleanup := syncCleanup st; nextRun := nextRun st;
         playCalls := playCalls st; console := console st;
         unhandled := unhandled st ++ [e] |}
  end.

Definition video_play (policy : Policy) (st : Preview) : Preview * JsResult unit :=
  let r := promise_of_play policy (playCalls st) in
  let st := count_play st in
  (match r with
   | Return _ => with_video (set_video_paused false) st
   | Throw _ => st
   end, r).

Definition audio_play (policy : Policy) (a : nat) (st : Preview) : Preview * JsResult unit :=
  let r := promise_of_play policy (playCalls st) in
  let st := count_play st in
  (match r with
   | Return _ => with_audio a (set_audio_paused false) st
   | Throw _ => st
   end, r).

Definition audio_pause (a : nat) (st : Preview) : Preview :=
  with_audio a (set_audio_paused true) st.

(** *** The binding effect (lines 50-67) *)
Definition bindEffect (policy : Policy) (p : Props) (st : Preview) : Preview :=
  match source p, stream p with
  | WEBCAM, Some s =>
      let st := with_video (fun v =>
        {| v_srcObject := Some s; v_src := ""; v_muted := true;
           v_paused := v_paused v; v_currentTime := v_currentTime v;
           v_listeners := v_listeners v |}) st in
      let '(st, r) := video_play policy st in
      let '(st, r) := catch r (console_error "Webcam play failed") st in
      drop r st
  | _, _ =>
      let st := with_video (fun v =>
        {| v_srcObject := None; v_src := or_empty (currentVideoUrl p);
           v_muted := negb (StreamSource_eqb (source p) ANIMATION);
           v_paused := v_paused v; v_currentTime := v_currentTime v;
           v_listeners := v_listeners v |}) st in
      if truthy (currentVideoUrl p) then
        let '(st, r) := video_play policy st in
        let '(st, r) := catch r (console_error "Media play failed") st in
        drop r st
      else st
  end.

(** *** The sync effect (lines 69-100) *)

(** The literal [0.5]. *)
Definition half : spec_float := div (of_Z 1) (of_Z 2).

Definition audio_at (a : nat) (st : Preview) : option HTMLAudioElement :=
  nth_error (audioEls st) a.

Definition handlePlay (policy : Policy) (a : nat) (st : Preview) : Preview :=
  let '(st, r) := audio_play policy a st in
  let '(st, r) := catch r (console_error "Audio sync play failed") st in
  drop r st.

Definition handlePause (a : nat) (st : Preview) : Preview := audio_pause a st.

Definition handleSeek (a : nat) (st : Preview) : Preview :=
  match audio_at a st with
  | Some audioEl =>
      if ltb half (abs (sub (a_currentTime audioEl) (v_currentTime (videoEl st))))
      then with_audio a (set_audio_currentTime (v_currentTime (videoEl st))) st
      else st
  | None => st
  end.

Definition handler (c : HandlerCode) (run a : nat) : Handler :=
  {| h_code := c; h_run := run; h_audio := a |}.

Definition set_cleanup (c : option (nat * nat)) (st : Preview) : Preview :=
  {| props := props st; videoEl := videoEl st; audioEls := audioEls st;
     audioRef := audioRef st; syncCleanup := c; nextRun := nextRun st;
     playCalls := playCalls st; console := console st; unhandled := unhandled st |}.

Definition fresh_run (st : Preview) : Preview :=
  {| props := props st; videoEl := videoEl st; audioEls := audioEls st;
     audioRef := audioRef st; syncCleanup := syncCleanup st; nextRun := S (nextRun st);
     playCalls := playCalls st; console := console st; unhandled := unhandled st |}.

Definition syncEffect (policy : Policy) (p : Props) (st : Preview) : Preview :=
  match audioRef st, StreamSource_eqb (source p) ANIMATION with
  | Some a, true =>
      let run := nextRun st in
      let st := fresh_run st in
      let st := with_video (fun v => addEventListener v EvPlay (handler HandlePlay run a)) st in
      let st := with_video (fun v => addEventListener v EvPause (handler HandlePause run a)) st in
      let st := with_video (fun v => addEventListener v EvTimeupdate (handler HandleSeek run a)) st in
      let st := if negb (v_paused (videoEl st)) then handlePlay policy a st else st in
      set_cleanup (Some (run, a)) st
  | Some a, false =>
      let st := audio_pause a st in
      let st := with_audio a (set_audio_currentTime (S754_zero false)) st in
      set_cleanup None st
  | None, _ => set_cleanup None st
  end.

(** The cleanup the effect returns (lines 90-98). *)
Definition syncTeardown (c : nat * nat) (st : Preview) : Preview :=
  let '(run, a) := c in
  let st := with_video (fun v => removeEventListener v EvPlay (handler HandlePlay run a)) st in
  let st := with_video (fun v => removeEventListener v EvPause (handler HandlePause run a)) st in
  let st := with_video (fun v => removeEventListener v EvTimeupdate (handler HandleSeek run a)) st in
  let st := audio_pause a st in
  with_audio a (set_audio_currentTime (S754_zero false)) st.

(** *** Rendering

    The [<audio>] element is rendered when the source is the animation
    and the audio URL is truthy (line 111); React keeps the element
    while the condition holds and updates its [src]. *)
Definition audio_rendered (p : Props) : bool :=
  StreamSource_eqb (source p) ANIMATION && truthy (currentAudioUrl p).

Definition new_audio (src : string) : HTMLAudioElement :=
  {| a_src := src; a_paused := true; a_currentTime := S754_zero false |}.

Definition commit (p : Props) (st : Preview) : Preview :=
  if audio_rendered p then
    match audioRef st with
    | Some a => with_audio a (set_audio_src (or_empty (currentAudioUrl p))) st
    | None =>
        {| props := props st; videoEl := videoEl st;
           audioEls := audioEls st ++ [new_audio (or_empty (currentAudioUrl p))];
           audioRef := Some (length (audioEls st));
           syncCleanup := syncCleanup st; nextRun := nextRun st;
           playCalls := playCalls st; console := console st;
           unhandled := unhandled st |}
    end
  else
    {| props := props st; videoEl := videoEl st; audioEls := audioEls st;
       audioRef := None; syncCleanup := syncCleanup st; nextRun := nextRun st;
       playCalls := playCalls st; console := console st; unhandled := unhandled st |}.

(** Dependencies are compared with [Object.is]. *)
Definition option_eqb {A : Type} (eqb : A -> A -> bool) (a b : option A) : bool :=
  match a, b with
  | Some x, Some y => eqb x y
  | None, None => true
  | _, _ => false
  end.

Definition bind_deps_changed (old new : Props) : bool :=
  negb (option_eqb MediaStream_eqb (stream old) (stream new)
        && StreamSource_eqb (source old) (source new)
        && option_eqb String.eqb (currentVideoUrl old) (currentVideoUrl new)).

Definition sync_deps_changed (old new : Props) : bool :=
  negb (StreamSource_eqb (source old) (source new)
        && option_eqb String.eqb (currentAudioUrl old) (currentAudioUrl new)).

Definition set_props (p : Props) (st : Preview) : Preview :=
  {| props := p; videoEl := videoEl st; audioEls := audioEls st;
     audioRef := audioRef st; syncCleanup := syncCleanup st; nextRun := nextRun st;
     playCalls := playCalls st; console := console st; unhandled := unhandled st |}.

(** The cleanups of the effects whose dependencies changed run first;
    only the sync effect has one. *)
Definition teardown (p : Props) (st : Preview) : Preview :=
  if sync_deps_changed (props st) p then
    match syncCleanup st with
    | Some c => set_cleanup None (syncTeardown c st)
    | None => st
    end
  else st.

(** Then the effects run, in the order of their declaration. *)
Definition install (policy : Policy) (p : Props) (st : Preview) : Preview :=
  let old := props st in
  let st := if bind_deps_changed old p then bindEffect policy p st else st in
  let st := if sync_deps_changed old p then syncEffect policy p st else st in
  set_props p st.

Definition rerender (policy : Policy) (p : Props) (st : Preview) : Preview :=
  install policy p (teardown p (commit p st)).

(** The first render: a fresh paused [<video>], then both effects. *)
Definition initial (p : Props) : Preview :=
  {| props := p;
     videoEl := {| v_srcObject := None; v_src := ""; v_muted := false;
                   v_paused := true; v_currentTime := S754_zero false;
                   v_listeners := [] |};
     audioEls := []; audioRef := None; syncCleanup := None; nextRun := O;
     playCalls := O; console := []; unhandled := [] |}.

Definition mount (policy : Policy) (p : Props) : Preview :=
  let st := commit p (initial p) in
  let st := bindEffect policy p st in
  let st := syncEffect policy p st in
  set_props p st.

(** *** Events of the video element *)

Definition runHandler (policy : Policy) (h : Handler) (st : Preview) : Preview :=
  match h_code h with
  | HandlePlay => handlePlay policy (h_audio h) st
  | HandlePause => handlePause (h_audio h) st
  | HandleSeek => handleSeek (h_audio h) st
  end.

(** The listeners registered for the event, in registration order. *)
Definition dispatchEvent (policy : Policy) (t : EventType) (st : Preview) : Preview :=
  fold_left (fun st l => if EventType_eqb (l_type l) t
                         then runHandler policy (l_handler l) st else st)
            (v_listeners (videoEl st)) st.

(** What happens to a mounted preview: the parent renders it with new
    props, the video fires an event, or the platform moves the video's
    playback state or the playback position of an audio element. *)
Inductive Action : Type :=
| Render (p : Props)
| Fire (t : EventType)
| Playback (paused : bool) (position : spec_float)
| Advance (a : nat) (position : spec_float).

Definition set_playback (paused : bool) (t : spec_float) (v : HTMLVideoElement)
  : HTMLVideoElement :=
  {| v_srcObject := v_srcObject v; v_src := v_src v; v_muted := v_muted v;
     v_paused := paused; v_currentTime := t; v_listeners := v_listeners v |}.

Definition step (policy : Policy) (a : Action) (st : Preview) : Preview :=
  match a with
  | Render p => rerender policy p st
  | Fire t => dispatchEvent policy t st
  | Playback paused t => with_video (set_playback paused t) st
  | Advance a t => with_audio a (set_audio_currentTime t) st
  end.

Definition run (policy : Policy) (acts : list Action) (st : Preview) : Preview :=
  fold_left (fun st a => step policy a st) acts st.

End StreamPreview.

(** ** src/App.tsx: App *)

Module App.
Import Types.
Local Open Scope string_scope.

Definition quote : string := String (ascii_of_nat 34) EmptyString.

(** The state of [App] the selection handlers read and write; [webcam]
    is the stream of [useWebcam]. *)
Record State : Type := {
  isStreaming : bool;
  streamSource : StreamSource;
  currentVideoUrl : option string;
  currentAudioUrl : option string;
  activeOverlayUrl : option string;
  history : list HistoryItem;
  webcam : option StreamPreview.MediaStream
}.

Definition decimal (n : Z) : string := NilZero.string_of_int (Z.to_int n).

(** [addHistoryItem]; [now] is [Date.now()]. *)
Definition addHistoryItem (now : Z) (type : HistoryType) (description : string)
           (st : State) : State :=
  {| isStreaming := isStreaming st; streamSource := streamSource st;
     currentVideoUrl := currentVideoUrl st; currentAudioUrl := currentAudioUrl st;
     activeOverlayUrl := activeOverlayUrl st;
     history := history st ++ [{| hi_id := "hist-" ++ decimal now; hi_type := type;
                                  hi_description := description;
                                  hi_timestamp := now |}];
     webcam := webcam st |}.

Definition setStreamSource (src : StreamSource) (st : State) : State :=
  {| isStreaming := isStreaming st; streamSource := src;
     currentVideoUrl := currentVideoUrl st; currentAudioUrl := currentAudioUrl st;
     activeOverlayUrl := activeOverlayUrl st; history := history st;
     webcam := webcam st |}.

Definition setCurrentVideoUrl (u : option string) (st : State) : State :=
  {| isStreaming := isStreaming st; streamSource := streamSource st;
     currentVideoUrl := u; currentAudioUrl := currentAudioUrl st;
     activeOverlayUrl := activeOverlayUrl st; history := history st;
     webcam := webcam st |}.

Definition setCurrentAudioUrl (u : option string) (st : State) : State :=
  {| isStreaming := isStreaming st; streamSource := streamSource st;
     currentVideoUrl := currentVideoUrl st; currentAudioUrl := u;
     activeOverlayUrl := activeOverlayUrl st; history := history st;
     webcam := webcam st |}.

(** Lines 452-457. *)
Definition handleSelectVideo (now : Z) (video : VideoAsset) (st : State) : State :=
  let st := setCurrentVideoUrl (Some (va_url video)) st in
  let st := setCurrentAudioUrl None st in
  let st := setStreamSource VIDEO_LIBRARY st in
  addHistoryItem now H_VIDEO
    ("Set stream to video: " ++ quote ++ va_prompt video ++ quote) st.

(** Lines 459-464. *)
Definition handleSelectAnimation (now : Z) (anim : TalkingAnimationAsset) (st : State)
  : State :=
  let st := setCurrentVideoUrl (Some (ta_videoUrl anim)) st in
  let st := setCurrentAudioUrl (Some (ta_audioUrl anim)) st in
  let st := setStreamSource ANIMATION st in
  addHistoryItem now H_ANIMATION
    ("Set stream to animation: " ++ quote ++ substring 0 30 (ta_ttsText anim)
       ++ "..." ++ quote) st.

(** The props [App] renders [StreamPreview] with (line 495). *)
Definition previewProps (st : State) : StreamPreview.Props :=
  {| StreamPreview.stream := webcam st;
     StreamPreview.source := streamSource st;
     StreamPreview.currentVideoUrl := currentVideoUrl st;
     StreamPreview.currentAudioUrl := currentAudioUrl st;
     StreamPreview.activeOverlayUrl := activeOverlayUrl st;
     StreamPreview.isStreaming := isStreaming st |}.

End App.

(** ** Asynchronous code

    A logical clock in milliseconds.  The body of an async function, run
    from a world, leaves a world and either completes (returns or throws)
    or stays pending for ever.  What the code does to its surroundings is
    kept in a trace, each entry stamped with the clock. *)

Module Async.

Definition Time := nat.

Section WithEffects.
Context {E : Type}.

Record World : Type := { clock : Time; trace : list (Time * E) }.

Inductive Completion (A : Type) : Type :=
| Done (r : JsResult A)
| Pending.
Arguments Done {A} r.
Arguments Pending {A}.

Definition Async (A : Type) : Type := World -> World * Completion A.

Definition ret {A : Type} (a : A) : Async A := fun w => (w, Done (Return a)).

Definition throw {A : Type} (e : Exn) : Async A := fun w => (w, Done (Throw e)).

Definition lift {A : Type} (r : JsResult A) : Async A := fun w => (w, Done r).

Definition abind {A B : Type} (m : Async A) (k : A -> Async B) : Async B :=
  fun w =>
    let '(w', c) := m w in
    match c with
    | Done (Return a) => k a w'
    | Done (Throw e) => (w', Done (Throw e))
    | Pending => (w', Pending)
    end.

Definition emit (e : E) : Async unit :=
  fun w => ({| clock := clock w; trace := trace w ++ [(clock w, e)] |}, Done (Return tt)).

Definition now : Async Time := fun w => (w, Done (Return (clock w))).

(** A promise: when it settles and how, or never. *)
Record Promise (A : Type) : Type := { settlement : option (Time * JsResult A) }.
Arguments settlement {A} p.

(** Awaiting an operation of the outside world that settles [latency]
    milliseconds from now. *)
Definition external {A : Type} (op : option Time * JsResult A) : Async A :=
  fun w =>
    match fst op with
    | Some latency =>
        ({| clock := (clock w + latency)%nat; trace := trace w |}, Done (snd op))
    | None => (w, Pending)
    end.

(** Calling an async function: the caller gets the promise at once and
    goes on at its own clock; what the callee does is in the trace
    with the callee's stamps. *)
Definition call {A : Type} (m : Async A) : Async (Promise A) :=
  fun w =>
    let '(w', c) := m w in
    ({| clock := clock w; trace := trace w' |},
     Done (Return {| settlement := match c with
                                   | Done r => Some (clock w', r)
                                   | Pending => None
                                   end |})).

Definition await {A : Type} (p : Promise A) : Async A :=
  fun w =>
    match settlement p with
    | Some (t, r) => ({| clock := Nat.max (clock w) t; trace := trace w |}, Done r)
    | None => (w, Pending)
    end.

(** [p.then(f)] *)
Definition then_ {A B : Type} (p : Promise A) (f : A -> Async B) : Async (Promise B) :=
  call (abind (await p) f).

(** [Promise.all([p, q])]: fulfilled when both are, rejected with the
    first rejection in time (that of [p] when both come at the same
    instant), whether or not the other promise settles. *)
Definition Promise_all {A B : Type} (p : Promise A) (q : Promise B) : Promise (A * B) :=
  {| settlement :=
       match settlement p, settlement q with
       | Some (tp, Return a), Some (tq, Return b) => Some (Nat.max tp tq, Return (a, b))
       | Some (tp, Throw e), Some (tq, Throw e') =>
           if (tp <=? tq)%nat then Some (tp, Throw e) else Some (tq, Throw e')
       | Some (tp, Throw e), _ => Some (tp, Throw e)
       | _, Some (tq, Throw e) => Some (tq, Throw e)
       | _, _ => None
       end |}.

Definition try_catch {A : Type} (m : Async A) (h : Exn -> Async A) : Async A :=
  fun w =>
    let '(w', c) := m w in
    match c with
    | Done (Throw e) => h e w'
    | _ => (w', c)
    end.

Definition finally {A : Type} (m : Async A) (f : Async unit) : Async A :=
  fun w =>
    let '(w', c) := m w in
    match c with
    | Pending => (w', Pending)
    | Done r =>
        let '(w'', c') := f w' in
        match c' with
        | Done (Return _) => (w'', Done r)
        | Done (Throw e) => (w'', Done (Throw e))
        | Pending => (w'', Pending)
        end
    end.

End WithEffects.

Arguments World E : clear implicits.
Arguments Async E A : clear implicits.
Arguments Done {A} r.
Arguments Pending {A}.
Arguments settlement {A} p.

End Async.

Notation "'async' x <- m ; k" := (Async.abind m (fun x => k))
  (at level 10, x name, m at level 100, k at level 200).

(** ** src/App.tsx: CreatePanel.handleGenerateAnimation *)

Module CreatePanel.
Import Types Async.
Local Open Scope string_scope.

Record File : Type := { file_name : string; file_type : string }.

Inductive Effect : Type :=
| Issue (request : string)
| SetLoading (loading : bool) (msg : string)
| Alert (msg : string)
| ConsoleError (e : Exn)
| AnimationGenerated (asset : TalkingAnimationAsset)
| ResetForm.

(** The outside world: for each request, after how long it settles (or
    never) and how.  [readImage] is [blobToBase64]'s [FileReader];
    [generateContent] answers with [inlineData.data] when there is one;
    [generateVideo] stands for the whole of [generateVideoFromImage],
    whose body (the request, the polling loop, the download) only talks
    to the service; [objectUrl] is the URL the platform mints for a blob. *)
Record Services : Type := {
  readImage : File -> option Time * JsResult string;
  generateContent : string -> option Time * JsResult (option string);
  generateVideo : string -> string -> string -> option Time * JsResult string;
  objectUrl : GeminiService.Blob -> string
}.

Definition blobToBase64 (svc : Services) (f : File) : Async Effect string :=
  external (readImage svc f).

(** geminiService.ts, lines 132-154. *)
Definition generateSpeechFromText (svc : Services) (text : string) : Async Effect string :=
  if String.eqb text "" then throw (Error "Text cannot be empty.")
  else
    async _ <- emit (Issue "generateContent");
    async response <- external
      (generateContent svc ("Say with a clear, engaging podcast voice: " ++ text));
    match response with
    | Some base64Audio =>
        if String.eqb base64Audio ""
        then throw (Error "Failed to generate audio. No data received.")
        else ret base64Audio
    | None => throw (Error "Failed to generate audio. No data received.")
    end.

Definition createAudioUrl (svc : Services) (base64 : string) : Async Effect string :=
  async blob <- lift (GeminiService.createAudioUrl base64);
  ret (objectUrl svc blob).

Definition generateVideoFromImage (svc : Services) (prompt base64Image mimeType : string)
  : Async Effect string :=
  async _ <- emit (Issue "generateVideos");
  external (generateVideo svc prompt base64Image mimeType).

Record Form : Type := {
  ttsText : string;
  imageFile : option File;
  animationPrompt : string
}.

(** Lines 199-219. *)
Definition handleGenerateAnimation (svc : Services) (form : Form) : Async Effect unit :=
  match imageFile form with
  | Some file =>
      if String.eqb (ttsText form) "" then
        emit (Alert "Please provide an image and text for the animation.")
      else
        async _ <- emit (SetLoading true "");
        finally
          (try_catch
             (async base64Image <- blobToBase64 svc file;
              async _ <- emit (SetLoading true "Generating audio...");
              async speech <- call (generateSpeechFromText svc (ttsText form));
              async speechPromise <- then_ speech (createAudioUrl svc);
              let finalAnimPrompt :=
                "Create a short, subtle, 3-second looping animation of this character. "
                  ++ animationPrompt form in
              async _ <- emit (SetLoading true "Generating video animation...");
              async videoPromise <-
                call (generateVideoFromImage svc finalAnimPrompt base64Image
                                             (file_type file));
              async urls <- await (Promise_all speechPromise videoPromise);
              async t <- now;
              async _ <- emit (AnimationGenerated
                {| ta_id := "anim-" ++ App.decimal (Z.of_nat t);
                   ta_videoUrl := snd urls; ta_audioUrl := fst urls;
                   ta_imagePrompt := finalAnimPrompt; ta_ttsText := ttsText form;
                   ta_createdAt := Z.of_nat t |});
              emit ResetForm)
             (fun error =>
                async _ <- emit (ConsoleError error);
                emit (Alert (message error))))
          (emit (SetLoading false ""))
  | None => emit (Alert "Please provide an image and text for the animation.")
  end.

End CreatePanel.

(** ** The WAV layout in the words of the specification, and the
    vocabulary of the encoder's properties *)

Module Wav.
Import Number Buffer GeminiService.

Definition tag (s : string) : list Z := map charCode (list_ascii_of_string s).

(** The 44 bytes before the samples, field by field. *)
Definition header (sampleRate dataBytes : Z) : list Z :=
  tag "RIFF" ++ le_bytes 4 (36 + dataBytes)
    ++ tag "WAVE"
    ++ tag "fmt " ++ le_bytes 4 16
    ++ le_bytes 2 1 ++ le_bytes 2 1
    ++ le_bytes 4 sampleRate ++ le_bytes 4 (sampleRate * 2)
    ++ le_bytes 2 2 ++ le_bytes 2 16
    ++ tag "data" ++ le_bytes 4 dataBytes.

(** Reading an unsigned little-endian field of [n] bytes at [offset]. *)
Fixpoint le_value (bytes : list Z) : Z :=
  match bytes with
  | [] => 0
  | b :: r => b + 256 * le_value r
  end.

Definition field (offset n : nat) (wav : list Z) : Z :=
  le_value (firstn n (skipn offset wav)).

(** What the decode/encode pair makes of the sample bytes: a sample
    above zero comes back one lower, the others come back as they were. *)
Definition requantized (v : Z) : Z := if 0 <? v then v - 1 else v.

Fixpoint requantized_bytes (bytes : list Z) : list Z :=
  match bytes with
  | lo :: hi :: rest =>
      le_bytes 2 (requantized (int16_of_bytes lo hi)) ++ requantized_bytes rest
  | _ => []
  end.

(** The bytes [decode] makes of a binary string. *)
Definition bytes_of (binaryString : string) : list Z :=
  map (fun c => charCode c mod 256) (list_ascii_of_string binaryString).

(** One sample through [decodeAudioData] and the loop of
    [createAudioUrl]. *)
Definition through (v : Z) : Z :=
  ToInt16 (quantize (Number.widen (Number.fround
    (Number.div (Number.of_Z v) (Number.of_Z 32768))))).

(** The bytes [setInt16] writes for one sample of the channel. *)
Definition sample_bytes (x : spec_float) : list Z :=
  le_bytes 2 (ToInt16 (quantize (widen x))).

(** The binary32 sample [decodeAudioData] makes of an element. *)
Definition dequantize (v : Z) : spec_float := fround (div (of_Z v) (of_Z 32768)).

(** The four samples 0, 16384, -16384, 32767 in base64, and the WAV
    [createAudioUrl] makes of them. *)
Definition b64sample : string := "AAAAQADA/38=".

Definition sample_wav : Blob :=
  {| blob_type := "audio/wav";
     blob_bytes :=
       [82; 73; 70; 70; 44; 0; 0; 0; 87; 65; 86; 69; 102; 109; 116; 32;
        16; 0; 0; 0; 1; 0; 1; 0; 192; 93; 0; 0; 128; 187; 0; 0; 2; 0;
        16; 0; 100; 97; 116; 97; 8; 0; 0; 0;
        0; 0; 255; 63; 0; 192; 254; 127] |}.

End Wav.

(** ** Vocabulary for the stream preview *)

Module PreviewSpec.
Import Number Types StreamPreview.

(** The listeners one run of the sync effect registers. *)
Definition sync_listeners (run a : nat) : list Listener :=
  [ {| l_type := EvPlay; l_handler := handler HandlePlay run a |};
    {| l_type := EvPause; l_handler := handler HandlePause run a |};
    {| l_type := EvTimeupdate; l_handler := handler HandleSeek run a |} ].

(** How many listeners are registered for an event. *)
Definition attached (t : EventType) (st : Preview) : nat :=
  length (filter (fun l => EventType_eqb (l_type l) t) (v_listeners (videoEl st))).

(** The part of a preview no handler touches. *)
Definition shape (st : Preview)
  : Props * option nat * option (nat * nat) * list Listener * nat * nat :=
  (props st, audioRef st, syncCleanup st, v_listeners (videoEl st),
   length (audioEls st), nextRun st).

(** The sync association of a preview is consistent with its props. *)
Definition synced (st : Preview) : Prop :=
  match audioRef st with
  | Some a =>
      audio_rendered (props st) = true
      /\ (a < length (audioEls st))%nat
      /\ exists run, syncCleanup st = Some (run, a)
                     /\ v_listeners (videoEl st) = sync_listeners run a
  | None =>
      audio_rendered (props st) = false
      /\ syncCleanup st = None
      /\ v_listeners (videoEl st) = []
  end.

(** The bound state: the props, the media bound to the video element and
    its mute flag, the listeners, the audio elements with their sources,
    the pending cleanup. *)
Definition binding (st : Preview)
  : Props * (option MediaStream * string * bool * list Listener)
    * option nat * option (nat * nat) * list string * nat :=
  (props st,
   (v_srcObject (videoEl st), v_src (videoEl st), v_muted (videoEl st),
    v_listeners (videoEl st)),
   audioRef st, syncCleanup st, map a_src (audioEls st), nextRun st).

(** Among the [count] calls of [play()] from the [from]-th on, those the
    platform refuses. *)
Definition rejections (policy : Policy) (from count : nat) : nat :=
  length (filter (fun n => negb (policy n)) (seq from count)).

(** From [st] to [st'] every refused call left one line on the console
    and no rejection went unhandled. *)
Definition accounted (policy : Policy) (st st' : Preview) : Prop :=
  unhandled st' = unhandled st
  /\ exists k, playCalls st' = (playCalls st + k)%nat
               /\ length (console st')
                  = (length (console st) + rejections policy (playCalls st) k)%nat.

(** Two bindings and a platform that refuses nothing, for the examples. *)
Definition library_props : Props :=
  {| stream := None; source := VIDEO_LIBRARY;
     currentVideoUrl := Some "blob:clip"%string; currentAudioUrl := None;
     activeOverlayUrl := None; isStreaming := false |}.

Definition animation_props : Props :=
  {| stream := None; source := ANIMATION;
     currentVideoUrl := Some "blob:animation"%string;
     currentAudioUrl := Some "blob:narration"%string;
     activeOverlayUrl := None; isStreaming := false |}.

Definition allow_all : Policy := fun _ => true.

(** An application that has selected an animation of its library, and
    the clip it selects next. *)
Definition studio : App.State :=
  App.handleSelectAnimation 1700000000000
    {| ta_id := "anim-1"; ta_videoUrl := "blob:animation";
       ta_audioUrl := "blob:narration"; ta_imagePrompt := "nod";
       ta_ttsText := "Welcome back"; ta_createdAt := 1700000000000 |}
    {| App.isStreaming := false; App.streamSource := WEBCAM;
       App.currentVideoUrl := None; App.currentAudioUrl := None;
       App.activeOverlayUrl := None; App.history := []; App.webcam := None |}.

Definition clip : VideoAsset :=
  {| va_id := "vid-1"; va_url := "blob:clip"; va_prompt := "sunrise";
     va_createdAt := 1700000000000 |}.

(** The animation playing at 2.0 s with the narration at [n / 10] s. *)
Definition drifted (n : Z) : Preview :=
  run allow_all [Playback false (ratio 20 10); Advance 0 (ratio n 10)]
      (mount allow_all animation_props).

End PreviewSpec.

(** ** Vocabulary for the animation workflow *)

Module Workflow.
Import Types Async CreatePanel.

Definition finalAnimPrompt (form : Form) : string :=
  ("Create a short, subtle, 3-second looping animation of this character. "
     ++ animationPrompt form)%string.

Definition speechPrompt (form : Form) : string :=
  ("Say with a clear, engaging podcast voice: " ++ ttsText form)%string.

Definition promise_from {A : Type} (m : Async Effect (Promise A)) (t : Time)
  : option (Promise A) :=
  match snd (m {| clock := t; trace := [] |}) with
  | Done (Return p) => Some p
  | _ => None
  end.

(** The two promises of lines 208 and 212, created at time [t]. *)
Definition speechPromise (svc : Services) (form : Form) (t : Time)
  : option (Promise string) :=
  promise_from (async speech <- call (generateSpeechFromText svc (ttsText form));
                then_ speech (CreatePanel.createAudioUrl svc)) t.

Definition videoPromise (svc : Services) (form : Form) (base64Image : string)
           (file : File) (t : Time) : option (Promise string) :=
  promise_from (call (generateVideoFromImage svc (finalAnimPrompt form) base64Image
                                             (file_type file))) t.

Definition animation (form : Form) (t : Time) (audioUrl videoUrl : string)
  : TalkingAnimationAsset :=
  {| ta_id := ("anim-" ++ App.decimal (Z.of_nat t))%string;
     ta_videoUrl := videoUrl; ta_audioUrl := audioUrl;
     ta_imagePrompt := finalAnimPrompt form; ta_ttsText := ttsText form;
     ta_createdAt := Z.of_nat t |}.

(** What the handler started at [t0] has done when it awaits the pair
    at [t1]. *)
Definition issued (t0 t1 : Time) : list (Time * Effect) :=
  [ (t0, SetLoading true ""%string);
    (t1, SetLoading true "Generating audio..."%string);
    (t1, Issue "generateContent"%string);
    (t1, SetLoading true "Generating video animation..."%string);
    (t1, Issue "generateVideos"%string) ].

(** How the handler ends, from the settlement of the pair. *)
Definition conclusion (form : Form) (t0 t1 : Time) (all : Promise (string * string))
  : World Effect * Completion unit :=
  match settlement all with
  | Some (t, Return urls) =>
      let t' := Nat.max t1 t in
      ({| clock := t';
          trace := issued t0 t1
                     ++ [ (t', AnimationGenerated (animation form t' (fst urls) (snd urls)));
                          (t', ResetForm);
                          (t', SetLoading false ""%string) ] |},
       Done (Return tt))
  | Some (t, Throw e) =>
      let t' := Nat.max t1 t in
      ({| clock := t';
          trace := issued t0 t1
                     ++ [ (t', ConsoleError e); (t', Alert (message e));
                          (t', SetLoading false ""%string) ] |},
       Done (Return tt))
  | None => ({| clock := t1; trace := issued t0 t1 |}, Pending)
  end.

(** A service that answers the speech request after 50 ms and the video
    request after 5000 ms; the image is read in 7 ms. *)
Definition timed_services (speech : JsResult (option string)) : Services :=
  {| readImage := fun _ => (Some 7%nat, Return "IMAGE"%string);
     generateContent := fun _ => (Some 50%nat, speech);
     generateVideo := fun _ _ _ => (Some 5000%nat, Return "blob:video"%string);
     objectUrl := fun _ => "blob:audio"%string |}.

Definition portrait : File := {| file_name := "host.png"; file_type := "image/png" |}.

Definition sample_form : Form :=
  {| ttsText := "Welcome back"; imageFile := Some portrait; animationPrompt := "nod" |}.

Definition at_start : World Effect := {| clock := 100%nat; trace := [] |}.

End Workflow.

(** ** Vocabulary for the invariants of the stream preview *)

Module PreviewState.
Import Number Types StreamPreview.

(** What the binding effect makes of the props (lines 54-62): the
    [srcObject], the [src] and the [muted] flag of the video element. *)
Definition surface (p : Props) : option MediaStream * string * bool :=
  match source p, stream p with
  | WEBCAM, Some s => (Some s, ""%string, true)
  | _, _ => (None, or_empty (currentVideoUrl p),
             negb (StreamSource_eqb (source p) ANIMATION))
  end.

Definition video_surface (st : Preview) : option MediaStream * string * bool :=
  (v_srcObject (videoEl st), v_src (videoEl st), v_muted (videoEl st)).

(** The [src] of the mounted [<audio>] element, and the one line 112
    gives it. *)
Definition narration (st : Preview) : option string :=
  match audioRef st with
  | Some a => option_map a_src (audio_at a st)
  | None => None
  end.

Definition narration_of (p : Props) : option string :=
  if audio_rendered p then Some (or_empty (currentAudioUrl p)) else None.

(** The audio elements that are playing, by index. *)
Definition playing (st : Preview) : list nat :=
  filter (fun i => match audio_at i st with
                   | Some el => negb (a_paused el)
                   | None => false
                   end)
         (seq 0 (length (audioEls st))).

(** Every audio element that is not paused is the mounted one. *)
Definition quiet (els : list HTMLAudioElement) (ref : option nat) : Prop :=
  forall i el, nth_error els i = Some el -> a_paused el = false -> ref = Some i.

(** The media elements carry what the props name. *)
Definition tuned (st : Preview) : Prop :=
  video_surface st = surface (props st) /\ narration st = narration_of (props st).


(** The handler the sync effect registers for an event. *)
Definition handler_for (policy : Policy) (t : EventType) (a : nat) (st : Preview)
  : Preview :=
  match t with
  | EvPlay => handlePlay policy a st
  | EvPause => handlePause a st
  | EvTimeupdate => handleSeek a st
  end.

(** The animation of the examples on air, with an overlay. *)
Definition on_air_props : Props :=
  {| stream := None; source := ANIMATION;
     currentVideoUrl := Some "blob:animation"%string;
     currentAudioUrl := Some "blob:narration"%string;
     activeOverlayUrl := Some "blob:logo"%string; isStreaming := true |}.

End PreviewState.

(** ** src/App.tsx: the state and the handlers of App (lines 408-482)

    The updaters React is given run once for each call, as in a
    production build. *)

Module Studio.
Import Types.
Local Open Scope string_scope.

(** types.ts, lines 16-21 and 32-36. *)
Record AudioAsset : Type := {
  aa_id : string; aa_url : string; aa_text : string; aa_createdAt : Z
}.

Record OverlayAsset : Type := { oa_id : string; oa_url : string; oa_name : string }.

(** [app] is the part of the state the preview is rendered from;
    [alerts] collects the messages of [alert]. *)
Record State : Type := {
  app : App.State;
  videoLibrary : list VideoAsset;
  audioLibrary : list AudioAsset;
  animationLibrary : list TalkingAnimationAsset;
  overlayLibrary : list OverlayAsset;
  loading : bool;
  loadingMessage : string;
  hasApiKey : bool;
  alerts : list string
}.

(** Lines 409-424. *)
Definition initial : State :=
  {| app := {| App.isStreaming := false; App.streamSource := WEBCAM;
               App.currentVideoUrl := None; App.currentAudioUrl := None;
               App.activeOverlayUrl := None; App.history := [];
               App.webcam := None |};
     videoLibrary := []; audioLibrary := []; animationLibrary := [];
     overlayLibrary := []; loading := false; loadingMessage := "";
     hasApiKey := false; alerts := [] |}.

Definition with_app (f : App.State -> App.State) (st : State) : State :=
  {| app := f (app st); videoLibrary := videoLibrary st;
     audioLibrary := audioLibrary st; animationLibrary := animationLibrary st;
     overlayLibrary := overlayLibrary st; loading := loading st;
     loadingMessage := loadingMessage st; hasApiKey := hasApiKey st;
     alerts := alerts st |}.

Definition setIsStreaming (b : bool) (st : App.State) : App.State :=
  {| App.isStreaming := b; App.streamSource := App.streamSource st;
     App.currentVideoUrl := App.currentVideoUrl st;
     App.currentAudioUrl := App.currentAudioUrl st;
     App.activeOverlayUrl := App.activeOverlayUrl st;
     App.history := App.history st; App.webcam := App.webcam st |}.

Definition setActiveOverlayUrl (u : option string) (st : App.State) : App.State :=
  {| App.isStreaming := App.isStreaming st; App.streamSource := App.streamSource st;
     App.currentVideoUrl := App.currentVideoUrl st;
     App.currentAudioUrl := App.currentAudioUrl st;
     App.activeOverlayUrl := u;
     App.history := App.history st; App.webcam := App.webcam st |}.

(** The [stream] of [useWebcam] (line 426). *)
Definition setWebcam (s : option StreamPreview.MediaStream) (st : App.State) : App.State :=
  {| App.isStreaming := App.isStreaming st; App.streamSource := App.streamSource st;
     App.currentVideoUrl := App.currentVideoUrl st;
     App.currentAudioUrl := App.currentAudioUrl st;
     App.activeOverlayUrl := App.activeOverlayUrl st;
     App.history := App.history st; App.webcam := s |}.

Definition setHasApiKey (b : bool) (st : State) : State :=
  {| app := app st; videoLibrary := videoLibrary st;
     audioLibrary := audioLibrary st; animationLibrary := animationLibrary st;
     overlayLibrary := overlayLibrary st; loading := loading st;
     loadingMessage := loadingMessage st; hasApiKey := b; alerts := alerts st |}.

Definition alert (msg : string) (st : State) : State :=
  {| app := app st; videoLibrary := videoLibrary st;
     audioLibrary := audioLibrary st; animationLibrary := animationLibrary st;
     overlayLibrary := overlayLibrary st; loading := loading st;
     loadingMessage := loadingMessage st; hasApiKey := hasApiKey st;
     alerts := alerts st ++ [msg] |}.

(** Lines 428-431: [aistudio] is what [hasSelectedApiKey] answers when
    [window.aistudio] exists. *)
Definition checkApiKey (aistudio : option (JsResult bool)) (st : State) : State :=
  match aistudio with
  | Some (Return b) => setHasApiKey b st
  | _ => st
  end.

(** Lines 433-435: [aistudio] is how [openSelectKey] settles when
    [window.aistudio] exists. *)
Definition handleSelectKey (aistudio : option (JsResult unit)) (st : State) : State :=
  match aistudio with
  | Some (Return _) => setHasApiKey true st
  | _ => st
  end.

(** Lines 437-440. *)
Definition handleApiKeyError (st : State) : State :=
  alert "Your API Key seems to be invalid. Please select a valid API key to continue."
        (setHasApiKey false st).

(** Line 446. *)
Definition handleToggleStreaming (now : Z) (st : App.State) : App.State :=
  let prev := App.isStreaming st in
  let st := App.addHistoryItem now H_STREAM
              (if prev then "Stream ended." else "Stream started.") st in
  setIsStreaming (negb prev) st.

(** Line 447; [message] defaults to the empty string. *)
Definition setLoading (isLoading : bool) (message : string) (st : State) : State :=
  {| app := app st; videoLibrary := videoLibrary st;
     audioLibrary := audioLibrary st; animationLibrary := animationLibrary st;
     overlayLibrary := overlayLibrary st; loading := isLoading;
     loadingMessage := message; hasApiKey := hasApiKey st; alerts := alerts st |}.

(** Lines 448-450. *)
Definition handleVideoGenerated (now : Z) (asset : VideoAsset) (st : State) : State :=
  let st :=
    {| app := app st; videoLibrary := videoLibrary st ++ [asset];
       audioLibrary := audioLibrary st; animationLibrary := animationLibrary st;
       overlayLibrary := overlayLibrary st; loading := loading st;
       loadingMessage := loadingMessage st; hasApiKey := hasApiKey st;
       alerts := alerts st |} in
  with_app (App.addHistoryItem now H_VIDEO
              ("Generated video: " ++ App.quote ++ va_prompt asset ++ App.quote)) st.

Definition handleAudioGenerated (now : Z) (asset : AudioAsset) (st : State) : State :=
  let st :=
    {| app := app st; videoLibrary := videoLibrary st;
       audioLibrary := audioLibrary st ++ [asset];
       animationLibrary := animationLibrary st;
       overlayLibrary := overlayLibrary st; loading := loading st;
       loadingMessage := loadingMessage st; hasApiKey := hasApiKey st;
       alerts := alerts st |} in
  with_app (App.addHistoryItem now H_AUDIO
              ("Generated audio: " ++ App.quote ++ substring 0 30 (aa_text asset)
                 ++ "..." ++ App.quote)) st.

Definition handleAnimationGenerated (now : Z) (asset : TalkingAnimationAsset)
           (st : State) : State :=
  let st :=
    {| app := app st; videoLibrary := videoLibrary st;
       audioLibrary := audioLibrary st;
       animationLibrary := animationLibrary st ++ [asset];
       overlayLibrary := overlayLibrary st; loading := loading st;
       loadingMessage := loadingMessage st; hasApiKey := hasApiKey st;
       alerts := alerts st |} in
  with_app (App.addHistoryItem now H_ANIMATION
              ("Generated animation: " ++ App.quote
                 ++ substring 0 30 (ta_ttsText asset) ++ "..." ++ App.quote)) st.

(** Lines 466-474: [url] is the object URL the platform mints for the
    file. *)
Definition handleOverlayUploaded (now : Z) (file_name url : string) (st : State) : State :=
  let newOverlay := {| oa_id := "overlay-" ++ App.decimal now;
                       oa_url := url; oa_name := file_name |} in
  let st :=
    {| app := app st; videoLibrary := videoLibrary st;
       audioLibrary := audioLibrary st; animationLibrary := animationLibrary st;
       overlayLibrary := overlayLibrary st ++ [newOverlay]; loading := loading st;
       loadingMessage := loadingMessage st; hasApiKey := hasApiKey st;
       alerts := alerts st |} in
  with_app (App.addHistoryItem now H_OVERLAY
              ("Uploaded overlay: " ++ App.quote ++ file_name ++ App.quote)) st.

(** Lines 476-482. *)
Definition handleToggleOverlay (now : Z) (overlay : OverlayAsset) (st : App.State)
  : App.State :=
  let prev := App.activeOverlayUrl st in
  let newUrl := if StreamPreview.option_eqb String.eqb prev (Some (oa_url overlay))
                then None else Some (oa_url overlay) in
  let st := App.addHistoryItem now H_OVERLAY
              ((if StreamPreview.truthy newUrl then "Showing" else "Hiding")
                 ++ " overlay: " ++ App.quote ++ oa_name overlay ++ App.quote) st in
  setActiveOverlayUrl newUrl st.

(** What the user and the panels do to the application.  A library
    row is addressed by its index: the panels render one button for
    each asset of a library (lines 310-323 and 369-378), so an index
    outside the library is a button that does not exist. *)
Inductive Action : Type :=
| ToggleStreaming
| SetStreamSource (src : StreamSource)
| SelectVideo (i : nat)
| SelectAnimation (i : nat)
| ToggleOverlay (i : nat)
| OverlayUploaded (file_name url : string)
| VideoGenerated (asset : VideoAsset)
| AudioGenerated (asset : AudioAsset)
| AnimationGenerated (asset : TalkingAnimationAsset)
| SetLoading (isLoading : bool) (message : string)
| ApiKeyError
| SelectKey (aistudio : option (JsResult unit))
| Webcam (s : option StreamPreview.MediaStream).

Definition step (now : Z) (a : Action) (st : State) : State :=
  match a with
  | ToggleStreaming => with_app (handleToggleStreaming now) st
  | SetStreamSource src => with_app (App.setStreamSource src) st
  | SelectVideo i =>
      match nth_error (videoLibrary st) i with
      | Some video => with_app (App.handleSelectVideo now video) st
      | None => st
      end
  | SelectAnimation i =>
      match nth_error (animationLibrary st) i with
      | Some anim => with_app (App.handleSelectAnimation now anim) st
      | None => st
      end
  | ToggleOverlay i =>
      match nth_error (overlayLibrary st) i with
      | Some overlay => with_app (handleToggleOverlay now overlay) st
      | None => st
      end
  | OverlayUploaded file_name url => handleOverlayUploaded now file_name url st
  | VideoGenerated asset => handleVideoGenerated now asset st
  | AudioGenerated asset => handleAudioGenerated now asset st
  | AnimationGenerated asset => handleAnimationGenerated now asset st
  | SetLoading isLoading message => setLoading isLoading message st
  | ApiKeyError => handleApiKeyError st
  | SelectKey aistudio => handleSelectKey aistudio st
  | Webcam s => with_app (setWebcam s) st
  end.

(** Each action with the time it happens at. *)
Definition run (events : list (Z * Action)) (st : State) : State :=
  fold_left (fun st e => step (fst e) (snd e) st) events st.

(** The actions that come from a generation, an upload or the key
    dialog. *)
Definition background (a : Action) : bool :=
  match a with
  | OverlayUploaded _ _ | VideoGenerated _ | AudioGenerated _
  | AnimationGenerated _ | SetLoading _ _ | ApiKeyError | SelectKey _ => true
  | _ => false
  end.

(** The description of the last entry of a type in the log. *)
Definition HistoryType_eqb (a b : HistoryType) : bool :=
  match a, b with
  | H_VIDEO, H_VIDEO | H_AUDIO, H_AUDIO | H_STREAM, H_STREAM
  | H_ANIMATION, H_ANIMATION | H_OVERLAY, H_OVERLAY => true
  | _, _ => false
  end.

Definition last_logged (type : HistoryType) (keep : string -> bool)
           (history : list HistoryItem) : option string :=
  fold_left (fun acc item =>
               if HistoryType_eqb (hi_type item) type && keep (hi_description item)
               then Some (hi_description item) else acc)
            history None.

(** The entries [handleToggleOverlay] writes. *)
Definition is_toggle (description : string) : bool :=
  String.prefix "Showing" description || String.prefix "Hiding" description.

(** From [st] to [st'] the log and the libraries were only appended
    to, the log by at most [n] entries. *)
Definition grown (n : nat) (st st' : State) : Prop :=
  (exists h, App.history (app st') = (App.history (app st) ++ h)%list /\ (length h <= n)%nat)
  /\ (exists l, videoLibrary st' = (videoLibrary st ++ l)%list)
  /\ (exists l, audioLibrary st' = (audioLibrary st ++ l)%list)
  /\ (exists l, animationLibrary st' = (animationLibrary st ++ l)%list)
  /\ (exists l, overlayLibrary st' = (overlayLibrary st ++ l)%list).

(** The log agrees with the ON AIR badge and with the overlay shown. *)
Definition logged (st : App.State) : Prop :=
  match last_logged H_STREAM (fun _ => true) (App.history st) with
  | None => App.isStreaming st = false
  | Some d => d = if App.isStreaming st then "Stream started." else "Stream ended."
  end
  /\ match last_logged H_OVERLAY is_toggle (App.history st) with
     | None => StreamPreview.truthy (App.activeOverlayUrl st) = false
     | Some d => String.prefix "Showing" d
                 = StreamPreview.truthy (App.activeOverlayUrl st)
     end.

(** What is on air was taken from the libraries, and the narration
    belongs to the animation whose video is on air. *)
Definition from_library (st : State) : Prop :=
  (forall v, App.currentVideoUrl (app st) = Some v ->
             In v (map va_url (videoLibrary st))
             \/ In v (map ta_videoUrl (animationLibrary st)))
  /\ (forall au, App.currentAudioUrl (app st) = Some au ->
                 exists anim, In anim (animationLibrary st)
                              /\ App.currentVideoUrl (app st) = Some (ta_videoUrl anim)
                              /\ au = ta_audioUrl anim)
  /\ (forall o, App.activeOverlayUrl (app st) = Some o ->
                In o (map oa_url (overlayLibrary st))).

End Studio.

(** ** src/hooks/useWebcam.ts, and the camera button of Controls

    [startWebcam] is an async function: it runs up to the [await] of
    line 16 when it is called and goes on when the platform settles the
    request.  [pending] counts the requests that are not settled yet;
    [live] lists the streams the platform has handed out whose tracks
    have not been stopped. *)

Module Webcam.
Local Open Scope string_scope.

Inductive WebcamStatus : Type := IDLE | REQUESTING | STREAMING | ERROR.

Definition WebcamStatus_eqb (a b : WebcamStatus) : bool :=
  match a, b with
  | IDLE, IDLE | REQUESTING, REQUESTING | STREAMING, STREAMING | ERROR, ERROR => true
  | _, _ => false
  end.

Record Hook : Type := {
  stream : option StreamPreview.MediaStream;
  status : WebcamStatus;
  error : option string;
  streamRef : option StreamPreview.MediaStream;
  pending : nat;
  live : list StreamPreview.MediaStream;
  console : list (string * Exn)
}.

(** Lines 7-10. *)
Definition initial : Hook :=
  {| stream := None; status := IDLE; error := None; streamRef := None;
     pending := O; live := []; console := [] |}.

(** [stream.getTracks().forEach(track => track.stop())] *)
Definition stop_tracks (s : StreamPreview.MediaStream)
           (live : list StreamPreview.MediaStream) : list StreamPreview.MediaStream :=
  filter (fun s' => negb (StreamPreview.MediaStream_eqb s s')) live.

(** Lines 13-16: the call of [startWebcam], up to the request. *)
Definition startWebcam (h : Hook) : Hook :=
  {| stream := stream h; status := REQUESTING; error := None;
     streamRef := streamRef h; pending := S (pending h); live := live h;
     console := console h |}.

(** Lines 20-27: [startWebcam] resumed with the outcome of the request. *)
Definition startWebcam_settled (outcome : JsResult StreamPreview.MediaStream) (h : Hook)
  : Hook :=
  match outcome with
  | Return mediaStream =>
      {| stream := Some mediaStream; status := STREAMING; error := error h;
         streamRef := Some mediaStream; pending := pending h; live := live h;
         console := console h |}
  | Throw err =>
      {| stream := stream h; status := ERROR;
         error := Some "Could not access webcam. Please check permissions.";
         streamRef := streamRef h; pending := pending h; live := live h;
         console := console h ++ [("Error accessing webcam:", err)] |}
  end.

(** Lines 30-37. *)
Definition stopWebcam (h : Hook) : Hook :=
  match streamRef h with
  | Some s =>
      {| stream := None; status := IDLE; error := error h; streamRef := None;
         pending := pending h; live := stop_tracks s (live h); console := console h |}
  | None => h
  end.

(** The cleanup of the effect of lines 39-46, run when the component
    unmounts. *)
Definition unmount (h : Hook) : Hook :=
  match streamRef h with
  | Some s =>
      {| stream := stream h; status := status h; error := error h;
         streamRef := streamRef h; pending := pending h;
         live := stop_tracks s (live h); console := console h |}
  | None => h
  end.

(** App.tsx, lines 142-148; [webcamStatus] is the [status] of the hook. *)
Definition handleWebcamToggle (h : Hook) : Hook :=
  if WebcamStatus_eqb (status h) STREAMING then stopWebcam h else startWebcam h.

(** The platform settles the oldest request: it hands out a stream whose
    tracks are live, or refuses. *)
Definition settle (outcome : JsResult StreamPreview.MediaStream) (h : Hook) : Hook :=
  match pending h with
  | O => h
  | S n =>
      let h :=
        {| stream := stream h; status := status h; error := error h;
           streamRef := streamRef h; pending := n;
           live := match outcome with
                   | Return s => live h ++ [s]
                   | Throw _ => live h
                   end;
           console := console h |} in
      startWebcam_settled outcome h
  end.

Inductive Event : Type :=
| Toggle
| Settled (outcome : JsResult StreamPreview.MediaStream).

Definition step (e : Event) (h : Hook) : Hook :=
  match e with
  | Toggle => handleWebcamToggle h
  | Settled outcome => settle outcome h
  end.

Definition run (events : list Event) (h : Hook) : Hook :=
  fold_left (fun h e => step e h) events h.

(** The button is pressed only while no request is pending. *)
Fixpoint paced (events : list Event) (h : Hook) : bool :=
  match events with
  | [] => true
  | e :: rest =>
      match e with
      | Toggle => Nat.eqb (pending h) 0
      | Settled _ => true
      end && paced rest (step e h)
  end.

Definition option_list {A : Type} (o : option A) : list A :=
  match o with Some a => [a] | None => [] end.

(** What holds of the hook whatever the order of the events. *)
Definition coherent (h : Hook) : Prop :=
  stream h = streamRef h
  /\ (forall s, streamRef h = Some s -> In s (live h))
  /\ (status h = STREAMING -> stream h <> None)
  /\ (status h = IDLE -> stream h = None).

(** What holds when the button waits for the request to settle. *)
Definition orderly (h : Hook) : Prop :=
  stream h = streamRef h
  /\ live h = option_list (streamRef h)
  /\ match pending h with
     | O => status h <> REQUESTING /\ (status h = STREAMING <-> stream h <> None)
     | S n => n = O /\ status h = REQUESTING /\ stream h = None
     end.

Definition camera : StreamPreview.MediaStream := {| StreamPreview.stream_id := 7 |}.

End Webcam.

(** ** src/services/geminiService.ts: generateVideoFromImage (lines 70-130)

    The function talks to the video service three times: it starts the
    generation, it asks for the status of the operation every ten
    seconds until the operation is done, and it downloads the result.
    The two callbacks it is given, [setLoadingMessage] and
    [onApiKeyError], are effects of the trace.  The constructor of the
    client (line 79) is taken to return, and the timer of line 98 to
    fire when its delay has passed. *)

Module VideoService.
Import Async.
Local Open Scope string_scope.

(** [haystack.includes(needle)] *)
Fixpoint includes (haystack needle : string) : bool :=
  String.prefix needle haystack
  || match haystack with
     | EmptyString => false
     | String _ rest => includes rest needle
     end.

(** What the script reads of a [VideosOperation]: [done], and
    [response?.generatedVideos?.[0]?.video?.uri]. *)
Record VideosOperation : Type := { done : bool; uri : option string }.

(** What the script reads of the [Response] of [fetch]. *)
Record Response : Type := {
  ok : bool;
  statusText : string;
  blob : option Time * JsResult GeminiService.Blob
}.

Inductive Effect : Type :=
| SetLoadingMessage (message : string)
| OnApiKeyError
| ConsoleError (e : Exn)
| GenerateVideos (prompt imageBytes mimeType : string)
| GetVideosOperation
| Fetch (url : string).

(** The outside world: how each request settles, and after how long.
    [getVideosOperation] lists the answers to the status requests in
    their order; a status request after the last answer listed never
    settles.  [apiKey] is [process.env.API_KEY]. *)
Record Service : Type := {
  apiKey : string;
  generateVideos : string -> string -> string -> option Time * JsResult VideosOperation;
  getVideosOperation : list (option Time * JsResult VideosOperation);
  fetch : string -> option Time * JsResult Response;
  objectUrl : GeminiService.Blob -> string
}.

(** The delay of the timer of line 98, in milliseconds. *)
Definition pollInterval : Time := 10000%nat.

Definition keyError : Exn :=
  Error "API key invalid or not found. Please select a valid key.".

Definition failure : Exn :=
  Error "Failed to generate video. Please check the console for details.".

(** The loop of lines 97-109. *)
Fixpoint poll (answers : list (option Time * JsResult VideosOperation))
         (operation : VideosOperation) : Async Effect VideosOperation :=
  if done operation then ret operation
  else
    async _ <- external (Some pollInterval, Return tt);
    async _ <- emit (SetLoadingMessage
                       "Still processing... Great things are worth the wait.");
    async _ <- emit GetVideosOperation;
    match answers with
    | [] => external (None, Return operation)
    | answer :: rest =>
        async operation <-
          try_catch (external answer)
            (fun e =>
               if includes (message e) "Requested entity was not found."
               then async _ <- emit OnApiKeyError; throw keyError
               else throw e);
        poll rest operation
    end.

Definition generateVideoFromImage (svc : Service)
           (prompt base64Image imageMimeType : string) : Async Effect string :=
  try_catch
    (async _ <- emit (SetLoadingMessage "Initializing video generation service...");
     async _ <- emit (SetLoadingMessage
       "Generating video... this may take a few minutes.  visionary ideas need time.");
     async _ <- emit (GenerateVideos prompt base64Image imageMimeType);
     async operation <- external (generateVideos svc prompt base64Image imageMimeType);
     async _ <- emit (SetLoadingMessage
       "Video is processing on our servers. Checking status...");
     async operation <- poll (getVideosOperation svc) operation;
     async _ <- emit (SetLoadingMessage
       "Finalizing video and preparing for download...");
     if StreamPreview.truthy (uri operation) then
       let url := StreamPreview.or_empty (uri operation) ++ "&key=" ++ apiKey svc in
       async _ <- emit (Fetch url);
       async response <- external (fetch svc url);
       if ok response then
         async videoBlob <- external (blob response);
         ret (objectUrl svc videoBlob)
       else throw (Error ("Failed to download video: " ++ statusText response))
     else throw (Error "Video generation failed: no download link found."))
    (fun e =>
       if includes (message e) "API key invalid or not found." then throw e
       else
         async _ <- emit (ConsoleError e);
         throw failure).

(** *** Vocabulary *)

(** The stamps of the status requests of a trace. *)
Definition status_requests (trace : list (Time * Effect)) : list Time :=
  map fst (filter (fun e => match snd e with GetVideosOperation => true | _ => false end)
                  trace).

Definition calls_onApiKeyError (trace : list (Time * Effect)) : nat :=
  length (filter (fun e => match snd e with OnApiKeyError => true | _ => false end) trace).

Definition fetches (trace : list (Time * Effect)) : nat :=
  length (filter (fun e => match snd e with Fetch _ => true | _ => false end) trace).

Definition console_errors (trace : list (Time * Effect)) : list Exn :=
  concat (map (fun e => match snd e with ConsoleError x => [x] | _ => [] end) trace).

(** An answer of the service that arrives after [fst a] milliseconds. *)
Definition answers (a : Time * VideosOperation) : option Time * JsResult VideosOperation :=
  (Some (fst a), Return (snd a)).

(** The time the loop takes when the status requests are answered
    after the latencies [ls]. *)
Fixpoint polling_time (ls : list Time) : Time :=
  match ls with
  | [] => O
  | l :: rest => (pollInterval + l + polling_time rest)%nat
  end.

(** The stamps of the status requests of a loop that starts at [t]. *)
Fixpoint polling_stamps (t : Time) (ls : list Time) : list Time :=
  match ls with
  | [] => []
  | l :: rest => (t + pollInterval)%nat :: polling_stamps (t + pollInterval + l)%nat rest
  end.

(** What the loop leaves in the trace. *)
Fixpoint polling_trace (t : Time) (ls : list Time) : list (Time * Effect) :=
  match ls with
  | [] => []
  | l :: rest =>
      ((t + pollInterval)%nat,
       SetLoadingMessage "Still processing... Great things are worth the wait.")
        :: ((t + pollInterval)%nat, GetVideosOperation)
        :: polling_trace (t + pollInterval + l)%nat rest
  end.

(** A service for the examples: the generation starts in 300 ms, the
    status requests are answered as listed, the download takes
    800 + 200 ms. *)
Definition clip_blob : GeminiService.Blob :=
  {| GeminiService.blob_type := "video/mp4"; GeminiService.blob_bytes := [0; 0; 0; 24]%Z |}.

Definition sample_service (start : JsResult VideosOperation)
           (polls : list (option Time * JsResult VideosOperation)) : Service :=
  {| apiKey := "KEY";
     generateVideos := fun _ _ _ => (Some 300%nat, start);
     getVideosOperation := polls;
     fetch := fun _ =>
       (Some 800%nat,
        Return {| ok := true; statusText := "OK";
                  blob := (Some 200%nat, Return clip_blob) |});
     objectUrl := fun _ => "blob:video" |}.

Definition running : VideosOperation := {| done := false; uri := None |}.

Definition finished : VideosOperation :=
  {| done := true; uri := Some "https://video.example/v1?alt=media" |}.

End VideoService.

(** ** src/App.tsx: CreatePanel.handleGenerateVideo and
    handleGenerateAudio (lines 221-241), and what the handlers of the
    panel do to the state of App

    The effects of the panel are those of [handleGenerateAnimation],
    those of [generateVideoFromImage] with its two callbacks, and the
    calls of the panel's own setters and of the props [onVideoGenerated]
    and [onAudioGenerated]. *)

Module Panel.
Import Types Async.
Local Open Scope string_scope.

Inductive Effect : Type :=
| Create (e : CreatePanel.Effect)
| Service (e : VideoService.Effect)
| VideoGenerated (asset : VideoAsset)
| AudioGenerated (asset : Studio.AudioAsset)
| SetVideoPrompt (s : string)
| SetTtsText (s : string)
| ResetImage.

(** Awaiting a function written over other effects: it runs from the
    caller's clock, and what it does is added to the caller's trace. *)
Definition translate {E E' A : Type} (f : E -> E') (m : Async E A) : Async E' A :=
  fun w =>
    let '(w', c) := m {| clock := clock w; trace := [] |} in
    ({| clock := clock w';
        trace := trace w ++ map (fun e => (fst e, f (snd e))) (trace w') |}, c).

Record Services : Type := {
  create : CreatePanel.Services;
  video : VideoService.Service
}.

(** The state of the panel the two handlers read (lines 180-182). *)
Record Form : Type := {
  videoPrompt : string;
  ttsText : string;
  imageFile : option CreatePanel.File
}.

(** Lines 221-230. *)
Definition handleGenerateVideo (svc : Services) (form : Form) : Async Effect unit :=
  match imageFile form with
  | Some file =>
      if String.eqb (videoPrompt form) "" then
        emit (Create (CreatePanel.Alert "Please provide a prompt and an image."))
      else
        async _ <- emit (Create (CreatePanel.SetLoading true
                                   "Preparing to generate video..."));
        finally
          (try_catch
             (async base64Image <-
                translate Create (CreatePanel.blobToBase64 (create svc) file);
              async videoUrl <-
                translate Service
                  (VideoService.generateVideoFromImage (video svc) (videoPrompt form)
                     base64Image (CreatePanel.file_type file));
              async t <- now;
              async _ <- emit (VideoGenerated
                {| va_id := "vid-" ++ App.decimal (Z.of_nat t); va_url := videoUrl;
                   va_prompt := videoPrompt form; va_createdAt := Z.of_nat t |});
              async _ <- emit (SetVideoPrompt "");
              emit ResetImage)
             (fun error =>
                async _ <- emit (Create (CreatePanel.ConsoleError error));
                emit (Create (CreatePanel.Alert (message error)))))
          (emit (Create (CreatePanel.SetLoading false "")))
  | None => emit (Create (CreatePanel.Alert "Please provide a prompt and an image."))
  end.

(** Lines 232-241. *)
Definition handleGenerateAudio (svc : Services) (form : Form) : Async Effect unit :=
  if String.eqb (ttsText form) "" then
    emit (Create (CreatePanel.Alert "Please enter text for speech synthesis."))
  else
    async _ <- emit (Create (CreatePanel.SetLoading true "Generating audio..."));
    finally
      (try_catch
         (async base64Audio <-
            translate Create (CreatePanel.generateSpeechFromText (create svc)
                                (ttsText form));
          async audioUrl <-
            translate Create (CreatePanel.createAudioUrl (create svc) base64Audio);
          async t <- now;
          async _ <- emit (AudioGenerated
            {| Studio.aa_id := "aud-" ++ App.decimal (Z.of_nat t);
               Studio.aa_url := audioUrl; Studio.aa_text := ttsText form;
               Studio.aa_createdAt := Z.of_nat t |});
          emit (SetTtsText ""))
         (fun error =>
            async _ <- emit (Create (CreatePanel.ConsoleError error));
            emit (Create (CreatePanel.Alert (message error)))))
      (emit (Create (CreatePanel.SetLoading false ""))).

(** [handleGenerateAnimation] among the effects of the panel. *)
Definition handleGenerateAnimation (svc : Services) (form : CreatePanel.Form)
  : Async Effect unit :=
  translate Create (CreatePanel.handleGenerateAnimation (create svc) form).

(** What an effect of the panel does to the state of App (line 506):
    [setLoading], the callback [(msg) => setLoading(true, msg)] of lines
    212 and 226, [onApiKeyError], the three [on...Generated] props and
    [alert].  The console, the requests and the panel's own state are
    not part of it. *)
Definition apply (now : Time) (e : Effect) (st : Studio.State) : Studio.State :=
  match e with
  | Create (CreatePanel.SetLoading isLoading message) =>
      Studio.setLoading isLoading message st
  | Create (CreatePanel.Alert message) => Studio.alert message st
  | Create (CreatePanel.AnimationGenerated asset) =>
      Studio.handleAnimationGenerated (Z.of_nat now) asset st
  | Service (VideoService.SetLoadingMessage message) =>
      Studio.setLoading true message st
  | Service VideoService.OnApiKeyError => Studio.handleApiKeyError st
  | VideoGenerated asset => Studio.handleVideoGenerated (Z.of_nat now) asset st
  | AudioGenerated asset => Studio.handleAudioGenerated (Z.of_nat now) asset st
  | _ => st
  end.

Definition apply_trace (trace : list (Time * Effect)) (st : Studio.State)
  : Studio.State :=
  fold_left (fun st e => apply (fst e) (snd e) st) trace st.

(** The assets a trace hands to App. *)
Definition generated (trace : list (Time * Effect)) : list Effect :=
  filter (fun e => match e with
                   | VideoGenerated _ | AudioGenerated _
                   | Create (CreatePanel.AnimationGenerated _) => true
                   | _ => false
                   end)
         (map snd trace).

(** The state of App but for the loading overlay. *)
Definition core (st : Studio.State)
  : App.State * list VideoAsset * list Studio.AudioAsset * list TalkingAnimationAsset
    * list Studio.OverlayAsset * bool * list string :=
  (Studio.app st, Studio.videoLibrary st, Studio.audioLibrary st,
   Studio.animationLibrary st, Studio.overlayLibrary st, Studio.hasApiKey st,
   Studio.alerts st).

(** The effects that leave the state of App alone but for the loading
    overlay. *)
Definition overlay_only (e : Effect) : bool :=
  match e with
  | Create (CreatePanel.Alert _) | Create (CreatePanel.AnimationGenerated _)
  | Service VideoService.OnApiKeyError | VideoGenerated _ | AudioGenerated _ => false
  | _ => true
  end.


(** A form and a service for the examples: the image is read in 7 ms,
    the generation starts in 300 ms and the first status request
    fails. *)
Definition sample_form : Form :=
  {| videoPrompt := "a cat"; ttsText := "Welcome back";
     imageFile := Some Workflow.portrait |}.

Definition lost_key_services : Services :=
  {| create := Workflow.timed_services (Return (Some Wav.b64sample));
     video := VideoService.sample_service (Return VideoService.running)
                [(Some 150%nat, Throw (Error "404: Requested entity was not found."))] |}.

(** The same, with a generation that is done at the second status
    request. *)
Definition granted_services : Services :=
  {| create := Workflow.timed_services (Return (Some Wav.b64sample));
     video := VideoService.sample_service (Return VideoService.running)
                [VideoService.answers (4000%nat, VideoService.running);
                 (Some 2500%nat, Return VideoService.finished)] |}.

End Panel.

(** ** src/App.tsx: the page, App with its webcam hook and its preview

    App renders [StreamPreview] with the [stream] of [useWebcam] and
    with its own state (lines 426 and 495), again after every change of
    the hook's or of its own state.  Between two renders the video
    element fires events and the platform moves the playback. *)

Module Page.
Import Types.

Record State : Type := {
  hook : Webcam.Hook;
  studio : Studio.State;
  preview : StreamPreview.Preview
}.

(** Line 495, with the [stream] of line 426: the stream of the props is
    the one the hook returns at this render. *)
Definition props_of (h : Webcam.Hook) (st : Studio.State) : StreamPreview.Props :=
  App.previewProps (Studio.setWebcam (Webcam.stream h) (Studio.app st)).

Definition initial (policy : StreamPreview.Policy) : State :=
  {| hook := Webcam.initial; studio := Studio.initial;
     preview := StreamPreview.mount policy (props_of Webcam.initial Studio.initial) |}.

(** A render of App with the hook and the state it has now. *)
Definition render (policy : StreamPreview.Policy) (h : Webcam.Hook) (st : Studio.State)
           (pv : StreamPreview.Preview) : State :=
  {| hook := h; studio := st;
     preview := StreamPreview.rerender policy (props_of h st) pv |}.

Inductive Event : Type :=
| Camera (e : Webcam.Event)
| User (now : Z) (a : Studio.Action)
| Fire (t : StreamPreview.EventType)
| Playback (paused : bool) (position : SpecFloat.spec_float)
| Advance (a : nat) (position : SpecFloat.spec_float).

Definition on_preview (policy : StreamPreview.Policy) (a : StreamPreview.Action)
           (s : State) : State :=
  {| hook := hook s; studio := studio s;
     preview := StreamPreview.step policy a (preview s) |}.

Definition step (policy : StreamPreview.Policy) (e : Event) (s : State) : State :=
  match e with
  | Camera e => render policy (Webcam.step e (hook s)) (studio s) (preview s)
  | User now a => render policy (hook s) (Studio.step now a (studio s)) (preview s)
  | Fire t => on_preview policy (StreamPreview.Fire t) s
  | Playback paused position =>
      on_preview policy (StreamPreview.Playback paused position) s
  | Advance a position => on_preview policy (StreamPreview.Advance a position) s
  end.

Definition run (policy : StreamPreview.Policy) (events : list Event) (s : State)
  : State :=
  fold_left (fun s e => step policy e s) events s.

(** What holds of the page between two events. *)
Definition consistent (s : State) : Prop :=
  PreviewSpec.synced (preview s)
  /\ PreviewState.tuned (preview s)
  /\ PreviewState.quiet (StreamPreview.audioEls (preview s))
                        (StreamPreview.audioRef (preview s))
  /\ StreamPreview.props (preview s) = props_of (hook s) (studio s)
  /\ Webcam.coherent (hook s)
  /\ Studio.from_library (studio s).

Definition talk : TalkingAnimationAsset :=
  {| ta_id := "anim-1"; ta_videoUrl := "blob:animation";
     ta_audioUrl := "blob:narration"; ta_imagePrompt := "nod";
     ta_ttsText := "Welcome back"; ta_createdAt := 1700000000000 |}.

(** The camera is switched on and the permission is granted. *)
Definition camera_on : list Event :=
  [Camera Webcam.Toggle; Camera (Webcam.Settled (Return Webcam.camera))].

(** An animation is generated and selected, and its video plays. *)
Definition animation_on : list Event :=
  [User 1700000000000 (Studio.AnimationGenerated talk);
   User 1700000001000 (Studio.SelectAnimation 0);
   Playback false (SpecFloat.S754_zero false);
   Fire StreamPreview.EvPlay].

End Page.

(** ** Proof automation *)

Ltac binding_congruence :=
  let H := fresh "H" in
  unfold PreviewSpec.binding; intros H; injection H; clear H; intros; cbn;
  repeat match goal with E : _ = _ |- _ => rewrite E; clear E end;
  reflexivity.

Ltac settle :=
  cbn -[Nat.max Nat.leb Workflow.animation App.decimal Workflow.speechPrompt
        Workflow.finalAnimPrompt
        GeminiService.createAudioUrl].

Ltac grown_step :=
  unfold Studio.grown; cbn;
  split; [eexists; split; [first [reflexivity | symmetry; apply app_nil_r] | cbn; lia]|];
  repeat split; eexists; first [reflexivity | symmetry; apply app_nil_r].

Ltac clock_lia := unfold Async.Time in *; lia.

(** * Properties *)

Import Number Buffer GeminiService Wav.

(** ** The encoder *)

Lemma store_app (pre old post bytes : list Z) :
  length old = length bytes ->
  store (pre ++ old ++ post) (length pre) bytes = Return (pre ++ bytes ++ post).
Proof.
  intros Hlen. unfold store.
  assert (Hle : (length pre + length bytes <=? length (pre ++ old ++ post))%nat = true).
  { apply Nat.leb_le. rewrite !length_app. lia. }
  rewrite Hle. f_equal.
  rewrite firstn_app, firstn_all, Nat.sub_diag. cbn [firstn]. rewrite app_nil_r.
  f_equal. f_equal.
  rewrite skipn_app, skipn_all2 by lia. cbn [app].
  replace (length pre + length bytes - length pre)%nat with (length old) by lia.
  rewrite skipn_app, skipn_all, Nat.sub_diag. reflexivity.
Qed.

Lemma writeSamples_app (channels : list spec_float) :
  forall pre rest,
    length rest = (2 * length channels)%nat ->
    writeSamples (pre ++ rest) (length pre) channels
    = Return (pre ++ concat (map sample_bytes channels)).
Proof.
  induction channels as [|x channels IH]; intros pre rest Hlen.
  - destruct rest; [|discriminate]. reflexivity.
  - destruct rest as [|a [|b rest]]; try (cbn in Hlen; lia).
    cbn [writeSamples]. unfold setInt16.
    change (a :: b :: rest) with ([a; b] ++ rest).
    rewrite store_app by reflexivity. cbn [bind].
    replace (length pre + 2)%nat with (length (pre ++ sample_bytes x)).
    2:{ rewrite length_app. reflexivity. }
    change (pre ++ le_bytes 2 (ToInt16 (quantize (widen x))) ++ rest)
      with (pre ++ sample_bytes x ++ rest).
    rewrite app_assoc, IH.
    + cbn [map concat]. rewrite <- !app_assoc. reflexivity.
    + cbn in Hlen. lia.
Qed.

(** The header writes of lines 45-57 on a zeroed buffer, whatever follows. *)
Lemma header_writes (A : Type) (n : Z) (rest : list Z) (k : list Z -> JsResult A) :
  (do view <- writeString (alloc 44 ++ rest) 0 "RIFF";
   do view <- setUint32 view 4 (36 + n * 2);
   do view <- writeString view 8 "WAVE";
   do view <- writeString view 12 "fmt ";
   do view <- setUint32 view 16 16;
   do view <- setUint16 view 20 1;
   do view <- setUint16 view 22 1;
   do view <- setUint32 view 24 outputSampleRate;
   do view <- setUint32 view 28 (outputSampleRate * 2);
   do view <- setUint16 view 32 2;
   do view <- setUint16 view 34 16;
   do view <- writeString view 36 "data";
   do view <- setUint32 view 40 (n * 2);
   k view)
  = k (header outputSampleRate (n * 2) ++ rest).
Proof. reflexivity. Qed.

(** Induction over a list two elements at a time. *)
Lemma pair_induction (A : Type) (P : list A -> Prop) :
  P [] -> (forall a, P [a]) -> (forall a b l, P l -> P (a :: b :: l)) ->
  forall l, P l.
Proof.
  intros Hnil Hone Hstep.
  assert (H : forall l, P l /\ forall a, P (a :: l)).
  { induction l as [|b l [IH1 IH2]]; split; auto. }
  intros l. apply H.
Qed.

Lemma int16_elements_length (l : list Z) :
  Nat.even (length l) = true -> (2 * length (int16_elements l))%nat = length l.
Proof.
  induction l as [| a | a b l IH] using pair_induction; intros Hev.
  - reflexivity.
  - discriminate.
  - cbn [int16_elements length] in *. specialize (IH Hev). lia.
Qed.

Lemma sample_bytes_length (channels : list spec_float) :
  length (concat (map sample_bytes channels)) = (2 * length channels)%nat.
Proof.
  induction channels as [|x channels IH]; [reflexivity|].
  cbn [map concat]. rewrite length_app, IH. cbn. lia.
Qed.

(** What [createAudioUrl] returns on a non-empty input of even length. *)
Lemma createAudioUrl_returns (base64 binaryString : string) :
  atob base64 = Return binaryString ->
  Nat.even (length (bytes_of binaryString)) = true ->
  bytes_of binaryString <> [] ->
  createAudioUrl base64
  = Return {| blob_type := "audio/wav";
              blob_bytes :=
                header outputSampleRate
                       (Z.of_nat (length (int16_elements (bytes_of binaryString))) * 2)
                  ++ concat (map sample_bytes
                                 (map dequantize (int16_elements (bytes_of binaryString)))) |}.
Proof.
  intros Hatob Heven Hne.
  unfold createAudioUrl, decode. rewrite Hatob. cbn [bind].
  fold (bytes_of binaryString). set (data := bytes_of binaryString) in *.
  unfold decodeAudioData, Int16Array. rewrite Heven. cbn [bind].
  pose proof (int16_elements_length data Heven) as Hlen.
  unfold createBuffer.
  destruct (Nat.eqb_spec (length (int16_elements data)) 0) as [Hz|Hnz].
  { destruct data; [congruence | cbn [length] in Hlen; lia]. }
  cbn [bind ab_sampleRate channelData]. unfold ab_length. cbn [channelData].
  fold dequantize. rewrite !length_map.
  set (n := length (int16_elements data)).
  change (alloc (44 + n * 2)) with (alloc 44 ++ alloc (n * 2)).
  rewrite (header_writes Blob (Z.of_nat n) (alloc (n * 2))
             (fun view => do view0 <- writeSamples view 44
                                        (map dequantize (int16_elements data));
                          Return {| blob_type := "audio/wav"; blob_bytes := view0 |})).
  change 44%nat with (length (header outputSampleRate (Z.of_nat n * 2))).
  rewrite writeSamples_app.
  - reflexivity.
  - unfold alloc. rewrite repeat_length, length_map. fold n. lia.
Qed.

Lemma createAudioUrl_odd (base64 binaryString : string) :
  atob base64 = Return binaryString ->
  Nat.even (length (bytes_of binaryString)) = false ->
  createAudioUrl base64 = Throw (platform_exn "RangeError").
Proof.
  intros Hatob Hodd.
  unfold createAudioUrl, decode. rewrite Hatob. cbn [bind].
  fold (bytes_of binaryString).
  unfold decodeAudioData, Int16Array. rewrite Hodd. reflexivity.
Qed.

Lemma createAudioUrl_empty (base64 binaryString : string) :
  atob base64 = Return binaryString ->
  bytes_of binaryString = [] ->
  createAudioUrl base64 = Throw (platform_exn "NotSupportedError").
Proof.
  intros Hatob Hnil.
  unfold createAudioUrl, decode. rewrite Hatob. cbn [bind].
  fold (bytes_of binaryString). rewrite Hnil. reflexivity.
Qed.


Lemma bytes_of_length (s : string) : length (bytes_of s) = String.length s.
Proof.
  unfold bytes_of. rewrite length_map.
  induction s as [|c s IH]; [reflexivity|]. cbn. now rewrite IH.
Qed.

Lemma bytes_of_range (s : string) : Forall (fun b => 0 <= b < 256) (bytes_of s).
Proof.
  unfold bytes_of. apply Forall_forall. intros b Hb.
  apply in_map_iff in Hb. destruct Hb as [c [<- _]].
  apply Z.mod_pos_bound. lia.
Qed.

(** ** One sample through the float pipeline *)

(** The numbers on the way are exact: every intermediate value has a
    mantissa of at most 30 significant bits, so the roundings of
    [SpecFloat] only pad or cut trailing zeros. *)

Lemma digits2_pos_log2 (p : positive) : Zpos (digits2_pos p) = Z.log2 (Zpos p) + 1.
Proof.
  induction p as [p IH|p IH|]; cbn [digits2_pos]; try reflexivity.
  - rewrite Pos2Z.inj_succ, IH.
    change (Zpos p~1) with (2 * Zpos p + 1).
    rewrite Z.log2_succ_double by lia. lia.
  - rewrite Pos2Z.inj_succ, IH.
    change (Zpos p~0) with (2 * Zpos p).
    rewrite Z.log2_double by lia. lia.
Qed.

Lemma digits2_pos_bounds (p : positive) (D : Z) :
  2 ^ (D - 1) <= Zpos p < 2 ^ D -> Zpos (digits2_pos p) = D.
Proof.
  intros H. rewrite digits2_pos_log2.
  assert (0 <= D - 1).
  { destruct (Z.le_gt_cases 0 (D - 1)); [assumption|].
    assert (D <= 0) by lia. 
    assert (2 ^ D <= 2 ^ 0) by (apply Z.pow_le_mono_r; lia). change (2^0) with 1 in *. lia. }
  rewrite (Z.log2_unique (Zpos p) (D - 1)); try lia.
  replace (Z.succ (D - 1)) with D by lia. exact H.
Qed.

Lemma iter_pos_nat (A : Type) (f : A -> A) (p : positive) :
  forall x, iter_pos f p x = Nat.iter (Pos.to_nat p) f x.
Proof.
  induction p as [p IH|p IH|]; intros x; cbn [iter_pos].
  - rewrite !IH, Pos2Nat.inj_xI.
    replace (S (2 * Pos.to_nat p)) with (S (Pos.to_nat p + Pos.to_nat p)) by lia.
    now rewrite Nat.iter_succ_r, Nat.iter_add.
  - rewrite !IH, Pos2Nat.inj_xO.
    replace (2 * Pos.to_nat p)%nat with (Pos.to_nat p + Pos.to_nat p)%nat by lia.
    now rewrite Nat.iter_add.
  - reflexivity.
Qed.

Lemma shr_1_exact (m : positive) :
  shr_1 {| shr_m := Zpos m~0; shr_r := false; shr_s := false |}
  = {| shr_m := Zpos m; shr_r := false; shr_s := false |}.
Proof. reflexivity. Qed.

Lemma shr_nat_exact (n : nat) :
  forall m q : positive,
    Zpos q = Zpos m * 2 ^ Z.of_nat n ->
    Nat.iter n shr_1 {| shr_m := Zpos q; shr_r := false; shr_s := false |}
    = {| shr_m := Zpos m; shr_r := false; shr_s := false |}.
Proof.
  induction n as [|n IH]; intros m q Hq.
  - change (Z.of_nat 0) with 0 in Hq. rewrite Z.pow_0_r, Z.mul_1_r in Hq.
    injection Hq as ->. reflexivity.
  - rewrite Nat2Z.inj_succ, Z.pow_succ_r in Hq by apply Nat2Z.is_nonneg.
    remember (2 ^ Z.of_nat n) as X eqn:EX.
    destruct q as [q|q|].
    + exfalso. rewrite Pos2Z.inj_xI in Hq. lia.
    + rewrite Nat.iter_succ_r. rewrite shr_1_exact. apply IH.
      rewrite Pos2Z.inj_xO in Hq. lia.
    + exfalso. lia.
Qed.

Section Rounding.
Variables prec emax : Z.

Lemma round_exact (s : bool) (m : positive) (e D : Z) :
  2 ^ (D - 1) <= Zpos m < 2 ^ D ->
  fexp prec emax (D + e) <= e ->
  e <= emax - prec ->
  binary_round_aux prec emax s (Zpos m) e loc_Exact = S754_finite s m e.
Proof.
  intros HD Hf He. apply digits2_pos_bounds in HD.
  unfold binary_round_aux, shr_fexp. cbn [Zdigits2 shr_record_of_loc].
  rewrite HD.
  assert (Hs : forall mrs, shr mrs e (fexp prec emax (D + e) - e) = (mrs, e)).
  { intros mrs. unfold shr.
    destruct (fexp prec emax (D + e) - e) eqn:E; try reflexivity. lia. }
  rewrite Hs. cbn [shr_m loc_of_shr_record round_nearest_even Zdigits2].
  rewrite HD, Hs. cbn [shr_m].
  destruct (Z.leb_spec e (emax - prec)); [reflexivity | lia].
Qed.

Lemma round_shift (s : bool) (m m' : positive) (e D n : Z) :
  2 ^ (D - 1) <= Zpos m < 2 ^ D ->
  0 < n ->
  fexp prec emax (D + e) = e + n ->
  Zpos m = Zpos m' * 2 ^ n ->
  e + n <= emax - prec ->
  binary_round_aux prec emax s (Zpos m) e loc_Exact = S754_finite s m' (e + n).
Proof.
  intros HD Hn Hf Hm He.
  assert (HD' : Zpos (digits2_pos m') = D - n).
  { apply digits2_pos_bounds. rewrite Hm in HD.
    replace (D - 1) with (D - n - 1 + n) in HD by lia.
    replace D with (D - n + n) in HD at 2 by lia.
    assert (0 <= D - n - 1).
    { destruct (Z.le_gt_cases 0 (D - n - 1)); [assumption|].
      exfalso. destruct HD as [_ HD].
      assert (2 ^ D <= 2 ^ n) by (apply Z.pow_le_mono_r; lia).
      replace (D - n + n) with D in HD by lia.
      assert (1 * 2 ^ n <= Zpos m' * 2 ^ n) by (apply Z.mul_le_mono_nonneg_r; lia).
      lia. }
    rewrite !Z.pow_add_r in HD by lia.
    assert (0 < 2 ^ n) by (apply Z.pow_pos_nonneg; lia).
    split; [apply (Z.mul_le_mono_pos_r _ _ (2 ^ n)) | apply (Z.mul_lt_mono_pos_r (2 ^ n))]; lia. }
  apply digits2_pos_bounds in HD.
  unfold binary_round_aux, shr_fexp. cbn [Zdigits2 shr_record_of_loc].
  rewrite HD, Hf. replace (e + n - e) with n by lia.
  unfold shr at 1. destruct n as [|pn|pn]; try lia.
  rewrite iter_pos_nat.
  rewrite (shr_nat_exact (Pos.to_nat pn) m' m)
    by (rewrite positive_nat_Z; exact Hm).
  cbn [shr_m loc_of_shr_record round_nearest_even Zdigits2]. rewrite HD'.
  replace (D - Zpos pn + (e + Zpos pn)) with (D + e) by lia. rewrite Hf.
  replace (e + Zpos pn - (e + Zpos pn)) with 0 by lia. cbn [shr shr_m].
  destruct (Z.leb_spec (e + Zpos pn) (emax - prec)); [reflexivity | lia].
Qed.
End Rounding.

Lemma shl_spec (p : positive) (k : Z) : 0 <= k -> Zpos (shl p k) = Zpos p * 2 ^ k.
Proof.
  intros Hk. unfold shl. apply Z2Pos.id.
  apply Z.mul_pos_pos; [reflexivity | now apply Z.pow_pos_nonneg].
Qed.

Lemma iter_xO_shl (p k : positive) : Pos.iter xO p k = shl p (Zpos k).
Proof.
  unfold shl. apply Pos2Z.inj. rewrite Z2Pos.id.
  - rewrite <- Z.shiftl_mul_pow2 by lia. cbn [Z.shiftl].
    apply (Pos.iter_swap_gen _ _ Zpos xO (Z.mul 2)). reflexivity.
  - apply Z.mul_pos_pos; [reflexivity | now apply Z.pow_pos_nonneg].
Qed.

Lemma shl_0 (p : positive) : shl p 0 = p.
Proof. unfold shl. rewrite Z.pow_0_r, Z.mul_1_r. reflexivity. Qed.

Lemma pow_bounds_shift (x D k : Z) :
  0 <= k -> 1 <= D -> 2 ^ (D - 1) <= x < 2 ^ D ->
  2 ^ (D + k - 1) <= x * 2 ^ k < 2 ^ (D + k).
Proof.
  intros Hk HD [H1 H2].
  replace (D + k - 1) with (D - 1 + k) by lia.
  rewrite !Z.pow_add_r by lia.
  assert (0 < 2 ^ k) by (apply Z.pow_pos_nonneg; lia).
  split; [apply Z.mul_le_mono_nonneg_r | apply Z.mul_lt_mono_pos_r]; lia.
Qed.

Lemma pow_bounds_to (x D k T : Z) :
  T = D + k -> 0 <= k -> 1 <= D -> 2 ^ (D - 1) <= x < 2 ^ D ->
  2 ^ (T - 1) <= x * 2 ^ k < 2 ^ T.
Proof. intros ->. apply pow_bounds_shift. Qed.

Section Canon.
Variables prec emax : Z.

(** [binary_round] on a mantissa that needs padding. *)
Lemma binary_round_pad (s : bool) (m : positive) (e D : Z) :
  1 <= D ->
  2 ^ (D - 1) <= Zpos m < 2 ^ D ->
  fexp prec emax (D + e) <= e ->
  fexp prec emax (D + e) <= emax - prec ->
  binary_round prec emax s m e
  = S754_finite s (shl m (e - fexp prec emax (D + e))) (fexp prec emax (D + e)).
Proof.
  intros HD1 HD Hf He. pose proof (digits2_pos_bounds m D HD) as Hdig.
  unfold binary_round. rewrite Hdig. unfold shl_align.
  remember (fexp prec emax (D + e)) as e' eqn:Ee'.
  destruct (e' - e) as [|k|k] eqn:Ek; try lia.
  - assert (e' = e) as -> by lia.
    rewrite Z.sub_diag, shl_0.
    apply (round_exact prec emax s m e D); try assumption; lia.
  - rewrite iter_xO_shl. replace (e - e') with (Zpos k) by lia.
    apply (round_exact prec emax s _ e' (D + Zpos k)).
    + rewrite shl_spec by lia. apply pow_bounds_shift; lia.
    + replace (D + Zpos k + e') with (D + e) by lia. lia.
    + exact He.
Qed.

(** [binary_round] on a mantissa with enough trailing zeros. *)
Lemma binary_round_cut (s : bool) (m m' : positive) (e D n : Z) :
  2 ^ (D - 1) <= Zpos m < 2 ^ D ->
  0 < n ->
  fexp prec emax (D + e) = e + n ->
  Zpos m = Zpos m' * 2 ^ n ->
  e + n <= emax - prec ->
  binary_round prec emax s m e = S754_finite s m' (e + n).
Proof.
  intros HD Hn Hf Hm He. pose proof (digits2_pos_bounds m D HD) as Hdig.
  unfold binary_round. rewrite Hdig, Hf. unfold shl_align.
  destruct (e + n - e) eqn:Ek; try lia;
    now apply (round_shift prec emax s m m' e D n).
Qed.
End Canon.

Lemma fexp64 (x : Z) : -1021 <= x -> fexp prec emax x = x - 53.
Proof. unfold fexp, emin, prec, emax. lia. Qed.

Lemma fexp32 (x : Z) : -125 <= x -> fexp 24 128 x = x - 24.
Proof. unfold fexp, emin. lia. Qed.

Lemma shl_shl (p : positive) (a b : Z) :
  0 <= a -> 0 <= b -> shl (shl p a) b = shl p (a + b).
Proof.
  intros Ha Hb. apply Pos2Z.inj.
  rewrite !shl_spec, Z.pow_add_r by lia. ring.
Qed.

Lemma div_eucl_exact (a b : Z) : 0 < b -> Z.div_eucl (a * b) b = (a, 0).
Proof.
  intros Hb.
  assert (E : Z.div_eucl (a * b) b = ((a * b) / b, (a * b) mod b)).
  { unfold Z.div, Z.modulo. now destruct (Z.div_eucl (a * b) b). }
  rewrite E, Z.div_mul, Z.mod_mul by lia. reflexivity.
Qed.

Section Sample.
Variable p : positive.
Variable d : Z.
Hypothesis Hd : 1 <= d <= 15.
Hypothesis Hp : 2 ^ (d - 1) <= Zpos p < 2 ^ d.

Local Notation mz := (shl p (53 - d)).

Lemma mz_spec : Zpos mz = Zpos p * 2 ^ (53 - d).
Proof. apply shl_spec. lia. Qed.

Lemma mz_bounds : 2 ^ (53 - 1) <= Zpos mz < 2 ^ 53.
Proof.
  rewrite mz_spec. apply (pow_bounds_to _ d); lia.
Qed.

Lemma of_Z_finite (s : bool) :
  of_Z (if s then Zneg p else Zpos p) = S754_finite s mz (d - 53).
Proof.
  unfold of_Z, binary_normalize.
  assert (E : binary_round prec emax s p 0 = S754_finite s mz (d - 53)).
  { rewrite (binary_round_pad prec emax s p 0 d); rewrite ?Z.add_0_r, ?fexp64;
      try lia; try exact Hp.
    - do 2 f_equal. lia.
    - unfold emax, prec. lia. }
  destruct s; exact E.
Qed.

Lemma div_32768 (s : bool) :
  div (S754_finite s mz (d - 53)) (of_Z 32768) = S754_finite s mz (d - 68).
Proof.
  change (of_Z 32768) with (S754_finite false 4503599627370496 (-37)).
  unfold div, SFdiv, SFdiv_core_binary. cbn [Zdigits2].
  rewrite (digits2_pos_bounds mz 53 mz_bounds).
  change (Z.pos (digits2_pos 4503599627370496)) with 53.
  replace (53 + (d - 53) - (53 + -37)) with (d - 16) by lia.
  rewrite fexp64 by lia.
  replace (Z.min (d - 16 - 53) (d - 53 - -37)) with (d - 69) by lia.
  replace (d - 53 - -37 - (d - 69)) with 53 by lia.
  rewrite Z.shiftl_mul_pow2 by lia.
  replace (Z.pos mz * 2 ^ 53) with (Zpos mz~0 * 4503599627370496).
  2:{ rewrite Pos2Z.inj_xO. change (2 ^ 53) with (2 * 4503599627370496). ring. }
  rewrite div_eucl_exact by reflexivity.
  change (new_location 4503599627370496 0) with loc_Exact.
  rewrite xorb_false_r.
  rewrite (round_shift prec emax s (mz~0) mz (d - 69) 54 1).
  - f_equal. lia.
  - rewrite Pos2Z.inj_xO. pose proof mz_bounds.
    change (2 ^ (54 - 1)) with (2 * 2 ^ (53 - 1)). change (2 ^ 54) with (2 * 2 ^ 53). lia.
  - lia.
  - rewrite fexp64 by lia. lia.
  - rewrite Pos2Z.inj_xO. change (2 ^ 1) with 2. lia.
  - unfold emax, prec. lia.
Qed.

Lemma fround_widen (s : bool) :
  widen (fround (S754_finite s mz (d - 68))) = S754_finite s mz (d - 68).
Proof.
  unfold fround.
  rewrite (binary_round_cut 24 128 s mz (shl p (24 - d)) (d - 68) 53 29).
  - unfold widen.
    rewrite (binary_round_pad prec emax s (shl p (24 - d)) (d - 68 + 29) 24).
    + replace (24 + (d - 68 + 29)) with (d - 15) by lia.
      rewrite fexp64 by lia. rewrite shl_shl by lia.
      f_equal; [f_equal|]; lia.
    + lia.
    + rewrite shl_spec by lia. apply (pow_bounds_to _ d); lia.
    + rewrite fexp64 by lia. lia.
    + rewrite fexp64 by lia. unfold emax, prec. lia.
  - apply mz_bounds.
  - lia.
  - rewrite fexp32 by lia. lia.
  - rewrite mz_spec, shl_spec by lia.
    replace (53 - d) with (24 - d + 29) by lia.
    rewrite Z.pow_add_r by lia. ring.
  - lia.
Qed.

Lemma clamp_inside (s : bool) :
  clamp (S754_finite s mz (d - 68)) = S754_finite s mz (d - 68).
Proof.
  unfold clamp.
  change (of_Z 1) with (S754_finite false 4503599627370496 (-52)).
  change (of_Z (-1)) with (S754_finite true 4503599627370496 (-52)).
  assert (Hc : (-52 ?= d - 68) = Gt) by (apply Z.compare_gt_iff; lia).
  unfold Math_min, Math_max. destruct s; cbn [SFcompare]; rewrite ?Hc; reflexivity.
Qed.

Lemma scale_negative :
  scale (S754_finite true mz (d - 68)) = S754_finite true mz (d - 53).
Proof.
  unfold scale.
  change (ltb (S754_finite true mz (d - 68)) (of_Z 0)) with true. cbv iota.
  change (of_Z 32768) with (S754_finite false 4503599627370496 (-37)).
  unfold mul, SFmul. cbn [xorb].
  rewrite (round_shift prec emax true _ mz (d - 68 + -37) 105 52).
  - f_equal. lia.
  - rewrite Pos2Z.inj_mul. change (Zpos 4503599627370496) with (2 ^ 52).
    apply (pow_bounds_to _ 53); try lia. apply mz_bounds.
  - lia.
  - rewrite fexp64 by lia. lia.
  - rewrite Pos2Z.inj_mul. reflexivity.
  - unfold emax, prec. lia.
Qed.

Local Notation q := (p * 32767)%positive.
Local Notation Dq := (Z.log2 (Zpos (p * 32767)) + 1).

Lemma q_bounds : 2 ^ (Dq - 1) <= Zpos q < 2 ^ Dq /\ d + 14 <= Dq <= d + 15.
Proof.
  pose proof (Z.log2_spec (Zpos q) eq_refl) as Hs.
  replace (Z.log2 (Zpos q) + 1 - 1) with (Z.log2 (Zpos q)) by lia.
  replace (Z.succ (Z.log2 (Zpos q))) with (Z.log2 (Zpos q) + 1) in Hs by lia.
  split; [exact Hs|].
  assert (Hlo : 2 ^ (d + 13) <= Zpos q).
  { rewrite Pos2Z.inj_mul.
    replace (d + 13) with (d - 1 + 14) by lia. rewrite Z.pow_add_r by lia.
    change (2 ^ 14) with 16384.
    assert (0 < 2 ^ (d - 1)) by (apply Z.pow_pos_nonneg; lia). nia. }
  assert (Hhi : Zpos q < 2 ^ (d + 15)).
  { rewrite Pos2Z.inj_mul, Z.pow_add_r by lia.
    change (2 ^ 15) with 32768. nia. }
  apply Z.log2_le_pow2 in Hlo; [|reflexivity].
  apply Z.log2_lt_pow2 in Hhi; [|reflexivity]. lia.
Qed.

Lemma scale_positive :
  scale (S754_finite false mz (d - 68))
  = S754_finite false (shl q (53 - Dq)) (Dq - 68).
Proof.
  destruct q_bounds as [Hq HD].
  unfold scale.
  change (ltb (S754_finite false mz (d - 68)) (of_Z 0)) with false. cbv iota.
  change (of_Z 32767) with (S754_finite false 9006924376834048 (-38)).
  unfold mul, SFmul. cbn [xorb].
  assert (Hm : Zpos (mz * 9006924376834048) = Zpos q * 2 ^ (91 - d)).
  { rewrite Pos2Z.inj_mul, mz_spec, Pos2Z.inj_mul.
    change (Zpos 9006924376834048) with (32767 * 2 ^ 38).
    replace (91 - d) with (53 - d + 38) by lia. rewrite Z.pow_add_r by lia. ring. }
  rewrite (round_shift prec emax false _ (shl q (53 - Dq)) (d - 68 + -38)
             (Dq + 91 - d) (Dq - d + 38)).
  - f_equal. lia.
  - rewrite Hm. apply (pow_bounds_to _ Dq); lia.
  - lia.
  - rewrite fexp64 by lia. lia.
  - rewrite Hm, shl_spec by lia.
    replace (91 - d) with (53 - Dq + (Dq - d + 38)) by lia.
    rewrite Z.pow_add_r by lia. ring.
  - unfold emax, prec. lia.
Qed.

Lemma through_negative : through (Zneg p) = Zneg p.
Proof.
  unfold through.
  rewrite (of_Z_finite true), div_32768, fround_widen.
  unfold quantize. rewrite clamp_inside, scale_negative.
  unfold ToInt16, truncate.
  destruct (d - 53) as [|k|k] eqn:Ek; try lia.
  rewrite Z.shiftr_div_pow2 by lia. rewrite mz_spec.
  replace (Zpos k) with (53 - d) by lia.
  rewrite Z.div_mul by (apply Z.pow_nonzero; lia).
  assert (Hp15 : Zpos p < 2 ^ 15).
  { destruct Hp as [_ Hlt]. eapply Z.lt_le_trans; [exact Hlt|].
    apply Z.pow_le_mono_r; lia. }
  change (2 ^ 15) with 32768 in Hp15.
  replace (- Zpos p) with (65536 - Zpos p + (-1) * 65536) by lia.
  rewrite Z.mod_add, Z.mod_small by lia.
  destruct (Z.leb_spec 32768 (65536 - Zpos p)); lia.
Qed.

Lemma through_positive : through (Zpos p) = Zpos p - 1.
Proof.
  destruct q_bounds as [Hq HD].
  unfold through.
  rewrite (of_Z_finite false), div_32768, fround_widen.
  unfold quantize. rewrite clamp_inside, scale_positive.
  unfold ToInt16, truncate.
  destruct (Dq - 68) as [|k|k] eqn:Ek; try lia.
  rewrite Z.shiftr_div_pow2 by lia. rewrite shl_spec by lia.
  replace (Zpos k) with (53 - Dq + 15) by lia.
  rewrite Z.pow_add_r by lia.
  rewrite (Z.mul_comm (2 ^ (53 - Dq)) (2 ^ 15)).
  rewrite Z.div_mul_cancel_r by (try apply Z.pow_nonzero; lia).
  assert (Hp15 : Zpos p < 2 ^ 15).
  { destruct Hp as [_ Hlt]. eapply Z.lt_le_trans; [exact Hlt|].
    apply Z.pow_le_mono_r; lia. }
  change (2 ^ 15) with 32768 in *.
  assert (Hdiv : Zpos q / 32768 = Zpos p - 1).
  { symmetry. apply (Z.div_unique _ _ _ (32768 - Zpos p)); [lia|].
    rewrite Pos2Z.inj_mul. lia. }
  rewrite Hdiv, Z.mod_small by lia.
  destruct (Z.leb_spec 32768 (Zpos p - 1)); lia.
Qed.
End Sample.

Lemma through_int16 (v : Z) : -32768 <= v <= 32767 -> through v = requantized v.
Proof.
  intros Hv. unfold requantized.
  destruct v as [|p|p].
  - reflexivity.
  - change (0 <? Zpos p) with true. cbv iota.
    apply (through_positive p (Z.log2 (Zpos p) + 1)).
    + pose proof (Z.log2_nonneg (Zpos p)).
      assert (Zpos p < 2 ^ 15) by (change (2 ^ 15) with 32768; lia).
      apply Z.log2_lt_pow2 in H0; lia.
    + pose proof (Z.log2_spec (Zpos p) eq_refl) as Hs.
      replace (Z.log2 (Zpos p) + 1 - 1) with (Z.log2 (Zpos p)) by lia.
      replace (Z.succ (Z.log2 (Zpos p))) with (Z.log2 (Zpos p) + 1) in Hs by lia.
      exact Hs.
  - change (0 <? Zneg p) with false. cbv iota.
    destruct (Z.eq_dec (Zpos p) 32768) as [E|E].
    + injection E as ->. reflexivity.
    + apply (through_negative p (Z.log2 (Zpos p) + 1)).
      * pose proof (Z.log2_nonneg (Zpos p)).
        assert (Zpos p < 2 ^ 15) by (change (2 ^ 15) with 32768; lia).
        apply Z.log2_lt_pow2 in H0; lia.
      * pose proof (Z.log2_spec (Zpos p) eq_refl) as Hs.
        replace (Z.log2 (Zpos p) + 1 - 1) with (Z.log2 (Zpos p)) by lia.
        replace (Z.succ (Z.log2 (Zpos p))) with (Z.log2 (Zpos p) + 1) in Hs by lia.
        exact Hs.
Qed.

Lemma int16_of_bytes_range (lo hi : Z) :
  0 <= lo < 256 -> 0 <= hi < 256 -> -32768 <= int16_of_bytes lo hi <= 32767.
Proof.
  intros Hlo Hhi. unfold int16_of_bytes.
  destruct (Z.leb_spec 32768 (lo + 256 * hi)); lia.
Qed.

Lemma le_bytes_int16 (lo hi : Z) :
  0 <= lo < 256 -> 0 <= hi < 256 ->
  le_bytes 2 (int16_of_bytes lo hi) = [lo; hi].
Proof.
  intros Hlo Hhi. unfold int16_of_bytes. cbn [le_bytes].
  destruct (Z.leb_spec 32768 (lo + 256 * hi)).
  - replace (lo + 256 * hi - 65536) with (lo + (hi - 256) * 256) by lia.
    rewrite Z.mod_add, Z.div_add by lia.
    rewrite (Z.mod_small lo), (Z.div_small lo) by lia.
    f_equal. f_equal. replace (0 + (hi - 256)) with (hi + (-1) * 256) by lia.
    rewrite Z.mod_add by lia. now rewrite Z.mod_small by lia.
  - replace (lo + 256 * hi) with (lo + hi * 256) by lia.
    rewrite Z.mod_add, Z.div_add by lia.
    rewrite (Z.mod_small lo), (Z.div_small lo) by lia.
    now rewrite Z.mod_small by lia.
Qed.

(** The data chunk [createAudioUrl] writes, in terms of the input bytes. *)
Lemma data_chunk (data : list Z) :
  Forall (fun b => 0 <= b < 256) data ->
  concat (map sample_bytes (map dequantize (int16_elements data)))
  = requantized_bytes data.
Proof.
  induction data as [| a | a b data IH] using pair_induction; intros Hr.
  - reflexivity.
  - reflexivity.
  - inversion Hr as [|? ? Ha Hr']; subst. inversion Hr' as [|? ? Hb Hr'']; subst.
    cbn [int16_elements map concat requantized_bytes].
    rewrite (IH Hr''). f_equal.
    unfold sample_bytes, dequantize.
    change (ToInt16 (quantize (widen (fround (div (of_Z (int16_of_bytes a b))
                                                  (of_Z 32768))))))
      with (through (int16_of_bytes a b)).
    now rewrite through_int16 by (apply int16_of_bytes_range; assumption).
Qed.

Lemma le_value_le_bytes (n : nat) :
  forall v, 0 <= v < 256 ^ Z.of_nat n -> le_value (le_bytes n v) = v.
Proof.
  induction n as [|n IH]; intros v Hv.
  - cbn in *. lia.
  - cbn [le_bytes le_value]. rewrite IH.
    + pose proof (Z.div_mod v 256). lia.
    + rewrite Nat2Z.inj_succ, Z.pow_succ_r in Hv by lia.
      split; [apply Z.div_pos; lia | apply Z.div_lt_upper_bound; lia].
Qed.

Lemma header_fields (rate dataBytes : Z) (rest : list Z) :
  firstn 44 (header rate dataBytes ++ rest) = header rate dataBytes
  /\ skipn 44 (header rate dataBytes ++ rest) = rest
  /\ field 4 4 (header rate dataBytes ++ rest) = le_value (le_bytes 4 (36 + dataBytes))
  /\ field 24 4 (header rate dataBytes ++ rest) = le_value (le_bytes 4 rate)
  /\ field 28 4 (header rate dataBytes ++ rest) = le_value (le_bytes 4 (rate * 2))
  /\ field 40 4 (header rate dataBytes ++ rest) = le_value (le_bytes 4 dataBytes).
Proof. repeat split; reflexivity. Qed.


Lemma requantized_bytes_id (data : list Z) :
  Forall (fun b => 0 <= b < 256) data ->
  Nat.even (length data) = true ->
  Forall (fun v => v <= 0) (int16_elements data) ->
  requantized_bytes data = data.
Proof.
  induction data as [| a | a b data IH] using pair_induction; intros Hr Hev Hle.
  - reflexivity.
  - discriminate.
  - inversion Hr as [|? ? Ha Hr']; subst. inversion Hr' as [|? ? Hb Hr'']; subst.
    cbn [int16_elements] in Hle. inversion Hle as [|? ? Hv Hle']; subst.
    cbn [requantized_bytes]. rewrite (IH Hr'' Hev Hle').
    unfold requantized. destruct (Z.ltb_spec 0 (int16_of_bytes a b)); [lia|].
    now rewrite le_bytes_int16.
Qed.

(** C1, as the specification states it, fails: the four samples
    [0, 16384, -16384, 32767] arrive as the bytes
    [00 00 00 40 00 C0 FF 7F]; the data chunk of the WAV holds
    [00 00 FF 3F 00 C0 FE 7F]: the two positive samples come back as
    16383 and 32766. *)
Lemma createAudioUrl_not_byte_exact :
  decode b64sample = Return [0; 0; 0; 64; 0; 192; 255; 127]
  /\ int16_elements [0; 0; 0; 64; 0; 192; 255; 127] = [0; 16384; -16384; 32767]
  /\ exists blob,
       createAudioUrl b64sample = Return blob
       /\ length (blob_bytes blob) = 52%nat
       /\ skipn 44 (blob_bytes blob) = [0; 0; 255; 63; 0; 192; 254; 127]
       /\ skipn 44 (blob_bytes blob) <> [0; 0; 0; 64; 0; 192; 255; 127].
Proof.
  split; [reflexivity|]. split; [reflexivity|].
  eexists. split; [vm_compute; reflexivity|].
  split; [reflexivity|]. split; [reflexivity|]. discriminate.
Qed.

(** C1 (amended): for a valid input of [2n] bytes, [n > 0], the WAV has
    [44 + 2n] bytes, declares a data-chunk size of [2n] and a RIFF chunk
    size of [36 + 2n], and its data chunk holds the input samples with
    every sample above zero lowered by one and every other sample
    unchanged; when no sample is above zero the data chunk is the input,
    byte for byte.  In particular the four samples
    [0, 16384, -16384, 32767] give 52 bytes, with bytes 44-45 = 00 00,
    46-47 = FF 3F, 48-49 = 00 C0 and 50-51 = FE 7F. *)
Theorem createAudioUrl_data_chunk :
  (forall (base64 binaryString : string) (n : nat),
      atob base64 = Return binaryString ->
      String.length binaryString = (2 * n)%nat ->
      (0 < n)%nat ->
      36 + 2 * Z.of_nat n < 2 ^ 32 ->
      exists blob,
        createAudioUrl base64 = Return blob
        /\ length (blob_bytes blob) = (44 + 2 * n)%nat
        /\ field 40 4 (blob_bytes blob) = 2 * Z.of_nat n
        /\ field 4 4 (blob_bytes blob) = 36 + 2 * Z.of_nat n
        /\ skipn 44 (blob_bytes blob) = requantized_bytes (bytes_of binaryString)
        /\ (Forall (fun v => v <= 0) (int16_elements (bytes_of binaryString)) ->
            skipn 44 (blob_bytes blob) = bytes_of binaryString))
  /\ decode b64sample = Return [0; 0; 0; 64; 0; 192; 255; 127]
  /\ int16_elements [0; 0; 0; 64; 0; 192; 255; 127] = [0; 16384; -16384; 32767]
  /\ createAudioUrl b64sample = Return sample_wav
  /\ length (blob_bytes sample_wav) = 52%nat
  /\ skipn 44 (blob_bytes sample_wav) = [0; 0; 255; 63; 0; 192; 254; 127].
Proof.
  split; [|repeat split; reflexivity].
  intros base64 binaryString n Hatob Hlen Hn Hbound.
  pose proof (bytes_of_length binaryString) as Hbl. rewrite Hlen in Hbl.
  assert (Hev : Nat.even (length (bytes_of binaryString)) = true).
  { rewrite Hbl. apply Nat.even_spec. now exists n. }
  assert (Hne : bytes_of binaryString <> []).
  { intros Hnil. rewrite Hnil in Hbl. cbn in Hbl. lia. }
  pose proof (int16_elements_length _ Hev) as Hcount.
  assert (Hn' : length (int16_elements (bytes_of binaryString)) = n) by lia.
  eexists. split; [apply (createAudioUrl_returns _ _ Hatob Hev Hne)|].
  cbn [blob_bytes]. rewrite Hn'.
  destruct (header_fields outputSampleRate (Z.of_nat n * 2)
              (concat (map sample_bytes
                 (map dequantize (int16_elements (bytes_of binaryString))))))
    as (_ & Hskip & Hriff & _ & _ & Hdata).
  rewrite Hskip, Hriff, Hdata.
  rewrite !le_value_le_bytes by (change (256 ^ Z.of_nat 4) with (2 ^ 32); lia).
  split.
  { rewrite length_app, sample_bytes_length, !length_map, Hn'. reflexivity. }
  rewrite data_chunk by apply bytes_of_range.
  split; [lia|]. split; [lia|]. split; [reflexivity|].
  intros Hle. apply requantized_bytes_id; auto using bytes_of_range.
Qed.

Lemma createAudioUrl_data_chunk_witness :
  atob b64sample = Return (string_of_codes [0; 0; 0; 64; 0; 192; 255; 127])
  /\ exists blob,
       createAudioUrl b64sample = Return blob
       /\ length (blob_bytes blob) = 52%nat
       /\ field 40 4 (blob_bytes blob) = 8
       /\ field 4 4 (blob_bytes blob) = 44
       /\ skipn 44 (blob_bytes blob) = [0; 0; 255; 63; 0; 192; 254; 127].
Proof.
  split; [reflexivity|].
  destruct createAudioUrl_data_chunk as [Hgen _].
  destruct (Hgen b64sample (string_of_codes [0; 0; 0; 64; 0; 192; 255; 127]) 4%nat)
    as (blob & Hret & Hlen & Hdata & Hriff & Hchunk & _).
  - reflexivity.
  - reflexivity.
  - lia.
  - reflexivity.
  - exists blob. repeat split; assumption.
Defined.

(** C3, as the specification states it, fails: a one-byte input is
    refused, but with the RangeError of [Int16Array], and an empty input
    with the NotSupportedError of [createBuffer]; the code has no
    MalformedAudio error. *)
Lemma createAudioUrl_no_MalformedAudio :
  createAudioUrl "AA==" = Throw (platform_exn "RangeError")
  /\ createAudioUrl "" = Throw (platform_exn "NotSupportedError")
  /\ ~ (exists e, createAudioUrl "AA==" = Throw e /\ name e = "MalformedAudio"%string).
Proof.
  split; [reflexivity|]. split; [reflexivity|].
  intros (e & He & Hname). vm_compute in He. inversion He; subst. discriminate.
Qed.

(** C3 (amended): on a decoded input, [createAudioUrl] throws, and
    returns no blob, exactly when the sample count is zero (the
    NotSupportedError of [createBuffer]) or the byte length is odd (the
    RangeError of [Int16Array]); on every other input it returns a WAV of
    [44 + length] bytes.  No exception it throws is named MalformedAudio. *)
Theorem createAudioUrl_failures (base64 binaryString : string) :
  atob base64 = Return binaryString ->
  (String.length binaryString = 0%nat ->
   createAudioUrl base64 = Throw (platform_exn "NotSupportedError"))
  /\ (Nat.even (String.length binaryString) = false ->
      createAudioUrl base64 = Throw (platform_exn "RangeError"))
  /\ (String.length binaryString <> 0%nat ->
      Nat.even (String.length binaryString) = true ->
      exists blob, createAudioUrl base64 = Return blob
                   /\ length (blob_bytes blob) = (44 + String.length binaryString)%nat)
  /\ (forall e, createAudioUrl base64 = Throw e ->
                name e = "NotSupportedError"%string \/ name e = "RangeError"%string).
Proof.
  intros Hatob. pose proof (bytes_of_length binaryString) as Hbl.
  assert (Hzero : String.length binaryString = 0%nat ->
                  createAudioUrl base64 = Throw (platform_exn "NotSupportedError")).
  { intros Hz. apply (createAudioUrl_empty _ _ Hatob).
    rewrite Hz in Hbl. now destruct (bytes_of binaryString). }
  assert (Hodd : Nat.even (String.length binaryString) = false ->
                 createAudioUrl base64 = Throw (platform_exn "RangeError")).
  { intros Ho. apply (createAudioUrl_odd _ _ Hatob). now rewrite Hbl. }
  assert (Hok : String.length binaryString <> 0%nat ->
                Nat.even (String.length binaryString) = true ->
                exists blob, createAudioUrl base64 = Return blob
                  /\ length (blob_bytes blob) = (44 + String.length binaryString)%nat).
  { intros Hnz Hev.
    assert (Hev' : Nat.even (length (bytes_of binaryString)) = true) by now rewrite Hbl.
    assert (Hne : bytes_of binaryString <> []).
    { intros Hnil. rewrite Hnil in Hbl. cbn in Hbl. lia. }
    eexists. split; [apply (createAudioUrl_returns _ _ Hatob Hev' Hne)|].
    cbn [blob_bytes].
    rewrite length_app, sample_bytes_length, !length_map.
    rewrite (int16_elements_length _ Hev').
    change (length (header outputSampleRate
                      (Z.of_nat (length (int16_elements (bytes_of binaryString))) * 2)))
      with 44%nat.
    lia. }
  repeat split; try assumption.
  intros e He.
  destruct (Nat.eq_dec (String.length binaryString) 0) as [Hz|Hnz].
  - rewrite (Hzero Hz) in He. inversion He. now left.
  - destruct (Nat.even (String.length binaryString)) eqn:Hev.
    + destruct (Hok Hnz eq_refl) as (blob & Hb & _). congruence.
    + rewrite (Hodd eq_refl) in He. inversion He. now right.
Qed.

Lemma createAudioUrl_failures_witness :
  atob "AA==" = Return (string_of_codes [0])
  /\ createAudioUrl "AA==" = Throw (platform_exn "RangeError").
Proof.
  split; [reflexivity|].
  destruct (createAudioUrl_failures "AA==" (string_of_codes [0]) eq_refl)
    as (_ & Hodd & _).
  apply Hodd. reflexivity.
Defined.



(** ** Clamping *)








(** ** The stream preview *)

Import Types StreamPreview PreviewSpec.

Lemma update_nth_length (A : Type) (f : A -> A) (l : list A) :
  forall n, length (update_nth n f l) = length l.
Proof.
  induction l as [|x l IH]; intros [|n]; cbn; auto.
Qed.

Lemma update_nth_nth_error (A : Type) (f : A -> A) (l : list A) :
  forall n x, nth_error l n = Some x -> nth_error (update_nth n f l) n = Some (f x).
Proof.
  induction l as [|y l IH]; intros [|n] x H; cbn in *; try discriminate.
  - now injection H as ->.
  - now apply IH.
Qed.

Lemma with_audio_shape (a : nat) (f : HTMLAudioElement -> HTMLAudioElement) (st : Preview) :
  shape (with_audio a f st) = shape st.
Proof. unfold shape. cbn. now rewrite update_nth_length. Qed.

Lemma handlePlay_shape (policy : Policy) (a : nat) (st : Preview) :
  shape (handlePlay policy a st) = shape st.
Proof.
  unfold handlePlay, audio_play, promise_of_play.
  destruct (policy (playCalls st)); cbn [catch drop].
  - rewrite with_audio_shape. reflexivity.
  - reflexivity.
Qed.

Lemma handlePause_shape (a : nat) (st : Preview) : shape (handlePause a st) = shape st.
Proof. apply with_audio_shape. Qed.

Lemma handleSeek_shape (a : nat) (st : Preview) : shape (handleSeek a st) = shape st.
Proof.
  unfold handleSeek. destruct (audio_at a st); [|reflexivity].
  destruct (ltb _ _); [apply with_audio_shape | reflexivity].
Qed.

Lemma runHandler_shape (policy : Policy) (h : Handler) (st : Preview) :
  shape (runHandler policy h st) = shape st.
Proof.
  unfold runHandler.
  destruct (h_code h);
    auto using handlePlay_shape, handlePause_shape, handleSeek_shape.
Qed.

Lemma dispatch_fold_shape (policy : Policy) (t : EventType) (ls : list Listener) :
  forall st,
    shape (fold_left (fun st l => if EventType_eqb (l_type l) t
                                  then runHandler policy (l_handler l) st else st)
                     ls st)
    = shape st.
Proof.
  induction ls as [|l ls IH]; intros st; [reflexivity|].
  cbn [fold_left]. rewrite IH.
  destruct (EventType_eqb (l_type l) t); [apply runHandler_shape | reflexivity].
Qed.

Lemma dispatchEvent_shape (policy : Policy) (t : EventType) (st : Preview) :
  shape (dispatchEvent policy t st) = shape st.
Proof. apply dispatch_fold_shape. Qed.

Lemma bindEffect_shape (policy : Policy) (p : Props) (st : Preview) :
  shape (bindEffect policy p st) = shape st.
Proof.
  unfold bindEffect, video_play, promise_of_play.
  destruct (source p), (stream p), (truthy (currentVideoUrl p));
    cbn; destruct (policy (playCalls st)); reflexivity.
Qed.

Lemma synced_shape (st st' : Preview) : shape st' = shape st -> synced st -> synced st'.
Proof.
  unfold shape, synced. intros H. injection H as Hp Hr Hc Hl Hn _.
  now rewrite Hp, Hr, Hc, Hl, Hn.
Qed.

Lemma StreamSource_eqb_eq (a b : StreamSource) : StreamSource_eqb a b = true <-> a = b.
Proof. destruct a, b; cbn; split; intros H; try reflexivity; discriminate. Qed.

Lemma option_string_eqb_eq (a b : option string) :
  option_eqb String.eqb a b = true -> a = b.
Proof.
  destruct a, b; cbn; intros H; try reflexivity; try discriminate.
  apply String.eqb_eq in H. now subst.
Qed.

Lemma sync_deps_unchanged (old new : Props) :
  sync_deps_changed old new = false ->
  source new = source old /\ currentAudioUrl new = currentAudioUrl old.
Proof.
  unfold sync_deps_changed. intros H. apply negb_false_iff, andb_prop in H.
  destruct H as [Hs Ha]. apply StreamSource_eqb_eq in Hs.
  apply option_string_eqb_eq in Ha. now split.
Qed.

Lemma audio_at_lt (a : nat) (st : Preview) :
  (a < length (audioEls st))%nat -> exists el, audio_at a st = Some el.
Proof.
  intros H. unfold audio_at.
  destruct (nth_error (audioEls st) a) eqn:E; [eauto|].
  apply nth_error_None in E. lia.
Qed.

Lemma audio_at_with_audio (a : nat) (f : HTMLAudioElement -> HTMLAudioElement)
      (st : Preview) (el : HTMLAudioElement) :
  audio_at a st = Some el -> audio_at a (with_audio a f st) = Some (f el).
Proof. unfold audio_at. cbn. apply update_nth_nth_error. Qed.

(** What the cleanup of the sync effect leaves behind. *)
Lemma syncTeardown_spec (run a : nat) (st : Preview) :
  v_listeners (videoEl st) = sync_listeners run a ->
  (a < length (audioEls st))%nat ->
  let st' := syncTeardown (run, a) st in
  v_listeners (videoEl st') = []
  /\ props st' = props st /\ audioRef st' = audioRef st
  /\ syncCleanup st' = syncCleanup st /\ nextRun st' = nextRun st
  /\ length (audioEls st') = length (audioEls st)
  /\ exists el, audio_at a st' = Some el
                /\ a_paused el = true /\ a_currentTime el = S754_zero false.
Proof.
  intros Hl Ha. destruct (audio_at_lt a st Ha) as [el Hel].
  split.
  { cbn. rewrite Hl. do 4 (cbn; rewrite ?Nat.eqb_refl). reflexivity. }
  do 4 (split; [reflexivity|]).
  split; [cbn; now rewrite !update_nth_length|].
  exists (set_audio_currentTime (S754_zero false) (set_audio_paused true el)).
  split; [|split; reflexivity].
  unfold syncTeardown, audio_pause.
  apply audio_at_with_audio, audio_at_with_audio. exact Hel.
Qed.

(** What a run of the sync effect installs on a preview without listeners. *)
Lemma syncEffect_installs (policy : Policy) (p : Props) (a : nat) (st : Preview) :
  audioRef st = Some a ->
  source p = ANIMATION ->
  v_listeners (videoEl st) = [] ->
  let st' := syncEffect policy p st in
  v_listeners (videoEl st') = sync_listeners (nextRun st) a
  /\ syncCleanup st' = Some (nextRun st, a)
  /\ props st' = props st /\ audioRef st' = Some a
  /\ length (audioEls st') = length (audioEls st).
Proof.
  intros Hr Hs Hl. unfold syncEffect. rewrite Hr, Hs. cbn [StreamSource_eqb].
  match goal with
  | |- context [if ?c then handlePlay policy a ?s else ?s] =>
      assert (Hshape : shape (if c then handlePlay policy a s else s) = shape s)
        by (destruct c; [apply handlePlay_shape | reflexivity]);
      remember (if c then handlePlay policy a s else s) as s' eqn:Es';
      remember s as s0 eqn:Es0
  end.
  unfold shape in Hshape. injection Hshape as Hp Hrf _ Hls Hlen _.
  cbn. rewrite Hp, Hrf, Hls, Hlen. subst s0. cbn. rewrite Hl. cbn.
  rewrite Hr. repeat split.
Qed.

Lemma syncEffect_none (policy : Policy) (p : Props) (st : Preview) :
  audioRef st = None ->
  syncEffect policy p st = set_cleanup None st.
Proof. intros Hr. unfold syncEffect. now rewrite Hr. Qed.

Lemma commit_spec (p : Props) (st : Preview) :
  (forall a, audioRef st = Some a -> (a < length (audioEls st))%nat) ->
  let st' := commit p st in
  props st' = props st /\ syncCleanup st' = syncCleanup st
  /\ v_listeners (videoEl st') = v_listeners (videoEl st)
  /\ nextRun st' = nextRun st
  /\ (length (audioEls st) <= length (audioEls st'))%nat
  /\ (audio_rendered p = false -> audioRef st' = None)
  /\ (audio_rendered p = true ->
      exists a, audioRef st' = Some a /\ (a < length (audioEls st'))%nat)
  /\ (audio_rendered p = true -> forall a, audioRef st = Some a -> audioRef st' = Some a).
Proof.
  intros Hvalid. unfold commit.
  destruct (audio_rendered p); [destruct (audioRef st) as [a|] eqn:Hr|]; cbn.
  - rewrite update_nth_length, Hr. repeat split; auto; try discriminate.
    intros _. exists a. auto.
  - rewrite length_app. cbn. repeat split; auto; try discriminate; try lia.
    intros _. eexists. split; [reflexivity | lia].
  - repeat split; auto; discriminate.
Qed.

Lemma audio_rendered_animation (p : Props) :
  audio_rendered p = true -> source p = ANIMATION.
Proof.
  unfold audio_rendered. intros H. apply andb_prop in H.
  now apply StreamSource_eqb_eq.
Qed.

Lemma synced_ref_valid (st : Preview) :
  synced st -> forall a, audioRef st = Some a -> (a < length (audioEls st))%nat.
Proof.
  unfold synced. intros H a Ha. rewrite Ha in H. tauto.
Qed.

(** The state the effects of a render start from. *)
Lemma teardown_spec (p : Props) (st : Preview) :
  synced st ->
  sync_deps_changed (props st) p = true ->
  let torn := teardown p (commit p st) in
  v_listeners (videoEl torn) = []
  /\ syncCleanup torn = None
  /\ props torn = props st
  /\ audioRef torn = audioRef (commit p st)
  /\ length (audioEls torn) = length (audioEls (commit p st))
  /\ (forall run a, syncCleanup st = Some (run, a) ->
      exists el, audio_at a torn = Some el
                 /\ a_paused el = true /\ a_currentTime el = S754_zero false).
Proof.
  intros Hs Hd.
  destruct (commit_spec p st (synced_ref_valid st Hs))
    as (Hp & Hc & Hl & _ & Hlen & _).
  unfold teardown. rewrite Hp, Hd, Hc.
  unfold synced in Hs.
  destruct (audioRef st) as [a|] eqn:Hr.
  - destruct Hs as (_ & Ha & run & Hcl & Hls). rewrite Hcl.
    destruct (syncTeardown_spec run a (commit p st)) as (T1 & T2 & T3 & T4 & T5 & T6 & T7).
    { now rewrite Hl. }
    { lia. }
    cbn [set_cleanup videoEl syncCleanup props audioRef audioEls].
    split; [exact T1|]. split; [reflexivity|]. split; [congruence|].
    split; [exact T3|]. split; [exact T6|].
    intros run' a' E. injection E as <- <-. exact T7.
  - destruct Hs as (_ & Hcl & Hls). rewrite Hcl.
    split; [congruence|]. split; [congruence|]. split; [exact Hp|].
    split; [reflexivity|]. split; [reflexivity|]. discriminate.
Qed.

Lemma rerender_synced (policy : Policy) (p : Props) (st : Preview) :
  synced st -> synced (rerender policy p st).
Proof.
  intros Hs.
  destruct (commit_spec p st (synced_ref_valid st Hs))
    as (Hp & Hc & Hl & _ & Hlen & Hnone & Hsome & Hkeep).
  unfold rerender, install.
  destruct (sync_deps_changed (props st) p) eqn:Hd.
  - destruct (teardown_spec p st Hs Hd) as (T1 & T2 & T3 & T4 & T5 & _).
    set (torn := teardown p (commit p st)) in *.
    rewrite T3, Hd.
    set (bound := if bind_deps_changed (props st) p
                  then bindEffect policy p torn else torn).
    assert (Hb : shape bound = shape torn).
    { unfold bound. destruct (bind_deps_changed _ _);
        [apply bindEffect_shape | reflexivity]. }
    unfold shape in Hb. injection Hb as _ B2 B3 B4 B5 _.
    destruct (audio_rendered p) eqn:Hrend.
    + destruct (Hsome eq_refl) as (a & Ha & Halt).
      destruct (syncEffect_installs policy p a bound) as (S1 & S2 & _ & S4 & S5).
      { congruence. }
      { now apply audio_rendered_animation. }
      { congruence. }
      unfold synced.
      cbn [set_props audioRef props audioEls syncCleanup videoEl].
      rewrite S4. split; [exact Hrend|]. split; [lia|].
      exists (nextRun bound). auto.
    + rewrite syncEffect_none by (rewrite B2, T4; auto).
      unfold synced.
      cbn [set_props set_cleanup audioRef props audioEls syncCleanup videoEl].
      rewrite B2, T4, (Hnone eq_refl). repeat split; congruence.
  - unfold teardown. rewrite Hp, Hd, Hp, Hd.
    destruct (sync_deps_unchanged _ _ Hd) as [Esrc Eaud].
    assert (Erend : audio_rendered p = audio_rendered (props st)).
    { unfold audio_rendered. now rewrite Esrc, Eaud. }
    set (bound := if bind_deps_changed (props st) p
                  then bindEffect policy p (commit p st) else commit p st).
    assert (Hb : shape bound = shape (commit p st)).
    { unfold bound. destruct (bind_deps_changed _ _);
        [apply bindEffect_shape | reflexivity]. }
    unfold shape in Hb. injection Hb as _ B2 B3 B4 B5 _.
    unfold synced in *.
    cbn [set_props audioRef props audioEls syncCleanup videoEl].
    rewrite B2, B3, B4, B5, Hc, Hl.
    destruct (audioRef st) as [a|] eqn:Hr.
    + destruct Hs as (Hrend & Ha & run & Hcl & Hls).
      rewrite (Hkeep (eq_trans Erend Hrend) a eq_refl).
      split; [congruence|]. split; [lia|]. eauto.
    + destruct Hs as (Hrend & Hcl & Hls).
      rewrite (Hnone (eq_trans Erend Hrend)). repeat split; congruence.
Qed.

Lemma initial_synced_commit (p : Props) :
  let st := commit p (initial p) in
  v_listeners (videoEl st) = [] /\ props st = p
  /\ (audio_rendered p = true -> audioRef st = Some O /\ length (audioEls st) = 1%nat)
  /\ (audio_rendered p = false -> audioRef st = None).
Proof.
  unfold commit. destruct (audio_rendered p); cbn; repeat split; discriminate.
Qed.

Lemma mount_synced (policy : Policy) (p : Props) : synced (mount policy p).
Proof.
  destruct (initial_synced_commit p) as (Hl & Hp & Hsome & Hnone).
  unfold mount.
  pose proof (bindEffect_shape policy p (commit p (initial p))) as Hb.
  set (bound := bindEffect policy p (commit p (initial p))) in *.
  unfold shape in Hb. injection Hb as _ B2 B3 B4 B5 _.
  destruct (audio_rendered p) eqn:Hrend.
  - destruct (Hsome eq_refl) as [Ha Hlen].
    destruct (syncEffect_installs policy p O bound) as (S1 & S2 & _ & S4 & S5).
    { congruence. }
    { now apply audio_rendered_animation. }
    { congruence. }
    unfold synced. cbn [set_props audioRef props audioEls syncCleanup videoEl].
    rewrite S4. split; [exact Hrend|]. split; [lia|]. eauto.
  - rewrite syncEffect_none by (rewrite B2; auto).
    unfold synced.
    cbn [set_props set_cleanup audioRef props audioEls syncCleanup videoEl].
    rewrite B2, (Hnone eq_refl). repeat split; congruence.
Qed.

Lemma step_synced (policy : Policy) (a : Action) (st : Preview) :
  synced st -> synced (step policy a st).
Proof.
  intros Hs. destruct a as [p|t|paused t|a t]; cbn [step].
  - now apply rerender_synced.
  - exact (synced_shape _ _ (dispatchEvent_shape policy t st) Hs).
  - exact Hs.
  - exact (synced_shape _ _ (with_audio_shape a _ st) Hs).
Qed.

Lemma run_synced (policy : Policy) (acts : list Action) :
  forall st, synced st -> synced (run policy acts st).
Proof.
  induction acts as [|a acts IH]; intros st Hs; [exact Hs|].
  cbn [run fold_left]. apply IH. now apply step_synced.
Qed.

Lemma synced_attached (st : Preview) (t : EventType) :
  synced st -> (attached t st <= 1)%nat.
Proof.
  unfold synced, attached. intros Hs.
  destruct (audioRef st) as [a|].
  - destruct Hs as (_ & _ & run & _ & ->). destruct t; cbn; lia.
  - destruct Hs as (_ & _ & ->). cbn. lia.
Qed.

(** *** Muting *)

Lemma syncEffect_video (policy : Policy) (p : Props) (st : Preview) :
  let v := videoEl st in
  let v' := videoEl (syncEffect policy p st) in
  v_srcObject v' = v_srcObject v /\ v_src v' = v_src v /\ v_muted v' = v_muted v.
Proof.
  unfold syncEffect, handlePlay, audio_play, promise_of_play.
  destruct (audioRef st); [destruct (StreamSource_eqb (source p) ANIMATION)|];
    cbn; try (repeat split; reflexivity).
  destruct (v_paused (videoEl st)); cbn; [repeat split; reflexivity|].
  destruct (policy (playCalls st)); cbn; repeat split; reflexivity.
Qed.

(** C2, as the specification states it, fails: bound to a clip of the
    video library the element is muted, and bound to an animation it is
    not. *)
Lemma bindEffect_mutes_library_not_animation :
  v_muted (videoEl (bindEffect allow_all library_props (initial library_props))) = true
  /\ v_muted (videoEl (mount allow_all library_props)) = true
  /\ v_muted (videoEl (bindEffect allow_all animation_props (initial animation_props)))
     = false
  /\ v_muted (videoEl (mount allow_all animation_props)) = false.
Proof. repeat split; reflexivity. Qed.

(** C2 (amended): the binding effect sets the video element muted for
    the webcam source (with or without a stream) and for the video
    library, and unmuted for the animation; the sync effect leaves the
    flag alone. *)
Theorem bindEffect_muted (policy : Policy) (p : Props) (st : Preview) :
  v_muted (videoEl (bindEffect policy p st))
  = match source p with
    | WEBCAM | VIDEO_LIBRARY => true
    | ANIMATION => false
    end
  /\ v_muted (videoEl (syncEffect policy p (bindEffect policy p st)))
     = v_muted (videoEl (bindEffect policy p st))
  /\ v_muted (videoEl (mount policy p))
     = negb (StreamSource_eqb (source p) ANIMATION).
Proof.
  assert (H : forall st0, v_muted (videoEl (bindEffect policy p st0))
                          = negb (StreamSource_eqb (source p) ANIMATION)).
  { intros st0. unfold bindEffect, video_play, promise_of_play.
    destruct (source p), (stream p), (truthy (currentVideoUrl p));
      cbn; destruct (policy (playCalls st0)); reflexivity. }
  split; [rewrite H; now destruct (source p)|].
  split; [apply syncEffect_video|].
  unfold mount. cbn [set_props videoEl].
  destruct (syncEffect_video policy p (bindEffect policy p (commit p (initial p))))
    as (_ & _ & ->).
  apply H.
Qed.

(** *** Teardown before install *)

(** C7: a render that changes the source or the audio URL first runs the
    cleanup of the previous sync effect, and only then the effects of the
    new binding: the state they start from has no listener on the video
    and the audio of the previous binding paused at position zero.  After
    any history of renders, events and playback, at most one listener is
    registered per event, so an event runs each handler at most once. *)
Theorem rerender_tears_down_first
        (policy : Policy) (acts : list Action) (p0 p : Props) :
  let st := run policy acts (mount policy p0) in
  sync_deps_changed (props st) p = true ->
  let torn := teardown p (commit p st) in
  rerender policy p st = install policy p torn
  /\ v_listeners (videoEl torn) = []
  /\ syncCleanup torn = None
  /\ (forall run a, syncCleanup st = Some (run, a) ->
      exists el, audio_at a torn = Some el
                 /\ a_paused el = true /\ a_currentTime el = S754_zero false)
  /\ (forall t, (attached t st <= 1)%nat)
  /\ (forall t, (attached t (rerender policy p st) <= 1)%nat)
  /\ (playCalls (dispatchEvent policy EvPlay (rerender policy p st))
      <= S (playCalls (rerender policy p st)))%nat.
Proof.
  intros st Hd torn.
  assert (Hs : synced st) by apply run_synced, mount_synced.
  destruct (teardown_spec p st Hs Hd) as (T1 & T2 & _ & _ & _ & T6).
  split; [reflexivity|]. split; [exact T1|]. split; [exact T2|].
  split; [exact T6|].
  split; [intros t; now apply synced_attached|].
  pose proof (rerender_synced policy p st Hs) as Hs'.
  split; [intros t; now apply synced_attached|].
  revert Hs'. generalize (rerender policy p st). intros st' Hs'.
  unfold dispatchEvent. unfold synced in Hs'.
  destruct (audioRef st') as [a|].
  - destruct Hs' as (_ & _ & run & _ & ->). cbn.
    unfold handlePlay, audio_play, promise_of_play.
    destruct (policy (playCalls st')); cbn; lia.
  - destruct Hs' as (_ & _ & ->). cbn. lia.
Qed.

Lemma rerender_tears_down_first_witness :
  sync_deps_changed (props (run allow_all [Playback false (of_Z 1)]
                                (mount allow_all animation_props)))
                    library_props = true
  /\ v_listeners (videoEl (run allow_all [Playback false (of_Z 1)]
                               (mount allow_all animation_props)))
     = sync_listeners 0 0
  /\ v_listeners (videoEl (teardown library_props
       (commit library_props (run allow_all [Playback false (of_Z 1)]
                                  (mount allow_all animation_props))))) = [].
Proof.
  split; [reflexivity|]. split; [reflexivity|].
  apply (rerender_tears_down_first allow_all [Playback false (of_Z 1)]
           animation_props library_props).
  reflexivity.
Defined.

(** *** The sync loop *)

(** C6: while the sync association is installed, a position update of
    the video sets the audio position to the video position when the
    absolute difference of the two exceeds 0.5 and leaves it unchanged
    otherwise; a pause of the video pauses the audio; a play of the video
    calls [play()] on the audio, which starts it unless the platform
    refuses, and a refusal is logged. *)
Theorem sync_loop_follows_video
        (policy : Policy) (acts : list Action) (p0 : Props) (run0 a : nat) :
  let st := run policy acts (mount policy p0) in
  syncCleanup st = Some (run0, a) ->
  exists el,
    audio_at a st = Some el
    /\ audio_at a (dispatchEvent policy EvTimeupdate st)
       = Some (if ltb half (abs (sub (a_currentTime el) (v_currentTime (videoEl st))))
               then set_audio_currentTime (v_currentTime (videoEl st)) el
               else el)
    /\ audio_at a (dispatchEvent policy EvPause st) = Some (set_audio_paused true el)
    /\ playCalls (dispatchEvent policy EvPlay st) = S (playCalls st)
    /\ (policy (playCalls st) = true ->
        audio_at a (dispatchEvent policy EvPlay st) = Some (set_audio_paused false el))
    /\ (policy (playCalls st) = false ->
        audio_at a (dispatchEvent policy EvPlay st) = Some el
        /\ console (dispatchEvent policy EvPlay st)
           = console st ++ [("Audio sync play failed"%string,
                             platform_exn "NotAllowedError")]).
Proof.
  intros st Hc.
  assert (Hs : synced st) by apply run_synced, mount_synced.
  revert Hs Hc. generalize st. clear st. intros st Hs Hc.
  unfold synced in Hs. destruct (audioRef st) as [a'|].
  2:{ destruct Hs as (_ & Hn & _). congruence. }
  destruct Hs as (_ & Ha & run & Hcl & Hls).
  assert (a' = a) as -> by congruence.
  destruct (audio_at_lt a st Ha) as [el Hel].
  exists el. split; [exact Hel|].
  unfold dispatchEvent. rewrite Hls. cbn [sync_listeners fold_left l_type l_handler
    EventType_eqb runHandler handler h_code h_audio].
  split.
  { unfold handleSeek. rewrite Hel.
    destruct (ltb half _); [now apply audio_at_with_audio | exact Hel]. }
  split.
  { unfold handlePause, audio_pause. now apply audio_at_with_audio. }
  unfold handlePlay, audio_play, promise_of_play.
  destruct (policy (playCalls st)); cbn [catch drop].
  - split; [reflexivity|]. split; [|discriminate].
    intros _. now apply (audio_at_with_audio a _ (count_play st)).
  - split; [reflexivity|]. split; [discriminate|].
    intros _. split; [exact Hel | reflexivity].
Qed.

Lemma sync_loop_follows_video_witness :
  syncCleanup (drifted 26) = Some (O, O)
  /\ option_map a_currentTime (audio_at 0 (drifted 26)) = Some (ratio 26 10)
  /\ option_map a_currentTime (audio_at 0 (dispatchEvent allow_all EvTimeupdate (drifted 26)))
     = Some (ratio 20 10)
  /\ option_map a_currentTime (audio_at 0 (drifted 24)) = Some (ratio 24 10)
  /\ option_map a_currentTime (audio_at 0 (dispatchEvent allow_all EvTimeupdate (drifted 24)))
     = Some (ratio 24 10).
Proof.
  split; [reflexivity|]. split; [reflexivity|]. split.
  - destruct (sync_loop_follows_video allow_all
                [Playback false (ratio 20 10); Advance 0 (ratio 26 10)]
                animation_props 0 0 eq_refl) as (el & Hel & Hseek & _).
    fold (drifted 26) in Hel, Hseek. rewrite Hseek.
    vm_compute in Hel. injection Hel as <-. reflexivity.
  - split; [reflexivity|].
    destruct (sync_loop_follows_video allow_all
                [Playback false (ratio 20 10); Advance 0 (ratio 24 10)]
                animation_props 0 0 eq_refl) as (el & Hel & Hseek & _).
    fold (drifted 24) in Hel, Hseek. rewrite Hseek.
    vm_compute in Hel. injection Hel as <-. reflexivity.
Defined.

(** *** Selecting a clip of the library *)

Lemma bindEffect_audioEls (policy : Policy) (p : Props) (st : Preview) :
  audioEls (bindEffect policy p st) = audioEls st.
Proof.
  unfold bindEffect, video_play, promise_of_play.
  destruct (source p), (stream p), (truthy (currentVideoUrl p));
    cbn; destruct (policy (playCalls st)); reflexivity.
Qed.

(** C10: [handleSelectVideo] sets the audio URL to null together with the
    video URL and the source; rendered with the resulting props, the
    preview has no audio element, no sync listener and no cleanup left,
    and the narration of an animation that was bound is paused at zero. *)
Theorem handleSelectVideo_clears_audio
        (now : Z) (video : VideoAsset) (app : App.State)
        (policy : Policy) (acts : list Action) (p0 : Props) :
  let app' := App.handleSelectVideo now video app in
  let before := run policy acts (mount policy p0) in
  let st := rerender policy (App.previewProps app') before in
  App.currentAudioUrl app' = None
  /\ App.currentVideoUrl app' = Some (va_url video)
  /\ App.streamSource app' = VIDEO_LIBRARY
  /\ audioRef st = None
  /\ syncCleanup st = None
  /\ v_listeners (videoEl st) = []
  /\ (forall run a, syncCleanup before = Some (run, a) ->
      exists el, audio_at a st = Some el
                 /\ a_paused el = true /\ a_currentTime el = S754_zero false).
Proof.
  intros app' before st.
  split; [reflexivity|]. split; [reflexivity|]. split; [reflexivity|].
  assert (Hb : synced before) by apply run_synced, mount_synced.
  pose proof (rerender_synced policy (App.previewProps app') before Hb) as Hs.
  fold st in Hs.
  assert (Hrend : audio_rendered (props st) = false) by reflexivity.
  unfold synced in Hs.
  destruct (audioRef st) as [a|] eqn:Hr.
  { destruct Hs as (Hs & _). congruence. }
  destruct Hs as (_ & Hcl & Hls).
  split; [reflexivity|]. split; [exact Hcl|]. split; [exact Hls|].
  intros run a Hbc.
  assert (Hd : sync_deps_changed (props before) (App.previewProps app') = true).
  { unfold synced in Hb. destruct (audioRef before).
    - destruct Hb as (Hrb & _). apply audio_rendered_animation in Hrb.
      unfold sync_deps_changed. rewrite Hrb. reflexivity.
    - destruct Hb as (_ & Hn & _). congruence. }
  destruct (teardown_spec (App.previewProps app') before Hb Hd)
    as (_ & _ & T3 & T4 & _ & T6).
  destruct (T6 run a Hbc) as (el & Hel & Hp & Ht).
  exists el. split; [|split; assumption].
  unfold st, rerender, install. rewrite T3, Hd.
  set (torn := teardown (App.previewProps app') (commit (App.previewProps app') before))
    in *.
  assert (Hnone : audioRef torn = None).
  { rewrite T4.
    now destruct (commit_spec (App.previewProps app') before (synced_ref_valid _ Hb))
      as (_ & _ & _ & _ & _ & Hn & _). }
  set (bound := if bind_deps_changed (props before) (App.previewProps app')
                then bindEffect policy (App.previewProps app') torn else torn).
  assert (Hba : audioEls bound = audioEls torn /\ audioRef bound = None).
  { unfold bound. destruct (bind_deps_changed _ _); [|auto].
    split; [apply bindEffect_audioEls|].
    pose proof (bindEffect_shape policy (App.previewProps app') torn) as Hsh.
    unfold shape in Hsh. injection Hsh as _ E _ _ _ _. congruence. }
  destruct Hba as [Hba Hbr].
  rewrite syncEffect_none by exact Hbr.
  unfold audio_at in *. cbn [set_props set_cleanup audioEls]. now rewrite Hba.
Qed.

Example select_animation_then_clip :
  let before := mount allow_all (App.previewProps studio) in
  let after := rerender allow_all
                 (App.previewProps (App.handleSelectVideo 1700000001000 clip studio))
                 before in
  audioRef before = Some O
  /\ option_map a_paused (audio_at 0 before) = Some false
  /\ audioRef after = None
  /\ v_listeners (videoEl after) = []
  /\ v_src (videoEl after) = "blob:clip"%string
  /\ option_map a_paused (audio_at 0 after) = Some true.
Proof. repeat split; reflexivity. Qed.

(** *** Rejected play calls *)

Lemma accounted_refl (policy : Policy) (st : Preview) : accounted policy st st.
Proof.
  split; [reflexivity|]. exists O. cbn. split; lia.
Qed.

Lemma accounted_trans (policy : Policy) (s1 s2 s3 : Preview) :
  accounted policy s1 s2 -> accounted policy s2 s3 -> accounted policy s1 s3.
Proof.
  intros (U1 & k1 & P1 & C1) (U2 & k2 & P2 & C2).
  split; [congruence|]. exists (k1 + k2)%nat. split; [lia|].
  unfold rejections in *. rewrite seq_app, filter_app, length_app.
  rewrite P1 in C2. lia.
Qed.

Lemma accounted_same (policy : Policy) (st st' : Preview) :
  unhandled st' = unhandled st -> playCalls st' = playCalls st ->
  console st' = console st -> accounted policy st st'.
Proof.
  intros U P C. split; [exact U|]. exists O. rewrite P, C. cbn. split; lia.
Qed.

Lemma map_update_nth_keep (A B : Type) (g : A -> B) (f : A -> A) (l : list A) :
  (forall x, g (f x) = g x) -> forall n, map g (update_nth n f l) = map g l.
Proof.
  intros H. induction l as [|x l IH]; intros [|n]; cbn; try reflexivity.
  - now rewrite H.
  - now rewrite IH.
Qed.

Lemma map_update_nth_set (A B : Type) (g : A -> B) (f : A -> A) (b : B) (l : list A) :
  (forall x, g (f x) = b) ->
  forall n, map g (update_nth n f l) = update_nth n (fun _ => b) (map g l).
Proof.
  intros H. induction l as [|x l IH]; intros [|n]; cbn; try reflexivity.
  - now rewrite H.
  - now rewrite IH.
Qed.

Lemma with_audio_binding (a : nat) (f : HTMLAudioElement -> HTMLAudioElement)
      (st : Preview) :
  (forall el, a_src (f el) = a_src el) -> binding (with_audio a f st) = binding st.
Proof.
  intros H. unfold binding. cbn. now rewrite map_update_nth_keep.
Qed.

Lemma handlePlay_binding (policy : Policy) (a : nat) (st : Preview) :
  binding (handlePlay policy a st) = binding st.
Proof.
  unfold handlePlay, audio_play, promise_of_play.
  destruct (policy (playCalls st)); cbn [catch drop]; [|reflexivity].
  now rewrite with_audio_binding.
Qed.

Lemma handlePlay_accounted (policy : Policy) (a : nat) (st : Preview) :
  accounted policy st (handlePlay policy a st).
Proof.
  unfold handlePlay, audio_play, promise_of_play, accounted, rejections.
  destruct (policy (playCalls st)) eqn:Hp; cbn [catch drop].
  - split; [reflexivity|]. exists 1%nat. cbn. rewrite Hp. cbn. split; lia.
  - split; [reflexivity|]. exists 1%nat. cbn. rewrite Hp, length_app. cbn. split; lia.
Qed.

Lemma handleSeek_binding (a : nat) (st : Preview) : binding (handleSeek a st) = binding st.
Proof.
  unfold handleSeek. destruct (audio_at a st); [|reflexivity].
  destruct (ltb _ _); [now apply with_audio_binding | reflexivity].
Qed.

Lemma handleSeek_accounted (policy : Policy) (a : nat) (st : Preview) :
  accounted policy st (handleSeek a st).
Proof.
  unfold handleSeek. destruct (audio_at a st); [|apply accounted_refl].
  destruct (ltb _ _); [now apply accounted_same | apply accounted_refl].
Qed.

Lemma runHandler_binding (policy : Policy) (h : Handler) (st : Preview) :
  binding (runHandler policy h st) = binding st.
Proof.
  unfold runHandler. destruct (h_code h).
  - apply handlePlay_binding.
  - now apply with_audio_binding.
  - apply handleSeek_binding.
Qed.

Lemma runHandler_accounted (policy : Policy) (h : Handler) (st : Preview) :
  accounted policy st (runHandler policy h st).
Proof.
  unfold runHandler. destruct (h_code h).
  - apply handlePlay_accounted.
  - now apply accounted_same.
  - apply handleSeek_accounted.
Qed.

Lemma dispatch_fold_binding (policy : Policy) (t : EventType) (ls : list Listener) :
  forall st,
    let st' := fold_left (fun st l => if EventType_eqb (l_type l) t
                                      then runHandler policy (l_handler l) st else st)
                         ls st in
    binding st' = binding st /\ accounted policy st st'.
Proof.
  induction ls as [|l ls IH]; intros st; [split; [reflexivity | apply accounted_refl]|].
  cbn [fold_left]. cbv zeta in *.
  destruct (EventType_eqb (l_type l) t).
  - destruct (IH (runHandler policy (l_handler l) st)) as [B A]. split.
    + now rewrite B, runHandler_binding.
    + eapply accounted_trans; [apply runHandler_accounted | exact A].
  - apply IH.
Qed.

Lemma dispatchEvent_binding (policy : Policy) (t : EventType) (st : Preview) :
  binding (dispatchEvent policy t st) = binding st
  /\ accounted policy st (dispatchEvent policy t st).
Proof. apply dispatch_fold_binding. Qed.

Lemma bindEffect_binding (policy policy' : Policy) (p : Props) (s1 s2 : Preview) :
  binding s1 = binding s2 ->
  binding (bindEffect policy p s1) = binding (bindEffect policy' p s2).
Proof.
  unfold bindEffect, video_play, promise_of_play.
  destruct (source p), (stream p), (truthy (currentVideoUrl p));
    unfold binding; intros H; injection H; clear H; intros; cbn;
    destruct (policy (playCalls s1)), (policy' (playCalls s2)); cbn;
    repeat match goal with E : _ = _ |- _ => rewrite E; clear E end;
    reflexivity.
Qed.

Lemma bindEffect_accounted (policy : Policy) (p : Props) (st : Preview) :
  accounted policy st (bindEffect policy p st).
Proof.
  assert (Hplay : forall msg s,
    accounted policy s
      (let '(s', r) := video_play policy s in
       let '(s', r) := catch r (console_error msg) s' in
       drop r s')).
  { intros msg s. unfold video_play, promise_of_play, accounted, rejections.
    destruct (policy (playCalls s)) eqn:Hp; cbn [catch drop];
      (split; [reflexivity|]); exists 1%nat; cbn; rewrite Hp; cbn;
      rewrite ?length_app; cbn; split; lia. }
  unfold bindEffect.
  destruct (source p), (stream p), (truthy (currentVideoUrl p));
    first [ apply accounted_refl
          | now apply accounted_same
          | eapply accounted_trans; [|apply Hplay]; now apply accounted_same ].
Qed.

Lemma add_listener_binding (t : EventType) (h : Handler) (s1 s2 : Preview) :
  binding s1 = binding s2 ->
  binding (with_video (fun v => addEventListener v t h) s1)
  = binding (with_video (fun v => addEventListener v t h) s2).
Proof. binding_congruence. Qed.

Lemma remove_listener_binding (t : EventType) (h : Handler) (s1 s2 : Preview) :
  binding s1 = binding s2 ->
  binding (with_video (fun v => removeEventListener v t h) s1)
  = binding (with_video (fun v => removeEventListener v t h) s2).
Proof. binding_congruence. Qed.

Lemma set_cleanup_binding (c : option (nat * nat)) (s1 s2 : Preview) :
  binding s1 = binding s2 -> binding (set_cleanup c s1) = binding (set_cleanup c s2).
Proof. binding_congruence. Qed.

Lemma fresh_run_binding (s1 s2 : Preview) :
  binding s1 = binding s2 -> binding (fresh_run s1) = binding (fresh_run s2).
Proof. binding_congruence. Qed.

Lemma set_props_binding (p : Props) (s1 s2 : Preview) :
  binding s1 = binding s2 -> binding (set_props p s1) = binding (set_props p s2).
Proof. binding_congruence. Qed.

Lemma binding_audioRef (s1 s2 : Preview) :
  binding s1 = binding s2 ->
  audioRef s1 = audioRef s2 /\ syncCleanup s1 = syncCleanup s2
  /\ nextRun s1 = nextRun s2 /\ props s1 = props s2
  /\ length (audioEls s1) = length (audioEls s2).
Proof.
  unfold binding. intros H. injection H. intros. repeat split; try assumption.
  rewrite <- (length_map a_src (audioEls s1)), <- (length_map a_src (audioEls s2)).
  congruence.
Qed.

Lemma maybe_handlePlay_binding (policy : Policy) (c : bool) (a : nat) (st : Preview) :
  binding (if c then handlePlay policy a st else st) = binding st.
Proof. destruct c; [apply handlePlay_binding | reflexivity]. Qed.

Lemma syncEffect_binding (policy policy' : Policy) (p : Props) (s1 s2 : Preview) :
  binding s1 = binding s2 ->
  binding (syncEffect policy p s1) = binding (syncEffect policy' p s2).
Proof.
  intros H. destruct (binding_audioRef _ _ H) as (Hr & _ & Hn & _).
  unfold syncEffect. rewrite Hr, Hn.
  destruct (audioRef s2) as [a|]; [destruct (StreamSource_eqb (source p) ANIMATION)|].
  - apply set_cleanup_binding. rewrite !maybe_handlePlay_binding.
    now apply add_listener_binding, add_listener_binding, add_listener_binding,
      fresh_run_binding.
  - apply set_cleanup_binding. unfold audio_pause.
    now rewrite !with_audio_binding.
  - now apply set_cleanup_binding.
Qed.

Lemma syncEffect_accounted (policy : Policy) (p : Props) (st : Preview) :
  accounted policy st (syncEffect policy p st).
Proof.
  unfold syncEffect.
  destruct (audioRef st) as [a|]; [destruct (StreamSource_eqb (source p) ANIMATION)|];
    try now apply accounted_same.
  match goal with
  | |- context [if ?c then handlePlay policy a ?s else ?s] =>
      assert (Hacc : accounted policy s (if c then handlePlay policy a s else s))
        by (destruct c; [apply handlePlay_accounted | apply accounted_refl]);
      generalize dependent (if c then handlePlay policy a s else s)
  end.
  intros s' (U & k & P & C). split; [exact U|]. exists k. split; [exact P | exact C].
Qed.

Lemma commit_binding (p : Props) (s1 s2 : Preview) :
  binding s1 = binding s2 -> binding (commit p s1) = binding (commit p s2).
Proof.
  intros H. destruct (binding_audioRef _ _ H) as (Hr & _ & _ & _ & Hlen).
  unfold commit. rewrite Hr, Hlen.
  destruct (audio_rendered p); [destruct (audioRef s2)|].
  - revert H. unfold binding. intros H. injection H. intros. cbn.
    rewrite !(map_update_nth_set _ _ a_src _ (or_empty (currentAudioUrl p)))
      by reflexivity.
    congruence.
  - revert H. unfold binding. intros H. injection H. intros. cbn.
    rewrite !map_app. congruence.
  - revert H. binding_congruence.
Qed.

Lemma commit_accounted (policy : Policy) (p : Props) (st : Preview) :
  accounted policy st (commit p st).
Proof.
  unfold commit.
  destruct (audio_rendered p); [destruct (audioRef st)|]; now apply accounted_same.
Qed.

Lemma teardown_binding (p : Props) (s1 s2 : Preview) :
  binding s1 = binding s2 -> binding (teardown p s1) = binding (teardown p s2).
Proof.
  intros H. destruct (binding_audioRef _ _ H) as (_ & Hc & _ & Hp & _).
  unfold teardown. rewrite Hp, Hc.
  destruct (sync_deps_changed (props s2) p); [|exact H].
  destruct (syncCleanup s2) as [[run a]|]; [|exact H].
  apply set_cleanup_binding. unfold syncTeardown, audio_pause.
  rewrite !with_audio_binding by reflexivity.
  now apply remove_listener_binding, remove_listener_binding, remove_listener_binding.
Qed.

Lemma teardown_accounted (policy : Policy) (p : Props) (st : Preview) :
  accounted policy st (teardown p st).
Proof.
  unfold teardown. destruct (sync_deps_changed (props st) p); [|apply accounted_refl].
  destruct (syncCleanup st) as [[run a]|]; [|apply accounted_refl].
  now apply accounted_same.
Qed.

Lemma install_binding (policy policy' : Policy) (p : Props) (s1 s2 : Preview) :
  binding s1 = binding s2 ->
  binding (install policy p s1) = binding (install policy' p s2).
Proof.
  intros H. destruct (binding_audioRef _ _ H) as (_ & _ & _ & Hp & _).
  unfold install. rewrite Hp. apply set_props_binding.
  destruct (sync_deps_changed (props s2) p), (bind_deps_changed (props s2) p);
    auto using syncEffect_binding, bindEffect_binding.
Qed.

Lemma install_accounted (policy : Policy) (p : Props) (st : Preview) :
  accounted policy st (install policy p st).
Proof.
  unfold install.
  set (s1 := if bind_deps_changed (props st) p then bindEffect policy p st else st).
  assert (A1 : accounted policy st s1).
  { unfold s1. destruct (bind_deps_changed _ _);
      [apply bindEffect_accounted | apply accounted_refl]. }
  set (s2 := if sync_deps_changed (props st) p then syncEffect policy p s1 else s1).
  assert (A2 : accounted policy s1 s2).
  { unfold s2. destruct (sync_deps_changed _ _);
      [apply syncEffect_accounted | apply accounted_refl]. }
  eapply accounted_trans; [exact A1|]. eapply accounted_trans; [exact A2|].
  now apply accounted_same.
Qed.

Lemma step_binding (policy policy' : Policy) (a : Action) (s1 s2 : Preview) :
  binding s1 = binding s2 ->
  binding (step policy a s1) = binding (step policy' a s2).
Proof.
  intros H. destruct a as [p|t|paused t|a t]; cbn [step].
  - unfold rerender. now apply install_binding, teardown_binding, commit_binding.
  - destruct (dispatchEvent_binding policy t s1) as [-> _].
    destruct (dispatchEvent_binding policy' t s2) as [-> _]. exact H.
  - revert H. binding_congruence.
  - now rewrite !with_audio_binding.
Qed.

Lemma step_accounted (policy : Policy) (a : Action) (st : Preview) :
  accounted policy st (step policy a st).
Proof.
  destruct a as [p|t|paused t|a t]; cbn [step].
  - unfold rerender.
    eapply accounted_trans; [apply commit_accounted|].
    eapply accounted_trans; [apply teardown_accounted | apply install_accounted].
  - apply dispatchEvent_binding.
  - now apply accounted_same.
  - now apply accounted_same.
Qed.

Lemma mount_binding (policy policy' : Policy) (p : Props) :
  binding (mount policy p) = binding (mount policy' p).
Proof.
  unfold mount. now apply set_props_binding, syncEffect_binding, bindEffect_binding.
Qed.

Lemma mount_accounted (policy : Policy) (p : Props) :
  accounted policy (initial p) (mount policy p).
Proof.
  unfold mount.
  eapply accounted_trans; [apply (commit_accounted policy p)|].
  eapply accounted_trans; [apply bindEffect_accounted|].
  eapply accounted_trans; [apply syncEffect_accounted|].
  now apply accounted_same.
Qed.

Lemma run_binding (policy policy' : Policy) (acts : list Action) :
  forall s1 s2,
    binding s1 = binding s2 ->
    binding (run policy acts s1) = binding (run policy' acts s2).
Proof.
  induction acts as [|a acts IH]; intros s1 s2 H; [exact H|].
  cbn [run fold_left]. apply IH. now apply step_binding.
Qed.

Lemma run_accounted (policy : Policy) (acts : list Action) :
  forall st, accounted policy st (run policy acts st).
Proof.
  induction acts as [|a acts IH]; intros st; [apply accounted_refl|].
  cbn [run fold_left].
  eapply accounted_trans; [apply step_accounted | apply IH].
Qed.

(** C9: whichever calls of [play()] the platform refuses, after any
    history the bound state of the preview (props, bound media, mute
    flag, listeners, audio elements, cleanup) is the one it has when no
    call is refused; every refusal is caught by the handler of its call
    site, which writes one line to the console, and no rejection is left
    unhandled. *)
Theorem rejected_play_keeps_binding
        (policy : Policy) (acts : list Action) (p0 : Props) :
  let st := run policy acts (mount policy p0) in
  binding st = binding (run allow_all acts (mount allow_all p0))
  /\ unhandled st = []
  /\ length (console st) = rejections policy 0 (playCalls st)
  /\ (forall a s,
        binding (handlePlay policy a s) = binding s
        /\ unhandled (handlePlay policy a s) = unhandled s
        /\ (policy (playCalls s) = false ->
            console (handlePlay policy a s)
            = console s ++ [("Audio sync play failed"%string,
                             platform_exn "NotAllowedError")]
            /\ audioEls (handlePlay policy a s) = audioEls s))
  /\ (forall p s,
        binding (bindEffect policy p s) = binding (bindEffect allow_all p s)
        /\ unhandled (bindEffect policy p s) = unhandled s).
Proof.
  intros st.
  split; [apply run_binding, mount_binding|].
  assert (A : accounted policy (initial p0) st).
  { eapply accounted_trans; [apply mount_accounted | apply run_accounted]. }
  destruct A as (U & k & P & C). cbn in U, P, C.
  split; [exact U|]. split; [now rewrite C, P|].
  split.
  - intros a s. split; [apply handlePlay_binding|].
    split; [apply handlePlay_accounted|].
    intros Hp. unfold handlePlay, audio_play, promise_of_play. rewrite Hp.
    split; reflexivity.
  - intros p s. split; [now apply bindEffect_binding|]. apply bindEffect_accounted.
Qed.

(** ** The animation workflow *)

Import Async CreatePanel Workflow.

Section Animation.
Variable svc : Services.
Variable form : Form.
Variable file : File.
Variable base64Image : string.
Variables t0 d0 : Time.

Hypothesis Hfile : imageFile form = Some file.
Hypothesis Htext : ttsText form <> ""%string.
Hypothesis Hread : readImage svc file = (Some d0, Return base64Image).

Local Notation t1 := (t0 + d0)%nat.
Local Notation start := {| clock := t0; trace := [] |}.

Lemma handleGenerateAnimation_run :
  exists sp vp,
    speechPromise svc form t1 = Some sp
    /\ videoPromise svc form base64Image file t1 = Some vp
    /\ handleGenerateAnimation svc form start = conclusion form t0 t1 (Promise_all sp vp)
    /\ (forall t r, settlement sp = Some (t, r) ->
        exists ls rs, generateContent svc (speechPrompt form) = (Some ls, rs)
                      /\ t = (t1 + ls)%nat)
    /\ (forall ls rs, generateContent svc (speechPrompt form) = (Some ls, rs) ->
        exists r, settlement sp = Some ((t1 + ls)%nat, r))
    /\ settlement vp
       = match generateVideo svc (finalAnimPrompt form) base64Image (file_type file) with
         | (Some lv, rv) => Some ((t1 + lv)%nat, rv)
         | (None, _) => None
         end.
Proof.
  unfold speechPromise, videoPromise, promise_from, handleGenerateAnimation.
  rewrite Hfile. apply String.eqb_neq in Htext. rewrite Htext.
  unfold finally, try_catch, then_, call, abind, await, blobToBase64,
    generateSpeechFromText, generateVideoFromImage, CreatePanel.createAudioUrl,
    external, emit, lift, ret, throw, now.
  rewrite Htext, Hread. fold (speechPrompt form) (finalAnimPrompt form).
  unfold conclusion, issued, Promise_all. settle.
  destruct (generateVideo svc (finalAnimPrompt form) base64Image (file_type file))
    as [[lv|] rv];
  destruct (generateContent svc (speechPrompt form)) as [[ls|] rs].
  all: try destruct rv as [vurl|ev].
  all: try destruct rs as [[b|]|es].
  all: settle.
  all: try destruct (String.eqb b ""); settle.
  all: try destruct (GeminiService.createAudioUrl b); settle.
  all: rewrite ?(Nat.max_r t1 (t1 + _)) by lia.
  all: eexists; eexists; split; [reflexivity|]; split; [reflexivity|].
  all: settle.
  all: try match goal with
           | |- context [(?a <=? ?b)%nat] => destruct (a <=? b)%nat
           end.
  all: settle;
    rewrite ?(Nat.max_r t1 (t1 + _)) by lia;
    rewrite ?(Nat.max_r t1 (Nat.max _ _)) by lia.
  all: split; [reflexivity|].
  all: split; [intros t r E; try discriminate; injection E as <- <-; eauto|].
  all: split; [intros ls' rs' E; try discriminate; injection E as <- <-; eauto|].
  all: reflexivity.
Qed.

(** C8: once the image is read, the speech request and the video
    request are both issued at that same instant, before either is
    awaited; the handler hands over an animation only when both
    promises are fulfilled, at the later of the two settlements; and
    when one of them is rejected before the other is, the handler
    reports the failure at the instant of that rejection, whether or
    not the other promise ever settles. *)
Theorem generation_runs_concurrently :
  exists sp vp,
    speechPromise svc form t1 = Some sp
    /\ videoPromise svc form base64Image file t1 = Some vp
    /\ let w := fst (handleGenerateAnimation svc form start) in
       let c := snd (handleGenerateAnimation svc form start) in
       In (t1, Issue "generateContent"%string) (trace w)
       /\ In (t1, Issue "generateVideos"%string) (trace w)
       /\ (forall ls rs,
             generateContent svc (speechPrompt form) = (Some ls, rs) ->
             exists r, settlement sp = Some ((t1 + ls)%nat, r))
       /\ (forall lv rv,
             generateVideo svc (finalAnimPrompt form) base64Image (file_type file)
             = (Some lv, rv) ->
             settlement vp = Some ((t1 + lv)%nat, rv))
       /\ (forall ts a tv v,
             settlement sp = Some (ts, Return a) ->
             settlement vp = Some (tv, Return v) ->
             c = Done (Return tt)
             /\ clock w = Nat.max ts tv
             /\ In (Nat.max ts tv,
                    AnimationGenerated (animation form (Nat.max ts tv) a v))
                   (trace w))
       /\ (forall ts e,
             settlement sp = Some (ts, Throw e) ->
             (forall tv e', settlement vp = Some (tv, Throw e') -> (ts <= tv)%nat) ->
             c = Done (Return tt)
             /\ clock w = ts
             /\ In (ts, Alert (message e)) (trace w))
       /\ (forall tv e,
             settlement vp = Some (tv, Throw e) ->
             (forall ts e', settlement sp = Some (ts, Throw e') -> (tv < ts)%nat) ->
             c = Done (Return tt)
             /\ clock w = tv
             /\ In (tv, Alert (message e)) (trace w))
       /\ (forall t asset,
             In (t, AnimationGenerated asset) (trace w) ->
             exists ts a tv v,
               settlement sp = Some (ts, Return a)
               /\ settlement vp = Some (tv, Return v)
               /\ t = Nat.max ts tv).
Proof.
  destruct handleGenerateAnimation_run as (sp & vp & Hsp & Hvp & Hrun & Hs1 & Hs2 & Hv).
  exists sp, vp. split; [exact Hsp|]. split; [exact Hvp|].
  rewrite Hrun. clear Hrun Hsp Hvp.
  assert (Hvt : forall t r, settlement vp = Some (t, r) -> (t1 <= t)%nat).
  { intros t r E. rewrite E in Hv.
    destruct (generateVideo svc (finalAnimPrompt form) base64Image (file_type file))
      as [[lv|] rv]; [|discriminate].
    injection Hv as -> _. lia. }
  assert (Hst : forall t r, settlement sp = Some (t, r) -> (t1 <= t)%nat).
  { intros t r E. destruct (Hs1 t r E) as (ls & rs & _ & ->). lia. }
  assert (Hvl : forall lv rv,
             generateVideo svc (finalAnimPrompt form) base64Image (file_type file)
             = (Some lv, rv) ->
             settlement vp = Some ((t1 + lv)%nat, rv)).
  { intros lv rv E. now rewrite E in Hv. }
  clear Hv Hs1.
  unfold conclusion, Promise_all.
  destruct (settlement sp) as [[ts [a|es]]|], (settlement vp) as [[tv [v|ev]]|];
    cbn [settlement fst snd clock trace].
  all: try (destruct (Nat.leb_spec ts tv)); cbn [settlement fst snd clock trace].
  all: repeat match goal with
              | H : forall t r, Some (?x, ?y) = Some (t, r) -> _ |- _ =>
                  pose proof (H x y eq_refl); clear H
              | H : forall t r, None = Some (t, r) -> _ |- _ => clear H
              end.
  all: rewrite ?(Nat.max_r t1 _) by lia.
  all: unfold issued; cbn [app In].
  all: (split; [tauto|]); (split; [tauto|]);
       (split; [exact Hs2|]); (split; [exact Hvl|]).
  all: split; [intros ts' a' tv' v' E1 E2;
               first [ discriminate
                     | injection E1 as <- <-; injection E2 as <- <-;
                       repeat split; tauto ]|].
  all: split; [intros ts' e' E1 Hle;
               first [ discriminate
                     | injection E1 as <- <-;
                       first [ specialize (Hle _ _ eq_refl); exfalso; lia
                             | repeat split; tauto ] ]|].
  all: split; [intros tv' e' E1 Hlt;
               first [ discriminate
                     | injection E1 as <- <-;
                       first [ specialize (Hlt _ _ eq_refl); exfalso; lia
                             | repeat split; tauto ] ]|].
  all: intros t asset Hin;
    repeat match goal with
           | H : _ \/ _ |- _ => destruct H
           | H : False |- _ => destruct H
           | H : (_, _) = (_, _) |- _ => try discriminate H; injection H as <- <-
           end.
  all: eauto 10.
Qed.

End Animation.

Lemma generation_runs_concurrently_witness :
  imageFile sample_form = Some portrait
  /\ ttsText sample_form <> ""%string
  /\ clock (fst (handleGenerateAnimation (timed_services (Return (Some b64sample)))
                                         sample_form at_start)) = 5107%nat
  /\ clock (fst (handleGenerateAnimation (timed_services (Throw (Error "quota")))
                                         sample_form at_start)) = 157%nat.
Proof.
  split; [reflexivity|]. split; [discriminate|]. split.
  - destruct (generation_runs_concurrently
                (timed_services (Return (Some b64sample))) sample_form portrait
                "IMAGE"%string 100%nat 7%nat eq_refl)
      as (sp & vp & Hsp & Hvp & _ & _ & _ & _ & Hboth & _).
    + discriminate.
    + reflexivity.
    + vm_compute in Hsp. injection Hsp as <-.
      vm_compute in Hvp. injection Hvp as <-.
      now destruct (Hboth 157%nat "blob:audio"%string 5107%nat "blob:video"%string
                      eq_refl eq_refl) as (_ & Hclock & _).
  - destruct (generation_runs_concurrently
                (timed_services (Throw (Error "quota"))) sample_form portrait
                "IMAGE"%string 100%nat 7%nat eq_refl)
      as (sp & vp & Hsp & Hvp & _ & _ & _ & _ & _ & Hspeech & _).
    + discriminate.
    + reflexivity.
    + vm_compute in Hsp. injection Hsp as <-.
      vm_compute in Hvp. injection Hvp as <-.
      destruct (Hspeech 157%nat (Error "quota") eq_refl) as (_ & Hclock & _).
      * intros tv e' E. discriminate.
      * exact Hclock.
Defined.

(** * Further properties *)

Import PreviewState.

(** ** Invariants of the stream preview *)


Lemma update_nth_other (A : Type) (f : A -> A) (l : list A) :
  forall n i, i <> n -> nth_error (update_nth n f l) i = nth_error l i.
Proof.
  induction l as [|x l IH]; intros [|n] [|i] H; cbn; try reflexivity.
  - congruence.
  - apply IH. congruence.
Qed.

Lemma update_nth_id (A : Type) (f : A -> A) (l : list A) :
  forall n x, nth_error l n = Some x -> f x = x -> update_nth n f l = l.
Proof.
  induction l as [|y l IH]; intros [|n] x H E; cbn in *; try discriminate.
  - injection H as ->. now rewrite E.
  - f_equal. now apply (IH n x).
Qed.

Lemma update_nth_inv (A : Type) (f : A -> A) (l : list A) :
  forall n i y, nth_error (update_nth n f l) i = Some y ->
                (i <> n /\ nth_error l i = Some y)
                \/ (i = n /\ exists x, nth_error l i = Some x /\ y = f x).
Proof.
  intros n i y H. destruct (Nat.eq_dec i n) as [->|Hne].
  - right. split; [reflexivity|].
    destruct (nth_error l n) as [x|] eqn:E.
    + rewrite (update_nth_nth_error _ f l n x E) in H. injection H as <-. eauto.
    + apply nth_error_None in E.
      assert (nth_error (update_nth n f l) n = None) as E'
          by (apply nth_error_None; now rewrite update_nth_length).
      congruence.
  - left. split; [exact Hne|]. now rewrite update_nth_other in H.
Qed.

(** *** Only the mounted audio element plays *)

Lemma quiet_update_ref (els : list HTMLAudioElement) (a : nat)
      (f : HTMLAudioElement -> HTMLAudioElement) :
  quiet els (Some a) -> quiet (update_nth a f els) (Some a).
Proof.
  intros Hq i y Hy Hp.
  destruct (update_nth_inv _ f els a i y Hy) as [[Hne Hi]|[-> _]];
    [exact (Hq i y Hi Hp) | reflexivity].
Qed.

Lemma quiet_update_pausing (els : list HTMLAudioElement) (ref : option nat) (a : nat)
      (f : HTMLAudioElement -> HTMLAudioElement) :
  (forall el, a_paused (f el) = false -> a_paused el = false) ->
  quiet els ref -> quiet (update_nth a f els) ref.
Proof.
  intros Hf Hq i y Hy Hp.
  destruct (update_nth_inv _ f els a i y Hy) as [[Hne Hi]|[_ (x & Hx & ->)]].
  - exact (Hq i y Hi Hp).
  - exact (Hq i x Hx (Hf x Hp)).
Qed.

Lemma handlePlay_audio (policy : Policy) (a : nat) (st : Preview) :
  audioRef (handlePlay policy a st) = audioRef st
  /\ audioEls (handlePlay policy a st)
     = if policy (playCalls st)
       then update_nth a (set_audio_paused false) (audioEls st)
       else audioEls st.
Proof.
  unfold handlePlay, audio_play, promise_of_play.
  destruct (policy (playCalls st)); cbn; auto.
Qed.

Lemma handler_for_quiet (policy : Policy) (t : EventType) (a : nat) (st : Preview) :
  audioRef st = Some a ->
  quiet (audioEls st) (audioRef st) ->
  quiet (audioEls (handler_for policy t a st)) (audioRef (handler_for policy t a st)).
Proof.
  intros Hr Hq. destruct t; cbn [handler_for].
  - destruct (handlePlay_audio policy a st) as [-> ->].
    destruct (policy (playCalls st)); [|exact Hq].
    rewrite Hr in *. now apply quiet_update_ref.
  - cbn. rewrite Hr in *. now apply quiet_update_ref.
  - unfold handleSeek. destruct (audio_at a st); [|exact Hq].
    destruct (ltb _ _); [|exact Hq].
    cbn. rewrite Hr in *. now apply quiet_update_ref.
Qed.

(** On a synced preview an event runs the one handler registered for
    it, on the mounted audio element. *)
Lemma dispatchEvent_synced (policy : Policy) (t : EventType) (st : Preview) :
  synced st ->
  dispatchEvent policy t st
  = match audioRef st with
    | Some a => handler_for policy t a st
    | None => st
    end.
Proof.
  unfold synced, dispatchEvent. intros Hs.
  destruct (audioRef st) as [a|].
  - destruct Hs as (_ & _ & run & _ & ->). destruct t; reflexivity.
  - destruct Hs as (_ & _ & ->). reflexivity.
Qed.

Lemma synced_cleanup (st : Preview) (run a : nat) :
  synced st -> syncCleanup st = Some (run, a) -> audioRef st = Some a.
Proof.
  unfold synced. intros Hs Hc. destruct (audioRef st) as [a'|].
  - destruct Hs as (_ & _ & run' & Hc' & _). congruence.
  - destruct Hs as (_ & Hc' & _). congruence.
Qed.

Lemma rendered_changed (old new : Props) :
  audio_rendered old <> audio_rendered new -> sync_deps_changed old new = true.
Proof.
  intros H. destruct (sync_deps_changed old new) eqn:E; [reflexivity|].
  destruct (sync_deps_unchanged _ _ E) as [Hs Ha].
  exfalso. apply H. unfold audio_rendered. now rewrite Hs, Ha.
Qed.

Lemma syncTeardown_audio (c : nat * nat) (st : Preview) :
  audioRef (syncTeardown c st) = audioRef st
  /\ audioEls (syncTeardown c st)
     = update_nth (snd c) (set_audio_currentTime (S754_zero false))
                  (update_nth (snd c) (set_audio_paused true) (audioEls st)).
Proof. destruct c as [run a]. split; reflexivity. Qed.

Lemma teardown_quiet (p : Props) (st : Preview) :
  quiet (audioEls st) (audioRef st) ->
  quiet (audioEls (teardown p st)) (audioRef (teardown p st)).
Proof.
  intros Hq. unfold teardown.
  destruct (sync_deps_changed (props st) p); [|exact Hq].
  destruct (syncCleanup st) as [c|]; [|exact Hq].
  cbn [set_cleanup audioEls audioRef].
  destruct (syncTeardown_audio c st) as [-> ->].
  apply quiet_update_pausing; [intros el H; exact H|].
  apply quiet_update_pausing; [intros el H; discriminate H|].
  exact Hq.
Qed.

Lemma bindEffect_audioRef (policy : Policy) (p : Props) (st : Preview) :
  audioRef (bindEffect policy p st) = audioRef st.
Proof.
  pose proof (bindEffect_shape policy p st) as H. unfold shape in H.
  now injection H as _ E _ _ _ _.
Qed.

Lemma syncEffect_quiet (policy : Policy) (p : Props) (st : Preview) :
  quiet (audioEls st) (audioRef st) ->
  quiet (audioEls (syncEffect policy p st)) (audioRef (syncEffect policy p st)).
Proof.
  intros Hq. unfold syncEffect.
  destruct (audioRef st) as [a|] eqn:Hr; [|cbn; rewrite Hr; exact Hq].
  destruct (StreamSource_eqb (source p) ANIMATION).
  - cbn [set_cleanup audioEls audioRef].
    match goal with
    | |- context [if ?c then handlePlay policy a ?s else ?s] =>
        change (audioEls st) with (audioEls s) in Hq;
        assert (Hr' : audioRef s = Some a) by exact Hr;
        destruct c; [|now rewrite Hr'];
        destruct (handlePlay_audio policy a s) as [-> ->];
        rewrite Hr'; destruct (policy (playCalls s)); [|exact Hq];
        now apply quiet_update_ref
    end.
  - cbn. rewrite Hr. apply quiet_update_ref. now apply quiet_update_ref.
Qed.

Lemma install_quiet (policy : Policy) (p : Props) (st : Preview) :
  quiet (audioEls st) (audioRef st) ->
  quiet (audioEls (install policy p st)) (audioRef (install policy p st)).
Proof.
  intros Hq. unfold install. cbn [set_props audioEls audioRef].
  destruct (sync_deps_changed (props st) p);
    [apply syncEffect_quiet|];
    (destruct (bind_deps_changed (props st) p);
     [now rewrite bindEffect_audioEls, bindEffect_audioRef | exact Hq]).
Qed.

Lemma commit_teardown_quiet (p : Props) (st : Preview) :
  synced st ->
  quiet (audioEls st) (audioRef st) ->
  quiet (audioEls (teardown p (commit p st))) (audioRef (teardown p (commit p st))).
Proof.
  intros Hs Hq.
  destruct (audio_rendered p) eqn:Hrend.
  - apply teardown_quiet. unfold commit. rewrite Hrend.
    destruct (audioRef st) as [a|] eqn:Hr; cbn [audioEls audioRef with_audio].
    + rewrite Hr. now apply quiet_update_ref.
    + intros i el Hi Hp. exfalso.
      destruct (Nat.lt_ge_cases i (length (audioEls st))) as [Hlt|Hge].
      * rewrite nth_error_app1 in Hi by exact Hlt.
        discriminate (Hq i el Hi Hp).
      * rewrite nth_error_app2 in Hi by exact Hge.
        destruct (i - length (audioEls st))%nat as [|[|k]]; cbn in Hi;
          try discriminate Hi.
        injection Hi as <-. discriminate Hp.
  - unfold synced in Hs. destruct (audioRef st) as [a|] eqn:Hr.
    + destruct Hs as (Hrs & Ha & run & Hcl & Hls).
      assert (Hd : sync_deps_changed (props st) p = true)
        by (apply rendered_changed; congruence).
      unfold teardown, commit. rewrite Hrend.
      cbn [props syncCleanup]. rewrite Hd, Hcl.
      cbn [set_cleanup audioEls audioRef].
      match goal with |- context [syncTeardown ?c ?s] =>
        destruct (syncTeardown_audio c s) as [-> ->] end.
      cbn [audioEls audioRef snd].
      intros i y Hy Hp. exfalso.
      destruct (update_nth_inv _ _ _ _ _ _ Hy) as [[Hne Hi]|[Heq (x & Hx & ->)]].
      * destruct (update_nth_inv _ _ _ _ _ _ Hi) as [[_ Hi']|[-> _]];
          [|congruence].
        pose proof (Hq i y Hi' Hp). congruence.
      * cbn in Hp.
        destruct (update_nth_inv _ _ _ _ _ _ Hx) as [[Hne _]|[_ (z & _ & ->)]];
          [congruence | discriminate Hp].
    + apply teardown_quiet. unfold commit. rewrite Hrend. cbn.
      intros i el Hi Hp. discriminate (Hq i el Hi Hp).
Qed.

Lemma step_quiet (policy : Policy) (act : Action) (st : Preview) :
  synced st ->
  quiet (audioEls st) (audioRef st) ->
  quiet (audioEls (step policy act st)) (audioRef (step policy act st)).
Proof.
  intros Hs Hq. destruct act as [p|t|paused t|a t]; cbn [step].
  - unfold rerender. now apply install_quiet, commit_teardown_quiet.
  - rewrite dispatchEvent_synced by exact Hs.
    destruct (audioRef st) as [a|] eqn:Hr; [|now rewrite Hr].
    apply handler_for_quiet; [exact Hr | now rewrite Hr].
  - exact Hq.
  - cbn. apply quiet_update_pausing; [intros el H; exact H | exact Hq].
Qed.

Lemma mount_quiet (policy : Policy) (p : Props) :
  quiet (audioEls (mount policy p)) (audioRef (mount policy p)).
Proof.
  unfold mount. cbn [set_props audioEls audioRef].
  apply syncEffect_quiet. rewrite bindEffect_audioEls, bindEffect_audioRef.
  unfold commit. destruct (audio_rendered p); cbn.
  - intros [|[|i]] el Hi Hp; cbn in Hi; try discriminate Hi.
    injection Hi as <-. discriminate Hp.
  - intros [|i] el Hi; discriminate Hi.
Qed.

Lemma run_quiet (policy : Policy) (acts : list Action) :
  forall st, synced st -> quiet (audioEls st) (audioRef st) ->
             quiet (audioEls (run policy acts st)) (audioRef (run policy acts st)).
Proof.
  induction acts as [|a acts IH]; intros st Hs Hq; [exact Hq|].
  cbn [run fold_left]. apply IH; [now apply step_synced | now apply step_quiet].
Qed.

(** X1: in every state a mounted preview can reach, whatever the parent
    renders, the video fires or the platform does, an audio element that
    is playing is the one [audioRef] holds, and it is rendered by the
    current props: a narration that left the page never keeps playing,
    and at most one narration plays. *)
Theorem only_mounted_audio_plays
        (policy : Policy) (acts : list Action) (p0 : Props) :
  let st := run policy acts (mount policy p0) in
  (forall i, In i (playing st) -> audioRef st = Some i)
  /\ (audioRef st = None -> playing st = [])
  /\ (length (playing st) <= 1)%nat
  /\ (playing st <> [] -> audio_rendered (props st) = true).
Proof.
  intros st.
  assert (Hs : synced st) by apply run_synced, mount_synced.
  assert (Hq : quiet (audioEls st) (audioRef st))
    by (apply run_quiet; [apply mount_synced | apply mount_quiet]).
  assert (H1 : forall i, In i (playing st) -> audioRef st = Some i).
  { intros i Hi. unfold playing in Hi. apply filter_In in Hi.
    destruct Hi as [_ Hi]. unfold audio_at in Hi.
    destruct (nth_error (audioEls st) i) as [el|] eqn:E; [|discriminate].
    apply (Hq i el E). now apply negb_true_iff. }
  split; [exact H1|].
  assert (Hnd : NoDup (playing st)) by (apply NoDup_filter, seq_NoDup).
  assert (H2 : audioRef st = None -> playing st = []).
  { intros Hn. destruct (playing st) as [|i l] eqn:E; [reflexivity|].
    specialize (H1 i (or_introl eq_refl)). congruence. }
  split; [exact H2|]. split.
  - destruct (playing st) as [|i [|j l]] eqn:E; cbn; try lia.
    exfalso. pose proof (H1 i (or_introl eq_refl)) as Hi.
    pose proof (H1 j (or_intror (or_introl eq_refl))) as Hj.
    assert (i = j) by congruence. subst j.
    inversion Hnd as [|? ? Hnot _]. apply Hnot. now left.
  - intros Hne. unfold synced in Hs.
    destruct (audioRef st) as [a|]; [tauto|].
    now elim Hne; apply H2.
Qed.

(** *** The elements carry what the props name *)

Lemma MediaStream_eqb_eq (a b : MediaStream) : MediaStream_eqb a b = true -> a = b.
Proof.
  destruct a as [x], b as [y]. unfold MediaStream_eqb. cbn. intros H.
  apply Nat.eqb_eq in H. now subst.
Qed.

Lemma bind_deps_unchanged (old new : Props) :
  bind_deps_changed old new = false ->
  stream new = stream old /\ source new = source old
  /\ currentVideoUrl new = currentVideoUrl old.
Proof.
  unfold bind_deps_changed. intros H. apply negb_false_iff in H.
  apply andb_prop in H. destruct H as [H Hu]. apply andb_prop in H.
  destruct H as [Hst Hs].
  apply StreamSource_eqb_eq in Hs. apply option_string_eqb_eq in Hu.
  split; [|now split].
  destruct (stream old) as [x|], (stream new) as [y|]; cbn in Hst;
    try discriminate; [|reflexivity].
  now rewrite (MediaStream_eqb_eq x y Hst).
Qed.

Lemma deps_same (old new : Props) :
  stream new = stream old -> source new = source old ->
  currentVideoUrl new = currentVideoUrl old ->
  currentAudioUrl new = currentAudioUrl old ->
  bind_deps_changed old new = false /\ sync_deps_changed old new = false.
Proof.
  unfold bind_deps_changed, sync_deps_changed. intros -> -> -> ->.
  assert (Hs : StreamSource_eqb (source old) (source old) = true)
    by now apply StreamSource_eqb_eq.
  assert (Ho : forall o : option string, option_eqb String.eqb o o = true)
    by (intros [x|]; cbn; [apply String.eqb_refl | reflexivity]).
  assert (Hm : option_eqb MediaStream_eqb (stream old) (stream old) = true)
    by (destruct (stream old) as [x|]; cbn; [apply Nat.eqb_refl | reflexivity]).
  now rewrite Hs, !Ho, Hm.
Qed.

Lemma bindEffect_surface (policy : Policy) (p : Props) (st : Preview) :
  video_surface (bindEffect policy p st) = surface p.
Proof.
  unfold bindEffect, video_play, promise_of_play, surface, video_surface.
  destruct (source p), (stream p), (truthy (currentVideoUrl p));
    cbn; destruct (policy (playCalls st)); reflexivity.
Qed.

Lemma syncEffect_surface (policy : Policy) (p : Props) (st : Preview) :
  video_surface (syncEffect policy p st) = video_surface st.
Proof.
  destruct (syncEffect_video policy p st) as (H1 & H2 & H3).
  unfold video_surface. now rewrite H1, H2, H3.
Qed.

Lemma teardown_surface (p : Props) (st : Preview) :
  video_surface (teardown p st) = video_surface st.
Proof.
  unfold teardown. destruct (sync_deps_changed (props st) p); [|reflexivity].
  destruct (syncCleanup st) as [[run a]|]; reflexivity.
Qed.

Lemma commit_surface (p : Props) (st : Preview) :
  video_surface (commit p st) = video_surface st.
Proof.
  unfold commit. destruct (audio_rendered p); [destruct (audioRef st)|]; reflexivity.
Qed.

Lemma teardown_props (p : Props) (st : Preview) : props (teardown p st) = props st.
Proof.
  unfold teardown. destruct (sync_deps_changed (props st) p); [|reflexivity].
  destruct (syncCleanup st) as [[run a]|]; reflexivity.
Qed.

Lemma commit_props (p : Props) (st : Preview) : props (commit p st) = props st.
Proof.
  unfold commit. destruct (audio_rendered p); [destruct (audioRef st)|]; reflexivity.
Qed.

Lemma narration_src (st : Preview) :
  narration st = match audioRef st with
                 | Some a => nth_error (map a_src (audioEls st)) a
                 | None => None
                 end.
Proof.
  unfold narration, audio_at. destruct (audioRef st); [|reflexivity].
  now rewrite nth_error_map.
Qed.

Lemma narration_same (st st' : Preview) :
  audioRef st' = audioRef st ->
  map a_src (audioEls st') = map a_src (audioEls st) ->
  narration st' = narration st.
Proof. intros Hr Hm. now rewrite !narration_src, Hr, Hm. Qed.

Lemma teardown_narration (p : Props) (st : Preview) :
  narration (teardown p st) = narration st.
Proof.
  apply narration_same; unfold teardown;
    destruct (sync_deps_changed (props st) p); try reflexivity;
    destruct (syncCleanup st) as [[run a]|]; try reflexivity.
  cbn. now rewrite !map_update_nth_keep.
Qed.

Lemma syncEffect_narration (policy : Policy) (p : Props) (st : Preview) :
  narration (syncEffect policy p st) = narration st.
Proof.
  apply narration_same; unfold syncEffect;
    destruct (audioRef st) as [a|] eqn:Hr; try reflexivity;
    destruct (StreamSource_eqb (source p) ANIMATION);
    cbn [set_cleanup audioRef audioEls];
    try (match goal with
         | |- context [if ?c then handlePlay policy a ?s else ?s] =>
             destruct c;
             [destruct (handlePlay_audio policy a s) as [E1 E2];
              rewrite ?E1, ?E2; destruct (policy (playCalls s))|]
         end);
    cbn; rewrite ?map_update_nth_keep; auto.
Qed.

Lemma bindEffect_narration (policy : Policy) (p : Props) (st : Preview) :
  narration (bindEffect policy p st) = narration st.
Proof.
  apply narration_same; [apply bindEffect_audioRef|].
  now rewrite bindEffect_audioEls.
Qed.

Lemma commit_narration (p : Props) (st : Preview) :
  (forall a, audioRef st = Some a -> (a < length (audioEls st))%nat) ->
  narration (commit p st) = narration_of p.
Proof.
  intros Hv. unfold commit, narration_of, narration.
  destruct (audio_rendered p); [|reflexivity].
  destruct (audioRef st) as [a|] eqn:Hr.
  - change (audioRef (with_audio a ?f st)) with (audioRef st). rewrite Hr.
    destruct (audio_at_lt a st (Hv a eq_refl)) as [el Hel].
    now rewrite (audio_at_with_audio a _ st el Hel).
  - unfold audio_at. cbn [audioEls audioRef].
    now rewrite nth_error_app2, Nat.sub_diag by lia.
Qed.

Lemma install_tuned (policy : Policy) (p : Props) (st : Preview) :
  video_surface st = surface (props st) ->
  narration st = narration_of p ->
  tuned (install policy p st).
Proof.
  intros Hv Hn. unfold tuned, install.
  change (props (set_props p ?s)) with p.
  change (video_surface (set_props p ?s)) with (video_surface s).
  change (narration (set_props p ?s)) with (narration s).
  split.
  - destruct (sync_deps_changed (props st) p); rewrite ?syncEffect_surface;
      (destruct (bind_deps_changed (props st) p) eqn:Hb;
       [apply bindEffect_surface|]);
      rewrite Hv; destruct (bind_deps_unchanged _ _ Hb) as (E1 & E2 & E3);
      unfold surface; now rewrite E1, E2, E3.
  - destruct (sync_deps_changed (props st) p); rewrite ?syncEffect_narration;
      destruct (bind_deps_changed (props st) p); rewrite ?bindEffect_narration;
      exact Hn.
Qed.

Lemma rerender_tuned (policy : Policy) (p : Props) (st : Preview) :
  synced st -> tuned st -> tuned (rerender policy p st).
Proof.
  intros Hs [Hv Hn]. unfold rerender. apply install_tuned.
  - now rewrite teardown_surface, commit_surface, teardown_props, commit_props.
  - rewrite teardown_narration. apply commit_narration, synced_ref_valid, Hs.
Qed.

Lemma mount_tuned (policy : Policy) (p : Props) : tuned (mount policy p).
Proof.
  unfold mount, tuned.
  change (props (set_props p ?s)) with p.
  change (video_surface (set_props p ?s)) with (video_surface s).
  change (narration (set_props p ?s)) with (narration s).
  rewrite syncEffect_surface, bindEffect_surface, syncEffect_narration,
    bindEffect_narration.
  split; [reflexivity|]. apply commit_narration. discriminate.
Qed.

Lemma tuned_binding (st st' : Preview) :
  binding st' = binding st -> tuned st -> tuned st'.
Proof.
  unfold tuned, video_surface. rewrite !narration_src. unfold binding.
  intros H. injection H as Hp H1 H2 H3 _ Hr _ Hm _.
  now rewrite Hp, H1, H2, H3, Hr, Hm.
Qed.

Lemma step_tuned (policy : Policy) (act : Action) (st : Preview) :
  synced st -> tuned st -> tuned (step policy act st).
Proof.
  intros Hs Ht. destruct act as [p|t|paused t|a t]; cbn [step].
  - now apply rerender_tuned.
  - exact (tuned_binding _ _ (proj1 (dispatchEvent_binding policy t st)) Ht).
  - exact Ht.
  - refine (tuned_binding _ _ _ Ht). now apply with_audio_binding.
Qed.

Lemma run_tuned (policy : Policy) (acts : list Action) :
  forall st, synced st -> tuned st -> tuned (run policy acts st).
Proof.
  induction acts as [|a acts IH]; intros st Hs Ht; [exact Ht|].
  cbn [run fold_left]. apply IH; [now apply step_synced | now apply step_tuned].
Qed.

(** X2: in every state a mounted preview can reach, the video element
    carries what the binding effect makes of the current props (the
    webcam stream, or the current video URL, muted unless the source is
    the animation) and the mounted audio element carries the current
    audio URL: the dependency lists of the two effects miss nothing
    the elements depend on. *)
Theorem media_follow_props
        (policy : Policy) (acts : list Action) (p0 : Props) :
  let st := run policy acts (mount policy p0) in
  video_surface st = surface (props st)
  /\ narration st = narration_of (props st)
  /\ (v_srcObject (videoEl st) = None \/ v_src (videoEl st) = ""%string).
Proof.
  intros st.
  assert (Ht : tuned st) by (apply run_tuned; [apply mount_synced | apply mount_tuned]).
  destruct Ht as [Hv Hn]. split; [exact Hv|]. split; [exact Hn|].
  unfold video_surface, surface in Hv.
  destruct (source (props st)), (stream (props st)); injection Hv as E1 E2 _; auto.
Qed.

(** *** Renders that change no dependency *)

Lemma with_audio_id (a : nat) (f : HTMLAudioElement -> HTMLAudioElement)
      (st : Preview) (el : HTMLAudioElement) :
  audio_at a st = Some el -> f el = el -> with_audio a f st = st.
Proof.
  unfold audio_at, with_audio. intros Hel Hf.
  rewrite (update_nth_id _ f (audioEls st) a el Hel Hf). now destruct st.
Qed.

Lemma commit_same (p : Props) (st : Preview) :
  synced st -> tuned st ->
  source p = source (props st) ->
  currentAudioUrl p = currentAudioUrl (props st) ->
  commit p st = st.
Proof.
  intros Hs [_ Hn] Esrc Eaud.
  assert (Erend : audio_rendered p = audio_rendered (props st))
    by (unfold audio_rendered; now rewrite Esrc, Eaud).
  unfold narration_of in Hn. unfold commit. rewrite Erend.
  unfold synced in Hs. unfold narration in Hn.
  destruct (audioRef st) as [a|] eqn:Hr.
  - destruct Hs as (Hrend & _). rewrite Hrend in *.
    destruct (audio_at a st) as [el|] eqn:Hel; [|discriminate Hn].
    cbn in Hn. injection Hn as Hsrc.
    apply (with_audio_id a _ st el Hel).
    rewrite Eaud, <- Hsrc. now destruct el.
  - destruct Hs as (Hrend & _). rewrite Hrend.
    destruct st. cbn in *. now subst.
Qed.

Lemma rerender_same_deps (policy : Policy) (p : Props) (st : Preview) :
  synced st -> tuned st ->
  stream p = stream (props st) ->
  source p = source (props st) ->
  currentVideoUrl p = currentVideoUrl (props st) ->
  currentAudioUrl p = currentAudioUrl (props st) ->
  rerender policy p st = set_props p st.
Proof.
  intros Hs Ht E1 E2 E3 E4.
  destruct (deps_same (props st) p E1 E2 E3 E4) as [Hb Hd].
  unfold rerender. rewrite (commit_same p st Hs Ht E2 E4).
  unfold teardown, install. rewrite Hd.
  cbn [props]. now rewrite Hb, Hd.
Qed.

(** X3: a render in which none of [stream], [source], [currentVideoUrl]
    and [currentAudioUrl] changed (the overlay is toggled, the stream
    goes live) only replaces the props: neither effect runs, no element
    is touched and [play()] is not called. *)
Theorem render_without_media_change
        (policy : Policy) (acts : list Action) (p0 p : Props) :
  let st := run policy acts (mount policy p0) in
  stream p = stream (props st) ->
  source p = source (props st) ->
  currentVideoUrl p = currentVideoUrl (props st) ->
  currentAudioUrl p = currentAudioUrl (props st) ->
  rerender policy p st = set_props p st
  /\ videoEl (rerender policy p st) = videoEl st
  /\ audioEls (rerender policy p st) = audioEls st
  /\ playCalls (rerender policy p st) = playCalls st.
Proof.
  intros st E1 E2 E3 E4.
  assert (Hs : synced st) by apply run_synced, mount_synced.
  assert (Ht : tuned st) by (apply run_tuned; [apply mount_synced | apply mount_tuned]).
  rewrite (rerender_same_deps policy p st Hs Ht E1 E2 E3 E4). repeat split.
Qed.

Lemma render_without_media_change_witness :
  let st := mount allow_all animation_props in
  rerender allow_all on_air_props st = set_props on_air_props st
  /\ videoEl (rerender allow_all on_air_props st) = videoEl st
  /\ audioEls (rerender allow_all on_air_props st) = audioEls st
  /\ playCalls (rerender allow_all on_air_props st) = playCalls st.
Proof.
  exact (render_without_media_change allow_all [] animation_props on_air_props
           eq_refl eq_refl eq_refl eq_refl).
Defined.

(** *** The drift after a position update *)




(** *** The narration starts with the video *)

Lemma syncEffect_transport (policy : Policy) (p : Props) (a : nat) (st : Preview)
      (el : HTMLAudioElement) :
  audioRef st = Some a ->
  source p = ANIMATION ->
  audio_at a st = Some el ->
  a_paused el = true ->
  let st' := syncEffect policy p st in
  v_paused (videoEl st') = v_paused (videoEl st)
  /\ audioRef st' = Some a
  /\ playCalls st' = (if v_paused (videoEl st) then playCalls st else S (playCalls st))
  /\ exists el',
       audio_at a st' = Some el'
       /\ a_paused el' = (v_paused (videoEl st) || negb (policy (playCalls st))).
Proof.
  intros Hr Hs Hel Hp. unfold syncEffect. rewrite Hr, Hs. cbn [StreamSource_eqb].
  cbn [with_video fresh_run videoEl addEventListener v_paused].
  destruct (v_paused (videoEl st)) eqn:Hv; cbn [negb orb].
  - cbn. rewrite ?Hv, ?Hr. do 3 (split; [reflexivity|]).
    exists el. split; [exact Hel | exact Hp].
  - unfold handlePlay, audio_play, promise_of_play.
    cbn. rewrite ?Hv, ?Hr.
    destruct (policy (playCalls st)); cbn; rewrite ?Hv, ?Hr;
      do 3 (split; [reflexivity|]).
    + exists (set_audio_paused false el). split; [|reflexivity].
      exact (update_nth_nth_error _ _ _ _ _ Hel).
    + exists el. split; [exact Hel | exact Hp].
Qed.

(** X5: after a render that installs the sync association (the audio
    element is rendered and the source or the audio URL changed), the
    narration is paused if the video is paused, and if the video is
    playing [play()] has been called on the narration, which plays
    unless the platform refused that call. *)
Theorem narration_starts_with_video
        (policy : Policy) (acts : list Action) (p0 p : Props) :
  let st := run policy acts (mount policy p0) in
  audio_rendered p = true ->
  sync_deps_changed (props st) p = true ->
  let st' := rerender policy p st in
  exists a el,
    audioRef st' = Some a
    /\ audio_at a st' = Some el
    /\ (v_paused (videoEl st') = true -> a_paused el = true)
    /\ (v_paused (videoEl st') = false ->
        a_paused el = negb (policy (pred (playCalls st')))).
Proof.
  intros st Hrend Hd st'.
  assert (Hs : synced st) by apply run_synced, mount_synced.
  destruct (commit_spec p st (synced_ref_valid st Hs))
    as (Hp & Hc & Hl & _ & Hlen & _ & Hsome & Hkeep).
  destruct (Hsome Hrend) as (a & Ha & Halt).
  destruct (teardown_spec p st Hs Hd) as (T1 & T2 & T3 & T4 & T5 & T6).
  set (torn := teardown p (commit p st)) in *.
  assert (Hel : exists el, audio_at a torn = Some el /\ a_paused el = true).
  { unfold synced in Hs. destruct (audioRef st) as [a0|] eqn:Hr.
    - destruct Hs as (_ & _ & run & Hcl & _).
      rewrite (Hkeep Hrend a0 eq_refl) in Ha. injection Ha as <-.
      destruct (T6 run a0 Hcl) as (el & E1 & E2 & _). eauto.
    - destruct Hs as (_ & Hcl & _).
      assert (Et : torn = commit p st).
      { unfold torn, teardown. now rewrite Hp, Hd, Hc, Hcl. }
      rewrite Et. clear T1 T2 T3 T4 T5 T6. clearbody torn. subst torn.
      unfold commit in *. rewrite Hrend, Hr in *. cbn in Ha. injection Ha as <-.
      exists (new_audio (or_empty (currentAudioUrl p))).
      split; [|reflexivity].
      unfold audio_at. cbn [audioEls].
      now rewrite nth_error_app2, Nat.sub_diag by lia. }
  destruct Hel as (el & Hel & Hpa).
  set (bound := if bind_deps_changed (props st) p
                then bindEffect policy p torn else torn).
  assert (Hb : audioEls bound = audioEls torn /\ audioRef bound = audioRef torn).
  { unfold bound. destruct (bind_deps_changed _ _); [|auto].
    split; [apply bindEffect_audioEls | apply bindEffect_audioRef]. }
  destruct Hb as [Hbe Hbr].
  assert (E : st' = set_props p (syncEffect policy p bound)).
  { unfold st', rerender, install. fold torn. now rewrite T3, Hd. }
  destruct (syncEffect_transport policy p a bound el) as (S1 & S2 & S3 & el' & S4 & S5).
  { congruence. }
  { now apply audio_rendered_animation. }
  { unfold audio_at in *. now rewrite Hbe. }
  { exact Hpa. }
  exists a, el'. rewrite E.
  cbn [set_props audioRef videoEl playCalls].
  split; [exact S2|]. split; [exact S4|].
  rewrite S1, S3, S5. split; intros Hv; rewrite Hv; reflexivity.
Qed.

Lemma narration_starts_with_video_witness :
  let st' := rerender allow_all animation_props (mount allow_all library_props) in
  exists a el,
    audioRef st' = Some a
    /\ audio_at a st' = Some el
    /\ (v_paused (videoEl st') = true -> a_paused el = true)
    /\ (v_paused (videoEl st') = false ->
        a_paused el = negb (allow_all (pred (playCalls st')))).
Proof.
  exact (narration_starts_with_video allow_all [] library_props animation_props
           eq_refl eq_refl).
Defined.

(** *** Selecting an animation of the library *)

Lemma or_empty_Some (s : string) : or_empty (Some s) = s.
Proof.
  unfold or_empty, truthy. destruct (String.eqb s "") eqn:E; [|reflexivity].
  apply String.eqb_eq in E. now subst.
Qed.

Lemma synced_attached_ref (st : Preview) (t : EventType) :
  synced st ->
  attached t st = match audioRef st with Some _ => 1%nat | None => 0%nat end.
Proof.
  unfold synced, attached. intros Hs.
  destruct (audioRef st) as [a|].
  - destruct Hs as (_ & _ & run & _ & ->). now destruct t.
  - destruct Hs as (_ & _ & ->). reflexivity.
Qed.

(** X6: [handleSelectAnimation] puts the animation on air with its
    narration: rendered with the resulting props, the video element
    carries the animation's video URL, unmuted and without capture
    stream, and, unless the audio URL is empty, the mounted audio
    element carries the animation's audio URL with exactly one listener
    for each of the three events; with an empty audio URL there is no
    audio element and no listener. *)
Theorem handleSelectAnimation_binds_narration
        (now : Z) (anim : TalkingAnimationAsset) (app : App.State)
        (policy : Policy) (acts : list Action) (p0 : Props) :
  let app' := App.handleSelectAnimation now anim app in
  let before := run policy acts (mount policy p0) in
  let st := rerender policy (App.previewProps app') before in
  App.streamSource app' = ANIMATION
  /\ video_surface st = (None, ta_videoUrl anim, false)
  /\ narration st = (if String.eqb (ta_audioUrl anim) "" then None
                     else Some (ta_audioUrl anim))
  /\ (forall t, attached t st
                = if String.eqb (ta_audioUrl anim) "" then 0%nat else 1%nat).
Proof.
  intros app' before st.
  assert (Hb : synced before) by apply run_synced, mount_synced.
  assert (Htb : tuned before)
    by (apply run_tuned; [apply mount_synced | apply mount_tuned]).
  pose proof (rerender_synced policy (App.previewProps app') before Hb) as Hs.
  destruct (rerender_tuned policy (App.previewProps app') before Hb Htb) as [Hv Hn].
  fold st in Hs, Hv, Hn.
  assert (Hp : props st = App.previewProps app') by reflexivity.
  rewrite Hp in Hv, Hn.
  split; [reflexivity|].
  split.
  { rewrite Hv. unfold surface. cbn. now rewrite or_empty_Some. }
  assert (Hn' : narration st
                = if String.eqb (ta_audioUrl anim) "" then None
                  else Some (ta_audioUrl anim)).
  { rewrite Hn. unfold narration_of, audio_rendered. cbn.
    destruct (String.eqb (ta_audioUrl anim) "") eqn:E; cbn; [reflexivity|].
    unfold or_empty, truthy. now rewrite E. }
  split; [exact Hn'|].
  intros t. rewrite (synced_attached_ref st t Hs).
  unfold narration in Hn'. unfold synced in Hs.
  destruct (audioRef st) as [a|].
  - destruct Hs as (_ & Ha & _). destruct (audio_at_lt a st Ha) as [el Hel].
    rewrite Hel in Hn'. cbn in Hn'.
    now destruct (String.eqb (ta_audioUrl anim) "").
  - now destruct (String.eqb (ta_audioUrl anim) "").
Qed.

(** ** The application state *)

Lemma addHistoryItem_frame (now : Z) (type : HistoryType) (description : string)
      (st : App.State) :
  App.previewProps (App.addHistoryItem now type description st) = App.previewProps st.
Proof. reflexivity. Qed.

Lemma grown_same (n : nat) (st : Studio.State) : Studio.grown n st st.
Proof.
  unfold Studio.grown.
  split; [exists []; split; [now rewrite app_nil_r | cbn; lia]|].
  repeat split; exists []; now rewrite app_nil_r.
Qed.

Lemma grown_trans (n m : nat) (s1 s2 s3 : Studio.State) :
  Studio.grown n s1 s2 -> Studio.grown m s2 s3 -> Studio.grown (n + m) s1 s3.
Proof.
  intros ((h1 & E1 & L1) & (v1 & V1) & (a1 & A1) & (n1 & N1) & (o1 & O1))
         ((h2 & E2 & L2) & (v2 & V2) & (a2 & A2) & (n2 & N2) & (o2 & O2)).
  unfold Studio.grown.
  split.
  { exists (h1 ++ h2). rewrite E2, E1, app_assoc, length_app. split; [reflexivity | lia]. }
  split; [exists (v1 ++ v2); now rewrite V2, V1, app_assoc|].
  split; [exists (a1 ++ a2); now rewrite A2, A1, app_assoc|].
  split; [exists (n1 ++ n2); now rewrite N2, N1, app_assoc|].
  exists (o1 ++ o2); now rewrite O2, O1, app_assoc.
Qed.

Lemma step_grown (now : Z) (a : Studio.Action) (st : Studio.State) :
  Studio.grown 1 st (Studio.step now a st).
Proof.
  destruct a as [|src|i|i|i|f u|v|au|an|b m| |k|s]; cbn [Studio.step];
    try (destruct (nth_error _ i); [|apply grown_same]);
    try (destruct k as [[[]|e]|]);
    grown_step.
Qed.

Lemma run_grown (events : list (Z * Studio.Action)) :
  forall st, Studio.grown (length events) st (Studio.run events st).
Proof.
  induction events as [|e events IH]; intros st; [apply grown_same|].
  cbn [Studio.run fold_left length].
  exact (grown_trans 1 (length events) _ _ _ (step_grown (fst e) (snd e) st) (IH _)).
Qed.

(** X7: whatever the user does, the activity log and the four
    libraries are only appended to: no handler of [App] removes or
    rewrites an entry, and one action adds at most one log entry. *)
Theorem log_and_libraries_only_grow
        (events : list (Z * Studio.Action)) (st : Studio.State) :
  let st' := Studio.run events st in
  (exists h, App.history (Studio.app st') = App.history (Studio.app st) ++ h
             /\ (length h <= length events)%nat)
  /\ (exists l, Studio.videoLibrary st' = Studio.videoLibrary st ++ l)
  /\ (exists l, Studio.audioLibrary st' = Studio.audioLibrary st ++ l)
  /\ (exists l, Studio.animationLibrary st' = Studio.animationLibrary st ++ l)
  /\ (exists l, Studio.overlayLibrary st' = Studio.overlayLibrary st ++ l).
Proof. exact (run_grown events st). Qed.

(** *** The log and the state *)

Lemma last_logged_snoc (type : HistoryType) (keep : string -> bool)
      (h : list HistoryItem) (item : HistoryItem) :
  Studio.last_logged type keep (h ++ [item])
  = if Studio.HistoryType_eqb (hi_type item) type && keep (hi_description item)
    then Some (hi_description item) else Studio.last_logged type keep h.
Proof. unfold Studio.last_logged. now rewrite fold_left_app. Qed.

Lemma logged_same (st st' : App.State) :
  App.history st' = App.history st ->
  App.isStreaming st' = App.isStreaming st ->
  App.activeOverlayUrl st' = App.activeOverlayUrl st ->
  Studio.logged st -> Studio.logged st'.
Proof. unfold Studio.logged. now intros -> -> ->. Qed.

Lemma logged_entry (st st' : App.State) (item : HistoryItem) :
  App.history st' = App.history st ++ [item] ->
  App.isStreaming st' = App.isStreaming st ->
  App.activeOverlayUrl st' = App.activeOverlayUrl st ->
  Studio.HistoryType_eqb (hi_type item) H_STREAM = false ->
  Studio.HistoryType_eqb (hi_type item) H_OVERLAY
  && Studio.is_toggle (hi_description item) = false ->
  Studio.logged st -> Studio.logged st'.
Proof.
  unfold Studio.logged. intros -> -> -> H1 H2.
  now rewrite !last_logged_snoc, H1, H2.
Qed.

Lemma handleToggleStreaming_logged (now : Z) (st : App.State) :
  Studio.logged st -> Studio.logged (Studio.handleToggleStreaming now st).
Proof.
  unfold Studio.logged, Studio.handleToggleStreaming. cbn -[Studio.last_logged].
  rewrite !last_logged_snoc. cbn -[Studio.last_logged]. intros [_ H].
  split; [now destruct (App.isStreaming st) | exact H].
Qed.

Lemma handleToggleOverlay_logged (now : Z) (o : Studio.OverlayAsset) (st : App.State) :
  Studio.logged st -> Studio.logged (Studio.handleToggleOverlay now o st).
Proof.
  unfold Studio.logged, Studio.handleToggleOverlay. cbn -[Studio.last_logged].
  rewrite !last_logged_snoc. cbn -[Studio.last_logged]. intros [H _]. split; [exact H|].
  destruct (option_eqb String.eqb (App.activeOverlayUrl st) (Some (Studio.oa_url o)));
    cbn; [reflexivity|].
  now destruct (String.eqb (Studio.oa_url o) "").
Qed.

Lemma step_logged (now : Z) (a : Studio.Action) (st : Studio.State) :
  Studio.logged (Studio.app st) -> Studio.logged (Studio.app (Studio.step now a st)).
Proof.
  intros H.
  destruct a as [|src|i|i|i|f u|v|au|an|b m| |k|s]; cbn [Studio.step];
    try (destruct (nth_error _ i); [|exact H]);
    try (destruct k as [[[]|e]|]);
    try exact H;
    try (now apply handleToggleStreaming_logged);
    try (now apply handleToggleOverlay_logged);
    try (refine (logged_same _ _ _ _ _ H); reflexivity);
    (eapply logged_entry; [| | | | |exact H]; reflexivity).
Qed.

Lemma run_logged (events : list (Z * Studio.Action)) :
  forall st, Studio.logged (Studio.app st) ->
             Studio.logged (Studio.app (Studio.run events st)).
Proof.
  induction events as [|e events IH]; intros st H; [exact H|].
  cbn [Studio.run fold_left]. apply IH. now apply step_logged.
Qed.

(** X8: the activity log never disagrees with the state.  After any
    sequence of actions from the initial state the stream is on air
    exactly when the last STREAM entry reads "Stream started.", and an
    overlay is shown exactly when the last entry written by
    [handleToggleOverlay] begins with "Showing". *)
Theorem log_agrees_with_state (events : list (Z * Studio.Action)) :
  let st := Studio.app (Studio.run events Studio.initial) in
  (App.isStreaming st = true
   <-> Studio.last_logged H_STREAM (fun _ => true) (App.history st)
       = Some "Stream started."%string)
  /\ (truthy (App.activeOverlayUrl st) = true
      <-> exists d, Studio.last_logged H_OVERLAY Studio.is_toggle (App.history st) = Some d
                    /\ String.prefix "Showing" d = true).
Proof.
  intros st.
  assert (H : Studio.logged st) by (apply run_logged; split; reflexivity).
  destruct H as [Hs Ho]. split.
  - destruct (Studio.last_logged H_STREAM _ _) as [d|].
    + subst d. destruct (App.isStreaming st); split; intros E;
        try reflexivity; discriminate.
    + rewrite Hs. split; discriminate.
  - destruct (Studio.last_logged H_OVERLAY _ _) as [d|].
    + rewrite <- Ho. split; [intros E; eauto | intros (d' & E & E'); congruence].
    + rewrite Ho. split; [discriminate | intros (d' & E & _); discriminate].
Qed.

(** *** What is on air comes from the libraries *)

Lemma from_library_frame (st st' : Studio.State) :
  App.currentVideoUrl (Studio.app st') = App.currentVideoUrl (Studio.app st) ->
  App.currentAudioUrl (Studio.app st') = App.currentAudioUrl (Studio.app st) ->
  App.activeOverlayUrl (Studio.app st') = App.activeOverlayUrl (Studio.app st) ->
  (exists l, Studio.videoLibrary st' = Studio.videoLibrary st ++ l) ->
  (exists l, Studio.animationLibrary st' = Studio.animationLibrary st ++ l) ->
  (exists l, Studio.overlayLibrary st' = Studio.overlayLibrary st ++ l) ->
  Studio.from_library st -> Studio.from_library st'.
Proof.
  unfold Studio.from_library.
  intros -> -> -> (lv & ->) (la & ->) (lo & ->) (Hv & Ha & Ho).
  rewrite !map_app. split; [|split].
  - intros v E. destruct (Hv v E); [left | right]; apply in_or_app; now left.
  - intros au E. destruct (Ha au E) as (anim & Hin & Hrest).
    exists anim. split; [apply in_or_app; now left | exact Hrest].
  - intros o E. apply in_or_app. left. now apply Ho.
Qed.

Lemma step_from_library (now : Z) (a : Studio.Action) (st : Studio.State) :
  Studio.from_library st -> Studio.from_library (Studio.step now a st).
Proof.
  intros H.
  destruct a as [|src|i|i|i|f u|v|au|an|b m| |k|s]; cbn [Studio.step];
    try (destruct (nth_error _ i) as [x|] eqn:Ei; [|exact H]);
    try (destruct k as [[[]|e]|]);
    try exact H;
    try (eapply (from_library_frame st);
         [reflexivity | reflexivity | reflexivity | | | | exact H];
         cbn; eexists; first [reflexivity | symmetry; apply app_nil_r]).
  - (* SelectVideo *)
    destruct H as (Hv & Ha & Ho). unfold Studio.from_library. cbn.
    split; [|split; [discriminate | exact Ho]].
    intros v E. injection E as <-. left.
    apply in_map, (nth_error_In _ _ Ei).
  - (* SelectAnimation *)
    destruct H as (Hv & Ha & Ho). unfold Studio.from_library. cbn.
    split; [|split; [|exact Ho]].
    + intros v E. injection E as <-. right.
      apply in_map, (nth_error_In _ _ Ei).
    + intros au E. injection E as <-. exists x.
      split; [exact (nth_error_In _ _ Ei) | split; reflexivity].
  - (* ToggleOverlay *)
    destruct H as (Hv & Ha & Ho). unfold Studio.from_library. cbn.
    split; [exact Hv | split; [exact Ha|]].
    intros o. destruct (option_eqb _ _ _); [discriminate|].
    intros E. injection E as <-. apply in_map, (nth_error_In _ _ Ei).
Qed.

Lemma run_from_library (events : list (Z * Studio.Action)) :
  forall st, Studio.from_library st -> Studio.from_library (Studio.run events st).
Proof.
  induction events as [|e events IH]; intros st H; [exact H|].
  cbn [Studio.run fold_left]. apply IH. now apply step_from_library.
Qed.

(** X9: after any sequence of actions from the initial state, the video
    on air is the video of an asset of the video or the animation
    library, the overlay shown is an uploaded overlay, and a narration
    on air is the audio of an animation of the library whose video is
    the one on air: picture and narration are never taken from two
    different assets. *)
Theorem on_air_media_come_from_the_libraries (events : list (Z * Studio.Action)) :
  let st := Studio.run events Studio.initial in
  (forall v, App.currentVideoUrl (Studio.app st) = Some v ->
             In v (map va_url (Studio.videoLibrary st))
             \/ In v (map ta_videoUrl (Studio.animationLibrary st)))
  /\ (forall au, App.currentAudioUrl (Studio.app st) = Some au ->
                 exists anim, In anim (Studio.animationLibrary st)
                              /\ App.currentVideoUrl (Studio.app st)
                                 = Some (ta_videoUrl anim)
                              /\ au = ta_audioUrl anim)
  /\ (forall o, App.activeOverlayUrl (Studio.app st) = Some o ->
                In o (map Studio.oa_url (Studio.overlayLibrary st))).
Proof.
  apply run_from_library. unfold Studio.from_library. cbn.
  repeat split; discriminate.
Qed.

(** *** Generations and uploads leave the preview alone *)

Lemma set_props_same (st : Preview) : set_props (props st) st = st.
Proof. now destruct st. Qed.

(** X10: an asset arriving in a library, an upload, the loading overlay
    and the key dialog change none of the props of the preview, so the
    render that follows runs no effect: what is on air keeps playing,
    untouched. *)
Theorem background_actions_keep_preview
        (policy : Policy) (acts : list Action) (p0 : Props)
        (now : Z) (a : Studio.Action) (st : Studio.State) :
  let preview := run policy acts (mount policy p0) in
  props preview = App.previewProps (Studio.app st) ->
  Studio.background a = true ->
  App.previewProps (Studio.app (Studio.step now a st)) = App.previewProps (Studio.app st)
  /\ rerender policy (App.previewProps (Studio.app (Studio.step now a st))) preview
     = preview.
Proof.
  intros preview Hp Hb.
  assert (E : App.previewProps (Studio.app (Studio.step now a st))
              = App.previewProps (Studio.app st)).
  { destruct a as [|src|i|i|i|f u|v|au|an|b m| |k|s]; try discriminate Hb;
      try reflexivity.
    now destruct k as [[[]|e]|]. }
  split; [exact E|]. rewrite E, <- Hp.
  rewrite (rerender_same_deps policy (props preview) preview);
    try reflexivity; [apply set_props_same | |].
  - apply run_synced, mount_synced.
  - apply run_tuned; [apply mount_synced | apply mount_tuned].
Qed.

Lemma background_actions_keep_preview_witness :
  let preview := mount allow_all (App.previewProps (Studio.app Studio.initial)) in
  App.previewProps (Studio.app (Studio.step 1700000000000 (Studio.VideoGenerated clip)
                                            Studio.initial))
  = App.previewProps (Studio.app Studio.initial)
  /\ rerender allow_all
       (App.previewProps (Studio.app (Studio.step 1700000000000
                                                  (Studio.VideoGenerated clip)
                                                  Studio.initial)))
       preview
     = preview.
Proof.
  exact (background_actions_keep_preview allow_all []
           (App.previewProps (Studio.app Studio.initial))
           1700000000000 (Studio.VideoGenerated clip) Studio.initial
           eq_refl eq_refl).
Defined.

(** ** The webcam hook *)

Lemma webcam_step_coherent (e : Webcam.Event) (h : Webcam.Hook) :
  Webcam.coherent h -> Webcam.coherent (Webcam.step e h).
Proof.
  unfold Webcam.coherent. intros (H1 & H2 & H3 & H4).
  destruct e as [|[s|err]]; cbn [Webcam.step].
  - unfold Webcam.handleWebcamToggle, Webcam.stopWebcam, Webcam.startWebcam.
    destruct (Webcam.WebcamStatus_eqb (Webcam.status h) Webcam.STREAMING).
    + destruct (Webcam.streamRef h) as [s|] eqn:Hr; cbn.
      * repeat split; try discriminate; congruence.
      * rewrite Hr. repeat split; auto; discriminate.
    + cbn. repeat split; auto; discriminate.
  - unfold Webcam.settle. destruct (Webcam.pending h); [now repeat split|].
    cbn. repeat split; try discriminate.
    intros s' E. injection E as <-. apply in_or_app. right. now left.
  - unfold Webcam.settle. destruct (Webcam.pending h); [now repeat split|].
    cbn. repeat split; auto; discriminate.
Qed.

Lemma webcam_run_coherent (events : list Webcam.Event) :
  forall h, Webcam.coherent h -> Webcam.coherent (Webcam.run events h).
Proof.
  induction events as [|e events IH]; intros h H; [exact H|].
  cbn [Webcam.run fold_left]. apply IH. now apply webcam_step_coherent.
Qed.

(** X11: whatever the order in which the camera button is pressed and
    the permission requests settle, the stream the hook returns is the
    one its ref holds and its tracks have not been stopped; the status
    STREAMING comes with a stream and the status IDLE with none. *)
Theorem useWebcam_stream_is_live (events : list Webcam.Event) :
  let h := Webcam.run events Webcam.initial in
  Webcam.stream h = Webcam.streamRef h
  /\ (forall s, Webcam.stream h = Some s -> In s (Webcam.live h))
  /\ (Webcam.status h = Webcam.STREAMING -> Webcam.stream h <> None)
  /\ (Webcam.status h = Webcam.IDLE -> Webcam.stream h = None).
Proof.
  intros h.
  assert (H : Webcam.coherent h).
  { apply webcam_run_coherent. unfold Webcam.coherent. cbn.
    repeat split; try discriminate; auto. }
  destruct H as (H1 & H2 & H3 & H4).
  split; [exact H1|]. split; [|split; assumption].
  intros s E. apply H2. congruence.
Qed.

Lemma stop_tracks_self (s : MediaStream) : Webcam.stop_tracks s [s] = [].
Proof.
  unfold Webcam.stop_tracks, MediaStream_eqb. cbn. now rewrite Nat.eqb_refl.
Qed.

Lemma webcam_step_orderly (e : Webcam.Event) (h : Webcam.Hook) :
  Webcam.orderly h ->
  match e with Webcam.Toggle => Webcam.pending h = O | _ => True end ->
  Webcam.orderly (Webcam.step e h).
Proof.
  unfold Webcam.orderly. intros (H1 & H2 & H3) He.
  destruct e as [|[s|err]]; cbn [Webcam.step].
  - rewrite He in H3. destruct H3 as [Hreq Hiff].
    unfold Webcam.handleWebcamToggle.
    destruct (Webcam.status h) eqn:Hst; cbn [Webcam.WebcamStatus_eqb];
      try congruence.
    + (* IDLE: start *)
      assert (Hs : Webcam.stream h = None).
      { destruct (Webcam.stream h) as [m|]; [|reflexivity].
        assert (Hne : Some m <> None) by discriminate.
        apply Hiff in Hne. discriminate Hne. }
      cbn. rewrite He. auto.
    + (* STREAMING: stop *)
      unfold Webcam.stopWebcam.
      destruct (Webcam.streamRef h) as [s|] eqn:Hr.
      * cbn. rewrite He, H2. cbn [Webcam.option_list]. rewrite stop_tracks_self.
        split; [reflexivity|]. split; [reflexivity|].
        split; [discriminate|]. split; [discriminate | intros E; now elim E].
      * exfalso. apply (proj1 Hiff eq_refl). congruence.
    + (* ERROR: start *)
      assert (Hs : Webcam.stream h = None).
      { destruct (Webcam.stream h) as [m|]; [|reflexivity].
        assert (Hne : Some m <> None) by discriminate.
        apply Hiff in Hne. discriminate Hne. }
      cbn. rewrite He. auto.
  - unfold Webcam.settle. destruct (Webcam.pending h) as [|n] eqn:Hp;
      [rewrite Hp; auto|].
    destruct H3 as (-> & Hst & Hs). cbn.
    rewrite H2, <- H1, Hs. cbn.
    split; [reflexivity|]. split; [reflexivity|].
    split; [discriminate|]. split; [discriminate | reflexivity].
  - unfold Webcam.settle. destruct (Webcam.pending h) as [|n] eqn:Hp;
      [rewrite Hp; auto|].
    destruct H3 as (-> & Hst & Hs). cbn.
    split; [exact H1|]. split; [exact H2|].
    split; [discriminate|]. rewrite Hs.
    split; [discriminate | intros E; now elim E].
Qed.

Lemma webcam_run_orderly (events : list Webcam.Event) :
  forall h, Webcam.orderly h -> Webcam.paced events h = true ->
            Webcam.orderly (Webcam.run events h).
Proof.
  induction events as [|e events IH]; intros h H Hp; [exact H|].
  cbn [Webcam.run fold_left]. cbn [Webcam.paced] in Hp.
  apply andb_prop in Hp. destruct Hp as [He Hp].
  apply IH; [|exact Hp]. apply webcam_step_orderly; [exact H|].
  destruct e; [now apply Nat.eqb_eq | exact I].
Qed.

(** X12: when the camera button is pressed only while no permission
    request is pending, the only stream with live tracks is the one the
    hook returns: stopping the camera leaves no track running, the
    status is STREAMING exactly when there is a stream, and unmounting
    with no request pending stops every track. *)
Theorem useWebcam_leaves_no_track_running (events : list Webcam.Event) :
  Webcam.paced events Webcam.initial = true ->
  let h := Webcam.run events Webcam.initial in
  Webcam.live h = Webcam.option_list (Webcam.stream h)
  /\ (Webcam.pending h <= 1)%nat
  /\ (Webcam.pending h = O ->
      (Webcam.status h = Webcam.STREAMING <-> Webcam.stream h <> None)
      /\ Webcam.live (Webcam.unmount h) = [])
  /\ (Webcam.status h = Webcam.IDLE -> Webcam.live h = []).
Proof.
  intros Hp h.
  assert (H : Webcam.orderly h).
  { apply webcam_run_orderly; [|exact Hp]. unfold Webcam.orderly. cbn.
    repeat split; try discriminate; auto. intros E. now elim E. }
  destruct H as (H1 & H2 & H3).
  split; [now rewrite H1|].
  split; [destruct (Webcam.pending h); [lia | destruct H3 as (-> & _); lia]|].
  split.
  - intros E. rewrite E in H3. destruct H3 as [_ Hiff]. split; [exact Hiff|].
    unfold Webcam.unmount. destruct (Webcam.streamRef h) as [s|] eqn:Hr.
    + cbn. rewrite H2. apply stop_tracks_self.
    + exact H2.
  - intros E. rewrite H2, <- H1.
    destruct (Webcam.pending h).
    + destruct H3 as [_ Hiff]. destruct (Webcam.stream h) as [s|]; [|reflexivity].
      assert (Hne : Some s <> None) by discriminate.
      apply Hiff in Hne. congruence.
    + destruct H3 as (_ & Hst & _). congruence.
Qed.

Lemma useWebcam_leaves_no_track_running_witness :
  let h := Webcam.run [Webcam.Toggle; Webcam.Settled (Return Webcam.camera);
                       Webcam.Toggle] Webcam.initial in
  Webcam.live h = Webcam.option_list (Webcam.stream h)
  /\ (Webcam.pending h <= 1)%nat
  /\ (Webcam.pending h = O ->
      (Webcam.status h = Webcam.STREAMING <-> Webcam.stream h <> None)
      /\ Webcam.live (Webcam.unmount h) = [])
  /\ (Webcam.status h = Webcam.IDLE -> Webcam.live h = []).
Proof.
  exact (useWebcam_leaves_no_track_running
           [Webcam.Toggle; Webcam.Settled (Return Webcam.camera); Webcam.Toggle]
           eq_refl).
Defined.

(** ** The video service *)

(** *** Running asynchronous code step by step *)

Section AsyncLaws.
Context {E A B : Type}.

Lemma abind_done (m : Async E A) (k : A -> Async E B) (w w' : World E) (a : A) :
  m w = (w', Done (Return a)) -> abind m k w = k a w'.
Proof. unfold abind. now intros ->. Qed.

Lemma abind_step (m : Async E A) (k : A -> Async E B) (w w' : World E) (a : A)
      (r : World E * Completion B) :
  m w = (w', Done (Return a)) -> k a w' = r -> abind m k w = r.
Proof. unfold abind. now intros -> <-. Qed.

Lemma abind_throws (m : Async E A) (k : A -> Async E B) (w w' : World E) (e : Exn) :
  m w = (w', Done (Throw e)) -> abind m k w = (w', Done (Throw e)).
Proof. unfold abind. now intros ->. Qed.

Lemma abind_pending (m : Async E A) (k : A -> Async E B) (w w' : World E) :
  m w = (w', Pending) -> abind m k w = (w', Pending).
Proof. unfold abind. now intros ->. Qed.

Lemma abind_emit (e : E) (k : unit -> Async E B) (w : World E) :
  abind (emit e) k w = k tt {| clock := clock w; trace := trace w ++ [(clock w, e)] |}.
Proof. reflexivity. Qed.

Lemma external_settles (op : option Time * JsResult A) (l : Time) (r : JsResult A)
      (w : World E) :
  op = (Some l, r) ->
  external op w = ({| clock := (clock w + l)%nat; trace := trace w |}, Done r).
Proof. now intros ->. Qed.

Lemma external_never (op : option Time * JsResult A) (r : JsResult A) (w : World E) :
  op = (None, r) -> external op w = (w, Pending).
Proof. now intros ->. Qed.

Lemma try_catch_done (m : Async E A) (h : Exn -> Async E A) (w w' : World E) (a : A) :
  m w = (w', Done (Return a)) -> try_catch m h w = (w', Done (Return a)).
Proof. unfold try_catch. now intros ->. Qed.

Lemma try_catch_throws (m : Async E A) (h : Exn -> Async E A) (w w' : World E) (e : Exn) :
  m w = (w', Done (Throw e)) -> try_catch m h w = h e w'.
Proof. unfold try_catch. now intros ->. Qed.

Lemma try_catch_pending (m : Async E A) (h : Exn -> Async E A) (w w' : World E) :
  m w = (w', Pending) -> try_catch m h w = (w', Pending).
Proof. unfold try_catch. now intros ->. Qed.

End AsyncLaws.

Ltac async_emit :=
  eapply abind_step; [reflexivity|]; cbn [Async.clock Async.trace].

Tactic Notation "async_step" uconstr(H) :=
  eapply abind_step; [exact H|]; cbn [Async.clock Async.trace].

Ltac async_external H :=
  eapply abind_step; [exact (external_settles _ _ _ _ H)|];
  cbn [Async.clock Async.trace].

Lemma poll_done (answers : list (option Time * JsResult VideoService.VideosOperation))
      (op : VideoService.VideosOperation) (w : World VideoService.Effect) :
  VideoService.done op = true ->
  VideoService.poll answers op w = (w, Done (Return op)).
Proof. intros H. destruct answers; cbn [VideoService.poll]; now rewrite H. Qed.

Lemma poll_answer (l : Time) (op' : VideoService.VideosOperation)
      (rest : list (option Time * JsResult VideoService.VideosOperation))
      (op : VideoService.VideosOperation) (w : World VideoService.Effect) :
  VideoService.done op = false ->
  VideoService.poll ((Some l, Return op') :: rest) op w
  = VideoService.poll rest op'
      {| clock := (clock w + VideoService.pollInterval + l)%nat;
         trace := trace w ++ VideoService.polling_trace (clock w) [l] |}.
Proof.
  intros H. cbn [VideoService.poll]. rewrite H.
  unfold abind, external, emit, try_catch.
  cbn -[VideoService.pollInterval Nat.add VideoService.poll].
  now rewrite <- app_assoc.
Qed.

Lemma polling_trace_app (ls ls' : list Time) :
  forall t,
    VideoService.polling_trace t (ls ++ ls')
    = VideoService.polling_trace t ls
        ++ VideoService.polling_trace (t + VideoService.polling_time ls)%nat ls'.
Proof.
  induction ls as [|l ls IH]; intros t.
  - cbn [app VideoService.polling_trace VideoService.polling_time]. now rewrite Nat.add_0_r.
  - cbn [app VideoService.polling_trace VideoService.polling_time]. rewrite IH.
    do 4 f_equal. clock_lia.
Qed.

Lemma polling_time_app (ls ls' : list Time) :
  VideoService.polling_time (ls ++ ls')
  = (VideoService.polling_time ls + VideoService.polling_time ls')%nat.
Proof.
  induction ls as [|l ls IH]; [reflexivity|].
  cbn [app VideoService.polling_time]. rewrite IH. clock_lia.
Qed.

Lemma last_cons_default (A : Type) (l : list A) :
  forall (x d d' : A), last (x :: l) d = last (x :: l) d'.
Proof.
  induction l as [|y l IH]; intros x d d'; [reflexivity|].
  change (last (y :: l) d = last (y :: l) d'). apply IH.
Qed.

Lemma last_cons (A : Type) (l : list A) (x d : A) : last (x :: l) d = last l x.
Proof.
  destruct l as [|y l]; [reflexivity|].
  change (last (y :: l) d = last (y :: l) x). apply last_cons_default.
Qed.

(** The loop when the service answers: one status request for each
    answer up to the first that is done. *)
Lemma poll_answers (waits : list (Time * VideoService.VideosOperation)) :
  forall (op : VideoService.VideosOperation) (w : World VideoService.Effect)
         (l : Time) (r : JsResult VideoService.VideosOperation)
         (rest : list (option Time * JsResult VideoService.VideosOperation)),
    VideoService.done op = false ->
    Forall (fun a => VideoService.done (snd a) = false) waits ->
    VideoService.poll (map VideoService.answers waits ++ (Some l, r) :: rest) op w
    = VideoService.poll ((Some l, r) :: rest)
        (last (map snd waits) op)
        {| clock := (clock w + VideoService.polling_time (map fst waits))%nat;
           trace := trace w ++ VideoService.polling_trace (clock w) (map fst waits) |}.
Proof.
  induction waits as [|[l1 op1] waits IH]; intros op w l r rest Hop Hw.
  - cbn [map app last VideoService.polling_time VideoService.polling_trace].
    rewrite Nat.add_0_r, app_nil_r. now destruct w.
  - inversion Hw as [|? ? H1 H2]; subst. cbn [snd] in H1.
    cbn [map app]. unfold VideoService.answers at 1. cbn [fst snd].
    rewrite (poll_answer l1 op1 _ op w Hop).
    rewrite (IH op1 _ l r rest H1 H2). cbn [clock trace].
    f_equal.
    + cbn [snd]. symmetry. apply last_cons.
    + f_equal.
      * cbn [VideoService.polling_time]. clock_lia.
      * rewrite <- app_assoc. now f_equal.
Qed.

Lemma poll_until_done (waits : list (Time * VideoService.VideosOperation))
      (op opd : VideoService.VideosOperation) (w : World VideoService.Effect)
      (l : Time) (rest : list (option Time * JsResult VideoService.VideosOperation)) :
  VideoService.done op = false ->
  Forall (fun a => VideoService.done (snd a) = false) waits ->
  VideoService.done opd = true ->
  VideoService.poll (map VideoService.answers waits ++ (Some l, Return opd) :: rest) op w
  = ({| clock := (clock w + VideoService.polling_time (map fst waits ++ [l]))%nat;
        trace := trace w ++ VideoService.polling_trace (clock w) (map fst waits ++ [l]) |},
     Done (Return opd)).
Proof.
  intros Hop Hw Hd. rewrite (poll_answers waits op w l _ rest Hop Hw).
  assert (Hlast : VideoService.done (last (map snd waits) op) = false).
  { clear -Hop Hw. revert op Hop. induction Hw as [|[l1 op1] waits H1 H2 IH];
      intros op Hop; [exact Hop|].
    cbn [map snd]. rewrite last_cons. now apply IH. }
  rewrite (poll_answer l opd rest _ _ Hlast), (poll_done rest opd _ Hd).
  cbn [clock trace]. rewrite polling_trace_app, polling_time_app, <- app_assoc.
  cbn [VideoService.polling_time]. do 2 f_equal. clock_lia.
Qed.

Lemma poll_until_failure (waits : list (Time * VideoService.VideosOperation))
      (op : VideoService.VideosOperation) (e : Exn) (w : World VideoService.Effect)
      (l : Time) (rest : list (option Time * JsResult VideoService.VideosOperation)) :
  VideoService.done op = false ->
  Forall (fun a => VideoService.done (snd a) = false) waits ->
  let ls := map fst waits ++ [l] in
  let t := (clock w + VideoService.polling_time ls)%nat in
  VideoService.poll (map VideoService.answers waits ++ (Some l, Throw e) :: rest) op w
  = if VideoService.includes (message e) "Requested entity was not found."
    then ({| clock := t;
             trace := trace w ++ VideoService.polling_trace (clock w) ls
                        ++ [(t, VideoService.OnApiKeyError)] |},
          Done (Throw VideoService.keyError))
    else ({| clock := t;
             trace := trace w ++ VideoService.polling_trace (clock w) ls |},
          Done (Throw e)).
Proof.
  intros Hop Hw ls t. rewrite (poll_answers waits op w l _ rest Hop Hw).
  assert (Hlast : VideoService.done (last (map snd waits) op) = false).
  { clear -Hop Hw. revert op Hop. induction Hw as [|[l1 op1] waits H1 H2 IH];
      intros op Hop; [exact Hop|].
    cbn [map snd]. rewrite last_cons. now apply IH. }
  cbn [VideoService.poll]. rewrite Hlast.
  unfold abind, external, emit, try_catch, throw.
  cbn -[VideoService.pollInterval Nat.add VideoService.poll VideoService.includes].
  match goal with
  | |- context [{| clock := ?c; trace := ?tr |}] =>
      assert (Et : c = t)
        by (unfold t, ls; rewrite polling_time_app;
            cbn [VideoService.polling_time]; clock_lia);
      assert (Etr : tr = trace w ++ VideoService.polling_trace (clock w) ls)
        by (unfold ls; rewrite polling_trace_app, <- !app_assoc; reflexivity)
  end.
  rewrite Et, Etr.
  destruct (VideoService.includes (message e) "Requested entity was not found.");
    cbn [clock trace]; rewrite <- ?app_assoc; reflexivity.
Qed.

Lemma status_requests_app (a b : list (Time * VideoService.Effect)) :
  VideoService.status_requests (a ++ b)
  = VideoService.status_requests a ++ VideoService.status_requests b.
Proof. unfold VideoService.status_requests. now rewrite filter_app, map_app. Qed.

Lemma status_requests_polling (ls : list Time) :
  forall t, VideoService.status_requests (VideoService.polling_trace t ls)
            = VideoService.polling_stamps t ls.
Proof.
  induction ls as [|l ls IH]; intros t; [reflexivity|].
  cbn [VideoService.polling_trace VideoService.polling_stamps].
  change (VideoService.status_requests (?a :: ?b :: ?r))
    with (fst b :: VideoService.status_requests r).
  cbn [fst]. now rewrite IH.
Qed.

Lemma polling_stamps_length (ls : list Time) :
  forall t, length (VideoService.polling_stamps t ls) = length ls.
Proof. induction ls as [|l ls IH]; intros t; cbn; [reflexivity | now rewrite IH]. Qed.

Lemma calls_onApiKeyError_app (a b : list (Time * VideoService.Effect)) :
  VideoService.calls_onApiKeyError (a ++ b)
  = (VideoService.calls_onApiKeyError a + VideoService.calls_onApiKeyError b)%nat.
Proof. unfold VideoService.calls_onApiKeyError. now rewrite filter_app, length_app. Qed.

Lemma fetches_app (a b : list (Time * VideoService.Effect)) :
  VideoService.fetches (a ++ b) = (VideoService.fetches a + VideoService.fetches b)%nat.
Proof. unfold VideoService.fetches. now rewrite filter_app, length_app. Qed.

Lemma console_errors_app (a b : list (Time * VideoService.Effect)) :
  VideoService.console_errors (a ++ b)
  = VideoService.console_errors a ++ VideoService.console_errors b.
Proof. unfold VideoService.console_errors. now rewrite map_app, concat_app. Qed.

Lemma polling_trace_quiet (ls : list Time) :
  forall t,
    VideoService.calls_onApiKeyError (VideoService.polling_trace t ls) = O
    /\ VideoService.fetches (VideoService.polling_trace t ls) = O
    /\ VideoService.console_errors (VideoService.polling_trace t ls) = [].
Proof.
  induction ls as [|l ls IH]; intros t; [now repeat split|].
  destruct (IH (t + VideoService.pollInterval + l)%nat) as (H1 & H2 & H3).
  cbn [VideoService.polling_trace]. repeat split; assumption.
Qed.

Lemma generateVideoFromImage_success_run
      (svc : VideoService.Service) (prompt base64Image imageMimeType : string)
      (t0 l0 l lf lb : Time)
      (op0 opd : VideoService.VideosOperation)
      (waits : list (Time * VideoService.VideosOperation))
      (rest : list (option Time * JsResult VideoService.VideosOperation))
      (response : VideoService.Response) (videoBlob : Blob) :
  VideoService.generateVideos svc prompt base64Image imageMimeType
  = (Some l0, Return op0) ->
  VideoService.done op0 = false ->
  VideoService.getVideosOperation svc
  = map VideoService.answers waits ++ (Some l, Return opd) :: rest ->
  Forall (fun a => VideoService.done (snd a) = false) waits ->
  VideoService.done opd = true ->
  truthy (VideoService.uri opd) = true ->
  VideoService.fetch svc (or_empty (VideoService.uri opd) ++ "&key="
                            ++ VideoService.apiKey svc)
  = (Some lf, Return response) ->
  VideoService.ok response = true ->
  VideoService.blob response = (Some lb, Return videoBlob) ->
  let ls := map fst waits ++ [l] in
  VideoService.generateVideoFromImage svc prompt base64Image imageMimeType
    {| clock := t0; trace := [] |}
  = ({| clock := (t0 + l0 + VideoService.polling_time ls + lf + lb)%nat;
        trace :=
          [(t0, VideoService.SetLoadingMessage
                  "Initializing video generation service...");
           (t0, VideoService.SetLoadingMessage
       "Generating video... this may take a few minutes.  visionary ideas need time.");
           (t0, VideoService.GenerateVideos prompt base64Image imageMimeType);
           ((t0 + l0)%nat, VideoService.SetLoadingMessage
              "Video is processing on our servers. Checking status...")]
            ++ VideoService.polling_trace (t0 + l0)%nat ls
            ++ [((t0 + l0 + VideoService.polling_time ls)%nat,
                 VideoService.SetLoadingMessage
                   "Finalizing video and preparing for download...");
                ((t0 + l0 + VideoService.polling_time ls)%nat,
                 VideoService.Fetch
                   (or_empty (VideoService.uri opd) ++ "&key="
                      ++ VideoService.apiKey svc))] |},
     Done (Return (VideoService.objectUrl svc videoBlob))).
Proof.
  intros Hstart Hop0 Hpolls Hwaits Hopd Huri Hfetch Hok Hblob ls.
  unfold VideoService.generateVideoFromImage. apply try_catch_done.
  do 3 async_emit.
  async_external Hstart.
  async_emit. rewrite Hpolls.
  async_step (poll_until_done waits op0 opd _ l rest Hop0 Hwaits Hopd).
  async_emit. rewrite Huri.
  async_emit.
  async_external Hfetch.
  rewrite Hok.
  async_external Hblob.
  unfold ret. cbn [app]. fold ls.
  rewrite <- !app_assoc. reflexivity.
Qed.

(** X13: when the service answers every status request, the function
    asks for the status once for each answer up to the first that is
    done, ten seconds after the start of the generation or after the
    previous answer, and it resolves with the object URL of the
    downloaded video; it neither calls [onApiKeyError] nor writes to the
    console. *)
Theorem generateVideoFromImage_polls_until_done
        (svc : VideoService.Service) (prompt base64Image imageMimeType : string)
        (t0 l0 l lf lb : Time)
        (op0 opd : VideoService.VideosOperation)
        (waits : list (Time * VideoService.VideosOperation))
        (rest : list (option Time * JsResult VideoService.VideosOperation))
        (response : VideoService.Response) (videoBlob : Blob) :
  VideoService.generateVideos svc prompt base64Image imageMimeType
  = (Some l0, Return op0) ->
  VideoService.done op0 = false ->
  VideoService.getVideosOperation svc
  = map VideoService.answers waits ++ (Some l, Return opd) :: rest ->
  Forall (fun a => VideoService.done (snd a) = false) waits ->
  VideoService.done opd = true ->
  truthy (VideoService.uri opd) = true ->
  VideoService.fetch svc (or_empty (VideoService.uri opd) ++ "&key="
                            ++ VideoService.apiKey svc)
  = (Some lf, Return response) ->
  VideoService.ok response = true ->
  VideoService.blob response = (Some lb, Return videoBlob) ->
  let ls := map fst waits ++ [l] in
  let out := VideoService.generateVideoFromImage svc prompt base64Image imageMimeType
               {| clock := t0; trace := [] |} in
  snd out = Done (Return (VideoService.objectUrl svc videoBlob))
  /\ clock (fst out) = (t0 + l0 + VideoService.polling_time ls + lf + lb)%nat
  /\ VideoService.status_requests (trace (fst out))
     = VideoService.polling_stamps (t0 + l0)%nat ls
  /\ length (VideoService.status_requests (trace (fst out))) = S (length waits)
  /\ VideoService.fetches (trace (fst out)) = 1%nat
  /\ VideoService.calls_onApiKeyError (trace (fst out)) = O
  /\ VideoService.console_errors (trace (fst out)) = [].
Proof.
  intros Hstart Hop0 Hpolls Hwaits Hopd Huri Hfetch Hok Hblob ls out.
  pose proof (generateVideoFromImage_success_run svc prompt base64Image imageMimeType
                t0 l0 l lf lb op0 opd waits rest response videoBlob
                Hstart Hop0 Hpolls Hwaits Hopd Huri Hfetch Hok Hblob) as E.
  cbv zeta in E. fold ls out in E.
  rewrite E. cbn [fst snd clock trace].
  split; [reflexivity|]. split; [reflexivity|].
  destruct (polling_trace_quiet ls (t0 + l0)%nat) as (Q1 & Q2 & Q3).
  rewrite !status_requests_app, !fetches_app, !calls_onApiKeyError_app,
    !console_errors_app, status_requests_polling, Q1, Q2, Q3.
  cbn -[VideoService.polling_stamps VideoService.polling_time Nat.add
        VideoService.pollInterval or_empty String.append].
  rewrite app_nil_r, polling_stamps_length.
  split; [reflexivity|].
  split; [unfold ls; rewrite length_app, length_map; cbn; lia|].
  repeat split.
Qed.

Lemma generateVideoFromImage_polls_until_done_witness :
  let svc := VideoService.sample_service (Return VideoService.running)
               [VideoService.answers (4000%nat, VideoService.running);
                (Some 2500%nat, Return VideoService.finished)] in
  let out := VideoService.generateVideoFromImage svc "a cat" "IMAGE" "image/png"
               {| clock := 100%nat; trace := [] |} in
  snd out = Done (Return "blob:video"%string)
  /\ clock (fst out) = 27900%nat
  /\ VideoService.status_requests (trace (fst out)) = [10400%nat; 24400%nat]
  /\ length (VideoService.status_requests (trace (fst out))) = 2%nat
  /\ VideoService.fetches (trace (fst out)) = 1%nat
  /\ VideoService.calls_onApiKeyError (trace (fst out)) = O
  /\ VideoService.console_errors (trace (fst out)) = [].
Proof.
  exact (generateVideoFromImage_polls_until_done
           (VideoService.sample_service (Return VideoService.running)
              [VideoService.answers (4000%nat, VideoService.running);
               (Some 2500%nat, Return VideoService.finished)])
           "a cat" "IMAGE" "image/png" 100%nat 300%nat 2500%nat 800%nat 200%nat
           VideoService.running VideoService.finished
           [(4000%nat, VideoService.running)] []
           {| VideoService.ok := true; VideoService.statusText := "OK";
              VideoService.blob := (Some 200%nat, Return VideoService.clip_blob) |}
           VideoService.clip_blob
           eq_refl eq_refl eq_refl
           (Forall_cons (4000%nat, VideoService.running) eq_refl (Forall_nil _))
           eq_refl eq_refl eq_refl eq_refl eq_refl).
Defined.

(** The run in which a status request fails with the message of a
    lost key. *)
Lemma generateVideoFromImage_lost_key_run
      (svc : VideoService.Service) (prompt base64Image imageMimeType : string)
      (t0 l0 l : Time) (op0 : VideoService.VideosOperation) (e : Exn)
      (waits : list (Time * VideoService.VideosOperation))
      (rest : list (option Time * JsResult VideoService.VideosOperation)) :
  VideoService.generateVideos svc prompt base64Image imageMimeType
  = (Some l0, Return op0) ->
  VideoService.done op0 = false ->
  VideoService.getVideosOperation svc
  = map VideoService.answers waits ++ (Some l, Throw e) :: rest ->
  Forall (fun a => VideoService.done (snd a) = false) waits ->
  VideoService.includes (message e) "Requested entity was not found." = true ->
  let ls := map fst waits ++ [l] in
  VideoService.generateVideoFromImage svc prompt base64Image imageMimeType
    {| clock := t0; trace := [] |}
  = ({| clock := (t0 + l0 + VideoService.polling_time ls)%nat;
        trace :=
          [(t0, VideoService.SetLoadingMessage
                  "Initializing video generation service...");
           (t0, VideoService.SetLoadingMessage
       "Generating video... this may take a few minutes.  visionary ideas need time.");
           (t0, VideoService.GenerateVideos prompt base64Image imageMimeType);
           ((t0 + l0)%nat, VideoService.SetLoadingMessage
              "Video is processing on our servers. Checking status...")]
            ++ VideoService.polling_trace (t0 + l0)%nat ls
            ++ [((t0 + l0 + VideoService.polling_time ls)%nat,
                 VideoService.OnApiKeyError)] |},
     Done (Throw VideoService.keyError)).
Proof.
  intros Hstart Hop0 Hpolls Hwaits Hinc ls.
  pose proof (poll_until_failure waits op0 e
                {| clock := (t0 + l0)%nat;
                   trace :=
                     [(t0, VideoService.SetLoadingMessage
                             "Initializing video generation service...");
                      (t0, VideoService.SetLoadingMessage
       "Generating video... this may take a few minutes.  visionary ideas need time.");
                      (t0, VideoService.GenerateVideos prompt base64Image imageMimeType);
                      ((t0 + l0)%nat, VideoService.SetLoadingMessage
                         "Video is processing on our servers. Checking status...")] |}
                l rest Hop0 Hwaits) as Hpoll.
  cbv zeta in Hpoll. rewrite Hinc in Hpoll. cbn [clock trace] in Hpoll. fold ls in Hpoll.
  unfold VideoService.generateVideoFromImage.
  erewrite try_catch_throws.
  2:{ do 3 async_emit.
      async_external Hstart.
      async_emit. rewrite Hpolls.
      apply abind_throws. exact Hpoll. }
  reflexivity.
Qed.

(** X14: a status request that fails with a message containing
    "Requested entity was not found." makes the function call
    [onApiKeyError] once and reject with the error "API key invalid or
    not found. Please select a valid key.", which the outer handler
    lets through: nothing is written to the console and nothing is
    downloaded. *)
Theorem generateVideoFromImage_reports_lost_key
        (svc : VideoService.Service) (prompt base64Image imageMimeType : string)
        (t0 l0 l : Time) (op0 : VideoService.VideosOperation) (e : Exn)
        (waits : list (Time * VideoService.VideosOperation))
        (rest : list (option Time * JsResult VideoService.VideosOperation)) :
  VideoService.generateVideos svc prompt base64Image imageMimeType
  = (Some l0, Return op0) ->
  VideoService.done op0 = false ->
  VideoService.getVideosOperation svc
  = map VideoService.answers waits ++ (Some l, Throw e) :: rest ->
  Forall (fun a => VideoService.done (snd a) = false) waits ->
  VideoService.includes (message e) "Requested entity was not found." = true ->
  let out := VideoService.generateVideoFromImage svc prompt base64Image imageMimeType
               {| clock := t0; trace := [] |} in
  snd out = Done (Throw VideoService.keyError)
  /\ clock (fst out)
     = (t0 + l0 + VideoService.polling_time (map fst waits ++ [l]))%nat
  /\ VideoService.calls_onApiKeyError (trace (fst out)) = 1%nat
  /\ length (VideoService.status_requests (trace (fst out))) = S (length waits)
  /\ VideoService.console_errors (trace (fst out)) = []
  /\ VideoService.fetches (trace (fst out)) = O.
Proof.
  intros Hstart Hop0 Hpolls Hwaits Hinc out.
  set (ls := map fst waits ++ [l]).
  unfold out.
  rewrite (generateVideoFromImage_lost_key_run svc prompt base64Image imageMimeType
             t0 l0 l op0 e waits rest Hstart Hop0 Hpolls Hwaits Hinc).
  fold ls. cbn [fst snd clock trace].
  split; [reflexivity|]. split; [reflexivity|].
  destruct (polling_trace_quiet ls (t0 + l0)%nat) as (Q1 & Q2 & Q3).
  rewrite !status_requests_app, !fetches_app, !calls_onApiKeyError_app,
    !console_errors_app, status_requests_polling, Q1, Q2, Q3.
  cbn -[VideoService.polling_stamps VideoService.polling_time Nat.add
        VideoService.pollInterval or_empty String.append].
  rewrite app_nil_r, polling_stamps_length.
  split; [reflexivity|].
  split; [unfold ls; rewrite length_app, length_map; cbn; lia|].
  repeat split.
Qed.

Lemma generateVideoFromImage_reports_lost_key_witness :
  let svc := VideoService.sample_service (Return VideoService.running)
               [(Some 150%nat,
                 Throw (Error "404: Requested entity was not found."))] in
  let out := VideoService.generateVideoFromImage svc "a cat" "IMAGE" "image/png"
               {| clock := 100%nat; trace := [] |} in
  snd out = Done (Throw VideoService.keyError)
  /\ clock (fst out) = 10550%nat
  /\ VideoService.calls_onApiKeyError (trace (fst out)) = 1%nat
  /\ length (VideoService.status_requests (trace (fst out))) = 1%nat
  /\ VideoService.console_errors (trace (fst out)) = []
  /\ VideoService.fetches (trace (fst out)) = O.
Proof.
  exact (generateVideoFromImage_reports_lost_key
           (VideoService.sample_service (Return VideoService.running)
              [(Some 150%nat, Throw (Error "404: Requested entity was not found."))])
           "a cat" "IMAGE" "image/png" 100%nat 300%nat 150%nat
           VideoService.running (Error "404: Requested entity was not found.")
           [] [] eq_refl eq_refl eq_refl (Forall_nil _) eq_refl).
Defined.

(** X15: whatever the service does, a rejection of
    [generateVideoFromImage] carries one of two messages: one that
    contains "API key invalid or not found.", or "Failed to generate
    video. Please check the console for details."; in the second case
    the cause is the last thing written to the console. *)
Theorem generateVideoFromImage_rejections
        (svc : VideoService.Service) (prompt base64Image imageMimeType : string)
        (w w' : World VideoService.Effect) (e : Exn) :
  VideoService.generateVideoFromImage svc prompt base64Image imageMimeType w
  = (w', Done (Throw e)) ->
  VideoService.includes (message e) "API key invalid or not found." = true
  \/ (e = VideoService.failure
      /\ exists cause tr,
           trace w' = tr ++ [(clock w', VideoService.ConsoleError cause)]
           /\ VideoService.includes (message cause) "API key invalid or not found."
              = false).
Proof.
  unfold VideoService.generateVideoFromImage.
  match goal with |- try_catch ?m ?h w = _ -> _ => destruct (m w) as [w1 c] eqn:Em end.
  destruct c as [[a|cause]|].
  - rewrite (try_catch_done _ _ _ _ _ Em). discriminate.
  - rewrite (try_catch_throws _ _ _ _ _ Em).
    destruct (VideoService.includes (message cause) "API key invalid or not found.")
      eqn:Hinc.
    + unfold throw. intros H. injection H as <- <-. now left.
    + rewrite abind_emit. unfold throw. intros H. injection H as <- <-.
      right. split; [reflexivity|]. exists cause, (trace w1). now split.
  - rewrite (try_catch_pending _ _ _ _ Em). discriminate.
Qed.

Lemma generateVideoFromImage_rejections_witness :
  let svc := VideoService.sample_service (Throw (Error "quota exceeded")) [] in
  let w' := fst (VideoService.generateVideoFromImage svc "a cat" "IMAGE" "image/png"
                   {| clock := 100%nat; trace := [] |}) in
  VideoService.includes (message VideoService.failure) "API key invalid or not found."
  = true
  \/ (VideoService.failure = VideoService.failure
      /\ exists cause tr,
           trace w' = tr ++ [(clock w', VideoService.ConsoleError cause)]
           /\ VideoService.includes (message cause) "API key invalid or not found."
              = false).
Proof.
  exact (generateVideoFromImage_rejections
           (VideoService.sample_service (Throw (Error "quota exceeded")) [])
           "a cat" "IMAGE" "image/png" {| clock := 100%nat; trace := [] |}
           _ VideoService.failure eq_refl).
Defined.

(** X16: when the request that starts the generation fails, the
    function makes no status request and does not call
    [onApiKeyError], even if the message is the one the polling loop
    takes for a lost key: it writes the error to the console and rejects
    with the generic failure (unless the message contains "API key
    invalid or not found."). *)
Theorem generateVideoFromImage_start_failure
        (svc : VideoService.Service) (prompt base64Image imageMimeType : string)
        (t0 l0 : Time) (e : Exn) :
  VideoService.generateVideos svc prompt base64Image imageMimeType
  = (Some l0, Throw e) ->
  VideoService.includes (message e) "API key invalid or not found." = false ->
  let out := VideoService.generateVideoFromImage svc prompt base64Image imageMimeType
               {| clock := t0; trace := [] |} in
  snd out = Done (Throw VideoService.failure)
  /\ clock (fst out) = (t0 + l0)%nat
  /\ VideoService.console_errors (trace (fst out)) = [e]
  /\ VideoService.calls_onApiKeyError (trace (fst out)) = O
  /\ VideoService.status_requests (trace (fst out)) = []
  /\ VideoService.fetches (trace (fst out)) = O.
Proof.
  intros Hstart Hinc out.
  assert (E : out
              = ({| clock := (t0 + l0)%nat;
                    trace :=
                      [(t0, VideoService.SetLoadingMessage
                              "Initializing video generation service...");
                       (t0, VideoService.SetLoadingMessage
       "Generating video... this may take a few minutes.  visionary ideas need time.");
                       (t0, VideoService.GenerateVideos prompt base64Image imageMimeType);
                       ((t0 + l0)%nat, VideoService.ConsoleError e)] |},
                 Done (Throw VideoService.failure))).
  { unfold out, VideoService.generateVideoFromImage.
    erewrite try_catch_throws.
    2:{ do 3 async_emit. apply abind_throws.
        exact (external_settles _ _ _ _ Hstart). }
    rewrite Hinc. reflexivity. }
  rewrite E. repeat split.
Qed.

Lemma generateVideoFromImage_start_failure_witness :
  let svc := VideoService.sample_service
               (Throw (Error "404: Requested entity was not found.")) [] in
  let out := VideoService.generateVideoFromImage svc "a cat" "IMAGE" "image/png"
               {| clock := 100%nat; trace := [] |} in
  snd out = Done (Throw VideoService.failure)
  /\ clock (fst out) = 400%nat
  /\ VideoService.console_errors (trace (fst out))
     = [Error "404: Requested entity was not found."]
  /\ VideoService.calls_onApiKeyError (trace (fst out)) = O
  /\ VideoService.status_requests (trace (fst out)) = []
  /\ VideoService.fetches (trace (fst out)) = O.
Proof.
  exact (generateVideoFromImage_start_failure
           (VideoService.sample_service
              (Throw (Error "404: Requested entity was not found.")) [])
           "a cat" "IMAGE" "image/png" 100%nat 300%nat
           (Error "404: Requested entity was not found.") eq_refl eq_refl).
Defined.

(** X17: an operation that is done when the generation starts is not
    polled and not waited for; if it carries no download link, nothing
    is fetched: the error "Video generation failed: no download link
    found." goes to the console and the function rejects with the
    generic failure. *)
Theorem generateVideoFromImage_without_link
        (svc : VideoService.Service) (prompt base64Image imageMimeType : string)
        (t0 l0 : Time) (op0 : VideoService.VideosOperation) :
  VideoService.generateVideos svc prompt base64Image imageMimeType
  = (Some l0, Return op0) ->
  VideoService.done op0 = true ->
  truthy (VideoService.uri op0) = false ->
  let out := VideoService.generateVideoFromImage svc prompt base64Image imageMimeType
               {| clock := t0; trace := [] |} in
  snd out = Done (Throw VideoService.failure)
  /\ clock (fst out) = (t0 + l0)%nat
  /\ VideoService.console_errors (trace (fst out))
     = [Error "Video generation failed: no download link found."]
  /\ VideoService.status_requests (trace (fst out)) = []
  /\ VideoService.fetches (trace (fst out)) = O.
Proof.
  intros Hstart Hdone Huri out.
  assert (E : out
              = ({| clock := (t0 + l0)%nat;
                    trace :=
                      [(t0, VideoService.SetLoadingMessage
                              "Initializing video generation service...");
                       (t0, VideoService.SetLoadingMessage
       "Generating video... this may take a few minutes.  visionary ideas need time.");
                       (t0, VideoService.GenerateVideos prompt base64Image imageMimeType);
                       ((t0 + l0)%nat, VideoService.SetLoadingMessage
                          "Video is processing on our servers. Checking status...");
                       ((t0 + l0)%nat, VideoService.SetLoadingMessage
                          "Finalizing video and preparing for download...");
                       ((t0 + l0)%nat,
                        VideoService.ConsoleError
                          (Error "Video generation failed: no download link found."))] |},
                 Done (Throw VideoService.failure))).
  { unfold out, VideoService.generateVideoFromImage.
    erewrite try_catch_throws.
    2:{ do 3 async_emit.
        async_external Hstart.
        async_emit.
        async_step (poll_done (VideoService.getVideosOperation svc) op0 _ Hdone).
        async_emit. rewrite Huri. reflexivity. }
    reflexivity. }
  rewrite E. repeat split.
Qed.

Lemma generateVideoFromImage_without_link_witness :
  let svc := VideoService.sample_service
               (Return {| VideoService.done := true; VideoService.uri := None |}) [] in
  let out := VideoService.generateVideoFromImage svc "a cat" "IMAGE" "image/png"
               {| clock := 100%nat; trace := [] |} in
  snd out = Done (Throw VideoService.failure)
  /\ clock (fst out) = 400%nat
  /\ VideoService.console_errors (trace (fst out))
     = [Error "Video generation failed: no download link found."]
  /\ VideoService.status_requests (trace (fst out)) = []
  /\ VideoService.fetches (trace (fst out)) = O.
Proof.
  exact (generateVideoFromImage_without_link
           (VideoService.sample_service
              (Return {| VideoService.done := true; VideoService.uri := None |}) [])
           "a cat" "IMAGE" "image/png" 100%nat 300%nat
           {| VideoService.done := true; VideoService.uri := None |}
           eq_refl eq_refl eq_refl).
Defined.

(** ** The handlers of the panel *)

Lemma translate_run (E E' A : Type) (f : E -> E') (m : Async E A)
      (w : World E') (w' : World E) (c : Completion A) :
  m {| clock := clock w; trace := [] |} = (w', c) ->
  Panel.translate f m w
  = ({| clock := clock w';
        trace := trace w ++ map (fun e => (fst e, f (snd e))) (trace w') |}, c).
Proof. unfold Panel.translate. now intros ->. Qed.

Lemma apply_trace_app (a b : list (Time * Panel.Effect)) (st : Studio.State) :
  Panel.apply_trace (a ++ b) st = Panel.apply_trace b (Panel.apply_trace a st).
Proof. unfold Panel.apply_trace. apply fold_left_app. Qed.










(** *** A lost key, from the service to the user *)

Lemma apply_overlay_only (t : Time) (e : Panel.Effect) (st : Studio.State) :
  Panel.overlay_only e = true -> Panel.core (Panel.apply t e st) = Panel.core st.
Proof. destruct e as [[]|[]| | | | |]; cbn; intros H; try discriminate H; reflexivity. Qed.

Lemma apply_trace_overlay_only (tr : list (Time * Panel.Effect)) :
  forall st, forallb (fun e => Panel.overlay_only (snd e)) tr = true ->
             Panel.core (Panel.apply_trace tr st) = Panel.core st.
Proof.
  induction tr as [|[t e] tr IH]; intros st H; [reflexivity|].
  cbn [forallb snd] in H. apply andb_prop in H. destruct H as [He Htr].
  change (Panel.apply_trace ((t, e) :: tr) st)
    with (Panel.apply_trace tr (Panel.apply t e st)).
  rewrite (IH _ Htr). now apply apply_overlay_only.
Qed.

Lemma polling_overlay_only (ls : list Time) :
  forall t,
    forallb (fun e => Panel.overlay_only (snd e))
            (map (fun e => (fst e, Panel.Service (snd e)))
                 (VideoService.polling_trace t ls)) = true.
Proof.
  induction ls as [|l ls IH]; intros t; [reflexivity|].
  cbn [VideoService.polling_trace map forallb fst snd Panel.overlay_only andb].
  apply IH.
Qed.

Lemma handleGenerateVideo_lost_key_run
      (svc : Panel.Services) (form : Panel.Form) (file : File) (base64Image : string)
      (t0 d0 l0 l : Time) (op0 : VideoService.VideosOperation) (e : Exn)
      (waits : list (Time * VideoService.VideosOperation))
      (rest : list (option Time * JsResult VideoService.VideosOperation)) :
  Panel.imageFile form = Some file ->
  Panel.videoPrompt form <> ""%string ->
  readImage (Panel.create svc) file = (Some d0, Return base64Image) ->
  VideoService.generateVideos (Panel.video svc) (Panel.videoPrompt form) base64Image
    (file_type file) = (Some l0, Return op0) ->
  VideoService.done op0 = false ->
  VideoService.getVideosOperation (Panel.video svc)
  = map VideoService.answers waits ++ (Some l, Throw e) :: rest ->
  Forall (fun a => VideoService.done (snd a) = false) waits ->
  VideoService.includes (message e) "Requested entity was not found." = true ->
  let ls := map fst waits ++ [l] in
  let t1 := (t0 + d0)%nat in
  let t2 := (t1 + l0 + VideoService.polling_time ls)%nat in
  Panel.handleGenerateVideo svc form {| clock := t0; trace := [] |}
  = ({| clock := t2;
        trace :=
          [(t0, Panel.Create (SetLoading true "Preparing to generate video..."))]
            ++ map (fun e => (fst e, Panel.Service (snd e)))
                   ([(t1, VideoService.SetLoadingMessage
                            "Initializing video generation service...");
                     (t1, VideoService.SetLoadingMessage
       "Generating video... this may take a few minutes.  visionary ideas need time.");
                     (t1, VideoService.GenerateVideos (Panel.videoPrompt form)
                            base64Image (file_type file));
                     ((t1 + l0)%nat, VideoService.SetLoadingMessage
                        "Video is processing on our servers. Checking status...")]
                      ++ VideoService.polling_trace (t1 + l0)%nat ls
                      ++ [(t2, VideoService.OnApiKeyError)])
            ++ [(t2, Panel.Create (ConsoleError VideoService.keyError));
                (t2, Panel.Create (Alert (message VideoService.keyError)));
                (t2, Panel.Create (SetLoading false ""))] |},
     Done (Return tt)).
Proof.
  intros Hfile Hprompt Hread Hstart Hop0 Hpolls Hwaits Hinc ls t1 t2.
  unfold Panel.handleGenerateVideo. rewrite Hfile.
  apply String.eqb_neq in Hprompt. rewrite Hprompt.
  async_emit. unfold finally.
  erewrite try_catch_throws.
  2:{ async_step (translate_run _ _ _ Panel.Create _ _ _ _
                    (external_settles _ _ _ _ Hread)).
      apply abind_throws.
      exact (translate_run _ _ _ Panel.Service _ _ _ _
               (generateVideoFromImage_lost_key_run _ _ _ _ _ _ _ _ _ _ _
                  Hstart Hop0 Hpolls Hwaits Hinc)). }
  cbn [clock trace app map fst snd]. fold ls t1 t2.
  unfold abind, emit. cbn [clock trace].
  rewrite <- !app_assoc. reflexivity.
Qed.

(** X19: a key the service no longer finds while a video is generated
    reaches the user: [handleGenerateVideo] returns, App has its key
    flag off (the key dialog is shown), the loading overlay is off, the
    user has been alerted twice, by [handleApiKeyError] and with the
    message of the error, and no asset was added to a library. *)
Theorem lost_key_reaches_the_user
        (svc : Panel.Services) (form : Panel.Form) (file : File) (base64Image : string)
        (t0 d0 l0 l : Time) (op0 : VideoService.VideosOperation) (e : Exn)
        (waits : list (Time * VideoService.VideosOperation))
        (rest : list (option Time * JsResult VideoService.VideosOperation))
        (st : Studio.State) :
  Panel.imageFile form = Some file ->
  Panel.videoPrompt form <> ""%string ->
  readImage (Panel.create svc) file = (Some d0, Return base64Image) ->
  VideoService.generateVideos (Panel.video svc) (Panel.videoPrompt form) base64Image
    (file_type file) = (Some l0, Return op0) ->
  VideoService.done op0 = false ->
  VideoService.getVideosOperation (Panel.video svc)
  = map VideoService.answers waits ++ (Some l, Throw e) :: rest ->
  Forall (fun a => VideoService.done (snd a) = false) waits ->
  VideoService.includes (message e) "Requested entity was not found." = true ->
  let out := Panel.handleGenerateVideo svc form {| clock := t0; trace := [] |} in
  let st' := Panel.apply_trace (trace (fst out)) st in
  snd out = Done (Return tt)
  /\ Studio.hasApiKey st' = false
  /\ Studio.loading st' = false
  /\ Studio.alerts st'
     = Studio.alerts st
         ++ ["Your API Key seems to be invalid. Please select a valid API key to continue.";
             "API key invalid or not found. Please select a valid key."]%string
  /\ Studio.app st' = Studio.app st
  /\ Studio.videoLibrary st' = Studio.videoLibrary st
  /\ Panel.generated (trace (fst out)) = [].
Proof.
  intros Hfile Hprompt Hread Hstart Hop0 Hpolls Hwaits Hinc out st'.
  pose proof (handleGenerateVideo_lost_key_run svc form file base64Image t0 d0 l0 l op0 e
                waits rest Hfile Hprompt Hread Hstart Hop0 Hpolls Hwaits Hinc) as E.
  cbv zeta in E. fold out in E.
  set (ls := map fst waits ++ [l]) in *.
  set (t1 := (t0 + d0)%nat) in *.
  set (t2 := (t1 + l0 + VideoService.polling_time ls)%nat) in *.
  unfold st'. rewrite E. cbn [fst snd trace].
  split; [reflexivity|].
  rewrite !map_app. cbn [map fst snd].
  match goal with
  | |- context [Panel.apply_trace (?a ++ (?b ++ ?p ++ ?k) ++ ?c) st] =>
      set (s1 := Panel.apply_trace (a ++ b ++ p) st);
      assert (H1 : Panel.core s1 = Panel.core st)
        by (apply apply_trace_overlay_only;
            rewrite !forallb_app; cbn [forallb snd Panel.overlay_only andb];
            now rewrite polling_overlay_only);
      assert (E2 : Panel.apply_trace (a ++ (b ++ p ++ k) ++ c) st
                   = Panel.apply_trace (k ++ c) s1)
        by (unfold s1; rewrite <- !apply_trace_app, <- !app_assoc; reflexivity)
  end.
  rewrite E2. clear E2. clearbody s1.
  unfold Panel.core in H1. injection H1 as C1 C2 C3 C4 C5 C6 C7.
  split; [reflexivity|]. split; [reflexivity|].
  split; [cbn; rewrite C7, <- app_assoc; reflexivity|].
  split; [cbn; exact C1|].
  split; [cbn; exact C2|].
  unfold Panel.generated. rewrite !map_app, !filter_app, !map_map. cbn [map snd filter app].
  clear. induction (VideoService.polling_trace (t1 + l0)%nat ls) as [|[t x] r IH];
    [reflexivity|].
  cbn [map snd filter]. destruct x; exact IH.
Qed.

Lemma lost_key_reaches_the_user_witness :
  let out := Panel.handleGenerateVideo Panel.lost_key_services Panel.sample_form
               {| clock := 100%nat; trace := [] |} in
  let st' := Panel.apply_trace (trace (fst out)) Studio.initial in
  snd out = Done (Return tt)
  /\ Studio.hasApiKey st' = false
  /\ Studio.loading st' = false
  /\ Studio.alerts st'
     = Studio.alerts Studio.initial
         ++ ["Your API Key seems to be invalid. Please select a valid API key to continue.";
             "API key invalid or not found. Please select a valid key."]%string
  /\ Studio.app st' = Studio.app Studio.initial
  /\ Studio.videoLibrary st' = Studio.videoLibrary Studio.initial
  /\ Panel.generated (trace (fst out)) = [].
Proof.
  apply (lost_key_reaches_the_user Panel.lost_key_services Panel.sample_form
           portrait "IMAGE" 100%nat 7%nat 300%nat 150%nat VideoService.running
           (Error "404: Requested entity was not found.") [] [] Studio.initial);
    first [reflexivity | discriminate | constructor].
Defined.

(** *** Generating a video *)

Lemma generated_app (a b : list (Time * Panel.Effect)) :
  Panel.generated (a ++ b) = Panel.generated a ++ Panel.generated b.
Proof. unfold Panel.generated. now rewrite map_app, filter_app. Qed.

Lemma generated_service (tr : list (Time * VideoService.Effect)) :
  Panel.generated (map (fun e => (fst e, Panel.Service (snd e))) tr) = [].
Proof. induction tr as [|[t e] tr IH]; [reflexivity | exact IH]. Qed.

Lemma handleGenerateVideo_success_run
      (svc : Panel.Services) (form : Panel.Form) (file : File) (base64Image : string)
      (t0 d0 l0 l lf lb : Time) (op0 opd : VideoService.VideosOperation)
      (waits : list (Time * VideoService.VideosOperation))
      (rest : list (option Time * JsResult VideoService.VideosOperation))
      (response : VideoService.Response) (videoBlob : Blob) :
  Panel.imageFile form = Some file ->
  Panel.videoPrompt form <> ""%string ->
  readImage (Panel.create svc) file = (Some d0, Return base64Image) ->
  VideoService.generateVideos (Panel.video svc) (Panel.videoPrompt form) base64Image
    (file_type file) = (Some l0, Return op0) ->
  VideoService.done op0 = false ->
  VideoService.getVideosOperation (Panel.video svc)
  = map VideoService.answers waits ++ (Some l, Return opd) :: rest ->
  Forall (fun a => VideoService.done (snd a) = false) waits ->
  VideoService.done opd = true ->
  truthy (VideoService.uri opd) = true ->
  VideoService.fetch (Panel.video svc)
    (or_empty (VideoService.uri opd) ++ "&key=" ++ VideoService.apiKey (Panel.video svc))
  = (Some lf, Return response) ->
  VideoService.ok response = true ->
  VideoService.blob response = (Some lb, Return videoBlob) ->
  let ls := map fst waits ++ [l] in
  let t1 := (t0 + d0)%nat in
  let t2 := (t1 + l0 + VideoService.polling_time ls)%nat in
  let t3 := (t2 + lf + lb)%nat in
  Panel.handleGenerateVideo svc form {| clock := t0; trace := [] |}
  = ({| clock := t3;
        trace :=
          [(t0, Panel.Create (SetLoading true "Preparing to generate video..."))]
            ++ map (fun e => (fst e, Panel.Service (snd e)))
                   ([(t1, VideoService.SetLoadingMessage
                            "Initializing video generation service...");
                     (t1, VideoService.SetLoadingMessage
       "Generating video... this may take a few minutes.  visionary ideas need time.");
                     (t1, VideoService.GenerateVideos (Panel.videoPrompt form)
                            base64Image (file_type file));
                     ((t1 + l0)%nat, VideoService.SetLoadingMessage
                        "Video is processing on our servers. Checking status...")]
                      ++ VideoService.polling_trace (t1 + l0)%nat ls
                      ++ [(t2, VideoService.SetLoadingMessage
                                 "Finalizing video and preparing for download...");
                          (t2, VideoService.Fetch
                                 (or_empty (VideoService.uri opd) ++ "&key="
                                    ++ VideoService.apiKey (Panel.video svc)))])
            ++ [(t3, Panel.VideoGenerated
                       {| va_id := "vid-" ++ App.decimal (Z.of_nat t3);
                          va_url := VideoService.objectUrl (Panel.video svc) videoBlob;
                          va_prompt := Panel.videoPrompt form;
                          va_createdAt := Z.of_nat t3 |});
                (t3, Panel.SetVideoPrompt "");
                (t3, Panel.ResetImage);
                (t3, Panel.Create (SetLoading false ""))] |},
     Done (Return tt)).
Proof.
  intros Hfile Hprompt Hread Hstart Hop0 Hpolls Hwaits Hopd Huri Hfetch Hok Hblob
         ls t1 t2 t3.
  unfold Panel.handleGenerateVideo. rewrite Hfile.
  apply String.eqb_neq in Hprompt. rewrite Hprompt.
  async_emit. unfold finally.
  erewrite try_catch_done.
  2:{ async_step (translate_run _ _ _ Panel.Create _ _ _ _
                    (external_settles _ _ _ _ Hread)).
      async_step (translate_run _ _ _ Panel.Service _ _ _ _
                    (generateVideoFromImage_success_run _ _ _ _ _ _ _ _ _ _ _ _ _ _ _
                       Hstart Hop0 Hpolls Hwaits Hopd Huri Hfetch Hok Hblob)).
      fold ls t1 t2 t3.
      unfold abind, now, emit. cbn [clock trace]. reflexivity. }
  cbn [clock trace app map fst snd]. fold ls t1 t2 t3.
  unfold abind, emit. cbn [clock trace app].
  rewrite <- !app_assoc. cbn [app]. reflexivity.
Qed.

(** X24: when the image is read, the generation starts, a status request
    is answered as done with a download link and the download succeeds,
    [handleGenerateVideo] returns at the end of the download; App then
    has one more video, whose URL is the object URL of the downloaded
    blob and whose prompt is the prompt of the form, and is otherwise as
    before with the loading overlay off: the key flag is kept and nobody
    is alerted.  The prompt and the image of the form are reset. *)
Theorem handleGenerateVideo_adds_the_video
        (svc : Panel.Services) (form : Panel.Form) (file : File) (base64Image : string)
        (t0 d0 l0 l lf lb : Time) (op0 opd : VideoService.VideosOperation)
        (waits : list (Time * VideoService.VideosOperation))
        (rest : list (option Time * JsResult VideoService.VideosOperation))
        (response : VideoService.Response) (videoBlob : Blob)
        (st : Studio.State) :
  Panel.imageFile form = Some file ->
  Panel.videoPrompt form <> ""%string ->
  readImage (Panel.create svc) file = (Some d0, Return base64Image) ->
  VideoService.generateVideos (Panel.video svc) (Panel.videoPrompt form) base64Image
    (file_type file) = (Some l0, Return op0) ->
  VideoService.done op0 = false ->
  VideoService.getVideosOperation (Panel.video svc)
  = map VideoService.answers waits ++ (Some l, Return opd) :: rest ->
  Forall (fun a => VideoService.done (snd a) = false) waits ->
  VideoService.done opd = true ->
  truthy (VideoService.uri opd) = true ->
  VideoService.fetch (Panel.video svc)
    (or_empty (VideoService.uri opd) ++ "&key=" ++ VideoService.apiKey (Panel.video svc))
  = (Some lf, Return response) ->
  VideoService.ok response = true ->
  VideoService.blob response = (Some lb, Return videoBlob) ->
  let out := Panel.handleGenerateVideo svc form {| clock := t0; trace := [] |} in
  let st' := Panel.apply_trace (trace (fst out)) st in
  let t3 := (t0 + d0 + l0 + VideoService.polling_time (map fst waits ++ [l])
             + lf + lb)%nat in
  let asset :=
    {| va_id := "vid-" ++ App.decimal (Z.of_nat t3);
       va_url := VideoService.objectUrl (Panel.video svc) videoBlob;
       va_prompt := Panel.videoPrompt form;
       va_createdAt := Z.of_nat t3 |} in
  snd out = Done (Return tt)
  /\ clock (fst out) = t3
  /\ Studio.loading st' = false
  /\ Panel.core st' = Panel.core (Studio.handleVideoGenerated (Z.of_nat t3) asset st)
  /\ Studio.videoLibrary st' = Studio.videoLibrary st ++ [asset]
  /\ Panel.generated (trace (fst out)) = [Panel.VideoGenerated asset]
  /\ In (t3, Panel.SetVideoPrompt "") (trace (fst out))
  /\ In (t3, Panel.ResetImage) (trace (fst out)).
Proof.
  intros Hfile Hprompt Hread Hstart Hop0 Hpolls Hwaits Hopd Huri Hfetch Hok Hblob
         out st' t3 asset.
  pose proof (handleGenerateVideo_success_run svc form file base64Image t0 d0 l0 l lf lb
                op0 opd waits rest response videoBlob Hfile Hprompt Hread Hstart Hop0
                Hpolls Hwaits Hopd Huri Hfetch Hok Hblob) as E.
  cbv zeta in E. fold out t3 asset in E.
  set (ls := map fst waits ++ [l]) in *.
  set (t1 := (t0 + d0)%nat) in *.
  set (t2 := (t1 + l0 + VideoService.polling_time ls)%nat) in *.
  unfold st'. rewrite E. cbn [fst snd clock trace].
  split; [reflexivity|]. split; [reflexivity|].
  rewrite !map_app. cbn [map fst snd].
  match goal with
  | |- context [Panel.apply_trace (?a ++ (?b ++ ?p ++ ?k) ++ ?c) st] =>
      set (s1 := Panel.apply_trace (a ++ b ++ p ++ k) st);
      assert (H1 : Panel.core s1 = Panel.core st)
        by (apply apply_trace_overlay_only;
            rewrite !forallb_app; cbn [forallb snd Panel.overlay_only andb];
            now rewrite polling_overlay_only);
      assert (E2 : Panel.apply_trace (a ++ (b ++ p ++ k) ++ c) st
                   = Panel.apply_trace c s1)
        by (unfold s1; rewrite <- !apply_trace_app, <- !app_assoc; reflexivity)
  end.
  rewrite E2. clear E2. clearbody s1.
  unfold Panel.core in H1. injection H1 as C1 C2 C3 C4 C5 C6 C7.
  split; [reflexivity|].
  split; [cbn; unfold Panel.core; cbn; now rewrite C1, C2, C3, C4, C5, C6, C7|].
  split; [cbn; now rewrite C2|].
  split.
  - rewrite !generated_app, generated_service. reflexivity.
  - split; apply in_or_app; right; apply in_or_app; right; cbn; auto.
Qed.

Lemma handleGenerateVideo_adds_the_video_witness :
  let out := Panel.handleGenerateVideo Panel.granted_services Panel.sample_form
               {| clock := 100%nat; trace := [] |} in
  let st' := Panel.apply_trace (trace (fst out)) Studio.initial in
  let asset :=
    {| va_id := "vid-27907"; va_url := "blob:video";
       va_prompt := "a cat"; va_createdAt := 27907 |} in
  snd out = Done (Return tt)
  /\ clock (fst out) = 27907%nat
  /\ Studio.loading st' = false
  /\ Panel.core st'
     = Panel.core (Studio.handleVideoGenerated 27907 asset Studio.initial)
  /\ Studio.videoLibrary st' = [asset]
  /\ Panel.generated (trace (fst out)) = [Panel.VideoGenerated asset]
  /\ In (27907%nat, Panel.SetVideoPrompt "") (trace (fst out))
  /\ In (27907%nat, Panel.ResetImage) (trace (fst out)).
Proof.
  apply (handleGenerateVideo_adds_the_video Panel.granted_services Panel.sample_form
           portrait "IMAGE" 100%nat 7%nat 300%nat 2500%nat 800%nat 200%nat
           VideoService.running VideoService.finished
           [(4000%nat, VideoService.running)] []
           {| VideoService.ok := true; VideoService.statusText := "OK";
              VideoService.blob := (Some 200%nat, Return VideoService.clip_blob) |}
           VideoService.clip_blob Studio.initial);
    first [reflexivity | discriminate
          | exact (Forall_cons (4000%nat, VideoService.running) eq_refl (Forall_nil _))].
Defined.

(** *** Generating audio *)

Lemma generateSpeechFromText_run (svc : Services) (text : string) (t ls : Time)
      (response : option string) :
  text <> ""%string ->
  generateContent svc ("Say with a clear, engaging podcast voice: " ++ text)
  = (Some ls, Return response) ->
  generateSpeechFromText svc text {| clock := t; trace := [] |}
  = ({| clock := (t + ls)%nat; trace := [(t, Issue "generateContent")] |},
     Done match response with
          | Some base64Audio =>
              if String.eqb base64Audio ""
              then Throw (Error "Failed to generate audio. No data received.")
              else Return base64Audio
          | None => Throw (Error "Failed to generate audio. No data received.")
          end).
Proof.
  intros Htext Hgen. unfold generateSpeechFromText.
  apply String.eqb_neq in Htext. rewrite Htext.
  async_emit. async_external Hgen.
  destruct response as [b|]; [destruct (String.eqb b "")|]; reflexivity.
Qed.

(** X20: what [handleGenerateAudio] makes of an answer of the speech
    service.  With a payload that [createAudioUrl] encodes, App gets one
    audio asset, whose URL is that of the WAV blob and whose text is the
    text of the form, and the form's text is cleared; with no payload,
    an empty one or one that [createAudioUrl] rejects, the user is
    alerted with the message of the error, no asset is added and the
    text stays.  Either way the handler returns when the service has
    answered and the loading overlay is off. *)
Theorem handleGenerateAudio_outcomes
        (svc : Panel.Services) (form : Panel.Form) (t0 ls : Time)
        (response : option string) (st : Studio.State) :
  Panel.ttsText form <> ""%string ->
  generateContent (Panel.create svc)
    ("Say with a clear, engaging podcast voice: " ++ Panel.ttsText form)
  = (Some ls, Return response) ->
  let out := Panel.handleGenerateAudio svc form {| clock := t0; trace := [] |} in
  let st' := Panel.apply_trace (trace (fst out)) st in
  let t1 := (t0 + ls)%nat in
  let encoded :=
    match response with
    | Some base64Audio =>
        if String.eqb base64Audio ""
        then Throw (Error "Failed to generate audio. No data received.")
        else GeminiService.createAudioUrl base64Audio
    | None => Throw (Error "Failed to generate audio. No data received.")
    end in
  snd out = Done (Return tt)
  /\ clock (fst out) = t1
  /\ Studio.loading st' = false
  /\ match encoded with
     | Return blob =>
         Panel.core st'
         = Panel.core
             (Studio.handleAudioGenerated (Z.of_nat t1)
                {| Studio.aa_id := "aud-" ++ App.decimal (Z.of_nat t1);
                   Studio.aa_url := objectUrl (Panel.create svc) blob;
                   Studio.aa_text := Panel.ttsText form;
                   Studio.aa_createdAt := Z.of_nat t1 |} st)
         /\ In (t1, Panel.SetTtsText "") (trace (fst out))
     | Throw e =>
         Panel.core st' = Panel.core (Studio.alert (message e) st)
         /\ Panel.generated (trace (fst out)) = []
         /\ ~ In (t1, Panel.SetTtsText "") (trace (fst out))
     end.
Proof.
  intros Htext Hgen out st' t1 encoded.
  pose proof (generateSpeechFromText_run (Panel.create svc) (Panel.ttsText form) t0 ls
                response Htext Hgen) as Hspeech.
  assert (E : out
              = match encoded with
                | Return blob =>
                    ({| clock := t1;
                        trace :=
                          [(t0, Panel.Create (SetLoading true "Generating audio..."));
                           (t0, Panel.Create (Issue "generateContent"));
                           (t1, Panel.AudioGenerated
                                  {| Studio.aa_id := "aud-" ++ App.decimal (Z.of_nat t1);
                                     Studio.aa_url := objectUrl (Panel.create svc) blob;
                                     Studio.aa_text := Panel.ttsText form;
                                     Studio.aa_createdAt := Z.of_nat t1 |});
                           (t1, Panel.SetTtsText "");
                           (t1, Panel.Create (SetLoading false ""))] |},
                     Done (Return tt))
                | Throw e =>
                    ({| clock := t1;
                        trace :=
                          [(t0, Panel.Create (SetLoading true "Generating audio..."));
                           (t0, Panel.Create (Issue "generateContent"));
                           (t1, Panel.Create (ConsoleError e));
                           (t1, Panel.Create (Alert (message e)));
                           (t1, Panel.Create (SetLoading false ""))] |},
                     Done (Return tt))
                end).
  { unfold out, Panel.handleGenerateAudio.
    apply String.eqb_neq in Htext. rewrite Htext.
    async_emit. unfold finally.
    pose proof (translate_run _ _ _ Panel.Create _
                  {| clock := t0;
                     trace := [(t0, Panel.Create (SetLoading true "Generating audio..."))] |}
                  _ _ Hspeech) as Htr.
    cbn [clock trace map fst snd app] in Htr. fold t1 in Htr.
    unfold encoded.
    destruct response as [b|]; [destruct (String.eqb b "") eqn:Eb|].
    - erewrite try_catch_throws; [|apply abind_throws; exact Htr]. reflexivity.
    - destruct (GeminiService.createAudioUrl b) as [blob|e] eqn:Eenc.
      + erewrite try_catch_done.
        2:{ async_step Htr.
            eapply abind_step.
            { apply translate_run. unfold CreatePanel.createAudioUrl, lift, abind.
              cbn [clock trace]. rewrite Eenc. reflexivity. }
            cbn [clock trace map app]. reflexivity. }
        reflexivity.
      + erewrite try_catch_throws.
        2:{ async_step Htr. apply abind_throws.
            apply translate_run. unfold CreatePanel.createAudioUrl, lift, abind.
            cbn [clock trace]. rewrite Eenc. reflexivity. }
        reflexivity.
    - erewrite try_catch_throws; [|apply abind_throws; exact Htr]. reflexivity. }
  unfold st'. rewrite E. clear E Hspeech.
  destruct encoded as [blob|e]; cbn [fst snd clock trace];
    (split; [reflexivity|]); (split; [reflexivity|]); (split; [reflexivity|]).
  - split; [reflexivity|]. cbn. auto.
  - split; [reflexivity|]. split; [reflexivity|].
    cbn. intros [H|[H|[H|[H|[H|[]]]]]]; discriminate H.
Qed.

Lemma handleGenerateAudio_outcomes_witness :
  let out := Panel.handleGenerateAudio Panel.lost_key_services Panel.sample_form
               {| clock := 100%nat; trace := [] |} in
  let st' := Panel.apply_trace (trace (fst out)) Studio.initial in
  snd out = Done (Return tt)
  /\ clock (fst out) = 150%nat
  /\ Studio.loading st' = false
  /\ match GeminiService.createAudioUrl b64sample with
     | Return blob =>
         Panel.core st'
         = Panel.core
             (Studio.handleAudioGenerated 150
                {| Studio.aa_id := "aud-150"; Studio.aa_url := "blob:audio";
                   Studio.aa_text := "Welcome back"; Studio.aa_createdAt := 150 |}
                Studio.initial)
         /\ In (150%nat, Panel.SetTtsText "") (trace (fst out))
     | Throw e =>
         Panel.core st' = Panel.core (Studio.alert (message e) Studio.initial)
         /\ Panel.generated (trace (fst out)) = []
         /\ ~ In (150%nat, Panel.SetTtsText "") (trace (fst out))
     end.
Proof.
  apply (handleGenerateAudio_outcomes Panel.lost_key_services Panel.sample_form
           100%nat 50%nat (Some b64sample) Studio.initial);
    first [reflexivity | discriminate].
Defined.

(** ** The samples between the decoder and the encoder *)

Lemma int16_digits (p : positive) :
  Zpos p < 32768 ->
  1 <= Z.log2 (Zpos p) + 1 <= 15
  /\ 2 ^ (Z.log2 (Zpos p) + 1 - 1) <= Zpos p < 2 ^ (Z.log2 (Zpos p) + 1).
Proof.
  intros H. pose proof (Z.log2_nonneg (Zpos p)) as Hn.
  assert (Hl : Zpos p < 2 ^ 15) by (change (2 ^ 15) with 32768; lia).
  apply Z.log2_lt_pow2 in Hl; [|lia].
  pose proof (Z.log2_spec (Zpos p) eq_refl) as Hs.
  replace (Z.log2 (Zpos p) + 1 - 1) with (Z.log2 (Zpos p)) by lia.
  replace (Z.succ (Z.log2 (Zpos p))) with (Z.log2 (Zpos p) + 1) in Hs by lia.
  split; [lia | exact Hs].
Qed.

Lemma decoded_sample (s : bool) (p : positive) (d : Z) :
  1 <= d <= 15 ->
  2 ^ (d - 1) <= Zpos p < 2 ^ d ->
  let v := if s then Zneg p else Zpos p in
  let x := widen (dequantize v) in
  x = div (of_Z v) (of_Z 32768)
  /\ clamp x = x
  /\ leb (of_Z (-1)) x = true
  /\ ltb x (of_Z 1) = true.
Proof.
  intros Hd Hp v x.
  assert (Ex : x = S754_finite s (shl p (53 - d)) (d - 68)).
  { unfold x, dequantize, v.
    now rewrite (of_Z_finite p d Hd Hp s), (div_32768 p d Hd Hp s),
      (fround_widen p d Hd Hp s). }
  rewrite Ex. split.
  { unfold v. now rewrite (of_Z_finite p d Hd Hp s), (div_32768 p d Hd Hp s). }
  split; [apply clamp_inside; assumption|].
  change (of_Z 1) with (S754_finite false 4503599627370496 (-52)).
  change (of_Z (-1)) with (S754_finite true 4503599627370496 (-52)).
  assert (Hc : (-52 ?= d - 68) = Gt) by (apply Z.compare_gt_iff; lia).
  assert (Hc' : (d - 68 ?= -52) = Lt) by (apply Z.compare_lt_iff; lia).
  unfold leb, ltb, SFleb, SFltb.
  destruct s; cbn [SFcompare]; rewrite ?Hc, ?Hc'; split; reflexivity.
Qed.

(** X21: every sample [decodeAudioData] makes of a 16-bit element is
    exact and needs no clamping.  Stored as binary32 and read back, it
    is the binary64 quotient of the element by 32768, it lies in
    [-1, 1), and the clamp of line 60 returns it unchanged: the only
    step of the decode/encode pair that can lose anything is the scaling
    by 0x7FFF. *)
Theorem decoded_samples_need_no_clamp (v : Z) :
  -32768 <= v <= 32767 ->
  let x := widen (dequantize v) in
  x = div (of_Z v) (of_Z 32768)
  /\ clamp x = x
  /\ leb (of_Z (-1)) x = true
  /\ ltb x (of_Z 1) = true.
Proof.
  intros Hv. destruct v as [|p|p].
  - repeat split.
  - destruct (int16_digits p) as [Hd Hp]; [lia|].
    exact (decoded_sample false p _ Hd Hp).
  - destruct (Z.eq_dec (Zpos p) 32768) as [E|E].
    + injection E as ->. repeat split.
    + destruct (int16_digits p) as [Hd Hp]; [lia|].
      exact (decoded_sample true p _ Hd Hp).
Qed.

Lemma decoded_samples_need_no_clamp_witness :
  let x := widen (dequantize (-32768)) in
  x = div (of_Z (-32768)) (of_Z 32768)
  /\ clamp x = x
  /\ leb (of_Z (-1)) x = true
  /\ ltb x (of_Z 1) = true.
Proof. apply (decoded_samples_need_no_clamp (-32768)). lia. Defined.

(** ** The page *)

Lemma playing_rendered (st : Preview) :
  synced st -> quiet (audioEls st) (audioRef st) ->
  playing st <> [] -> audio_rendered (props st) = true.
Proof.
  intros Hs Hq Hne. unfold synced in Hs.
  destruct (audioRef st) as [a|] eqn:Hr; [tauto|].
  exfalso. apply Hne. destruct (playing st) as [|i l] eqn:E; [reflexivity|].
  assert (Hi : In i (playing st)) by (rewrite E; now left).
  unfold playing in Hi. apply filter_In in Hi. destruct Hi as [_ Hi].
  unfold audio_at in Hi.
  destruct (nth_error (audioEls st) i) as [el|] eqn:Ei; [|discriminate].
  apply negb_true_iff in Hi. discriminate (Hq i el Ei Hi).
Qed.

Lemma render_consistent (policy : Policy) (h : Webcam.Hook) (st : Studio.State)
      (pv : Preview) :
  synced pv -> tuned pv -> quiet (audioEls pv) (audioRef pv) ->
  Webcam.coherent h -> Studio.from_library st ->
  Page.consistent (Page.render policy h st pv).
Proof.
  intros Hs Ht Hq Hc Hl. unfold Page.consistent, Page.render.
  cbn [Page.hook Page.studio Page.preview].
  split; [now apply rerender_synced|].
  split; [now apply rerender_tuned|].
  split; [exact (step_quiet policy (Render (Page.props_of h st)) pv Hs Hq)|].
  split; [reflexivity|]. now split.
Qed.

Lemma on_preview_consistent (policy : Policy) (a : Action) (s : Page.State) :
  props (step policy a (Page.preview s)) = props (Page.preview s) ->
  Page.consistent s -> Page.consistent (Page.on_preview policy a s).
Proof.
  intros Hp (Hs & Ht & Hq & Hpr & Hc & Hl). unfold Page.consistent, Page.on_preview.
  cbn [Page.hook Page.studio Page.preview].
  split; [now apply step_synced|].
  split; [now apply step_tuned|].
  split; [now apply step_quiet|].
  split; [now rewrite Hp|]. now split.
Qed.

Lemma page_step_consistent (policy : Policy) (e : Page.Event) (s : Page.State) :
  Page.consistent s -> Page.consistent (Page.step policy e s).
Proof.
  intros H. pose proof H as (Hs & Ht & Hq & Hpr & Hc & Hl).
  destruct e as [e|now a|t|paused t|a t]; cbn [Page.step].
  - apply render_consistent; auto using webcam_step_coherent.
  - apply render_consistent; auto using step_from_library.
  - apply on_preview_consistent; [|exact H].
    pose proof (dispatchEvent_shape policy t (Page.preview s)) as E.
    unfold shape in E. now injection E.
  - now apply on_preview_consistent.
  - apply on_preview_consistent; [|exact H].
    pose proof (with_audio_shape a (set_audio_currentTime t) (Page.preview s)) as E.
    unfold shape in E. now injection E.
Qed.

Lemma page_initial_consistent (policy : Policy) : Page.consistent (Page.initial policy).
Proof.
  unfold Page.consistent, Page.initial. cbn [Page.hook Page.studio Page.preview].
  split; [apply mount_synced|].
  split; [apply mount_tuned|].
  split; [apply mount_quiet|].
  split; [reflexivity|].
  split.
  - unfold Webcam.coherent. cbn. repeat split; congruence.
  - unfold Studio.from_library. cbn. repeat split; intros; discriminate.
Qed.

Lemma page_run_consistent (policy : Policy) (events : list Page.Event) :
  forall s, Page.consistent s -> Page.consistent (Page.run policy events s).
Proof.
  induction events as [|e events IH]; intros s H; [exact H|].
  cbn [Page.run fold_left]. apply IH. now apply page_step_consistent.
Qed.

(** X22: on the page, whatever the user, the camera, the video element
    and the platform do, a capture stream bound to the video element is
    the stream the webcam hook holds now, its tracks have not been
    stopped, the source is the webcam, the video is muted and no
    narration plays; and while the source is the webcam the video
    element holds exactly the stream of the hook, so nothing once the
    camera was stopped. *)
Theorem preview_shows_the_live_camera (policy : Policy) (events : list Page.Event) :
  let s := Page.run policy events (Page.initial policy) in
  (forall m, v_srcObject (videoEl (Page.preview s)) = Some m ->
             Webcam.stream (Page.hook s) = Some m
             /\ In m (Webcam.live (Page.hook s))
             /\ App.streamSource (Studio.app (Page.studio s)) = WEBCAM
             /\ v_muted (videoEl (Page.preview s)) = true
             /\ playing (Page.preview s) = [])
  /\ (App.streamSource (Studio.app (Page.studio s)) = WEBCAM ->
      v_srcObject (videoEl (Page.preview s)) = Webcam.stream (Page.hook s)).
Proof.
  intros s.
  destruct (page_run_consistent policy events _ (page_initial_consistent policy))
    as (Hs & [Hv _] & Hq & Hpr & (Hc1 & Hc2 & _) & _).
  fold s in Hs, Hv, Hq, Hpr, Hc1, Hc2.
  unfold video_surface in Hv. rewrite Hpr in Hv. unfold surface, Page.props_of in Hv.
  cbn [App.previewProps Studio.setWebcam source stream currentVideoUrl App.webcam
       App.streamSource App.currentVideoUrl] in Hv.
  split.
  - intros m Hm.
    destruct (App.streamSource (Studio.app (Page.studio s))) eqn:Hsrc;
      destruct (Webcam.stream (Page.hook s)) as [m'|] eqn:Hst;
      injection Hv as E1 E2 E3; try congruence.
    assert (m' = m) by congruence. subst m'.
    split; [reflexivity|].
    split; [apply Hc2; congruence|].
    split; [reflexivity|]. split; [exact E3|].
    destruct (playing (Page.preview s)) as [|i l] eqn:Ep; [reflexivity|].
    assert (Hr : audio_rendered (props (Page.preview s)) = true)
      by (apply playing_rendered; [exact Hs | exact Hq | rewrite Ep; discriminate]).
    rewrite Hpr in Hr. unfold audio_rendered, Page.props_of in Hr. cbn in Hr.
    rewrite Hsrc in Hr. discriminate Hr.
  - intros Hsrc. rewrite Hsrc in Hv.
    destruct (Webcam.stream (Page.hook s)); now injection Hv.
Qed.

Lemma preview_shows_the_live_camera_witness :
  let s := Page.run allow_all Page.camera_on (Page.initial allow_all) in
  v_srcObject (videoEl (Page.preview s)) = Some Webcam.camera
  /\ In Webcam.camera (Webcam.live (Page.hook s))
  /\ v_muted (videoEl (Page.preview s)) = true.
Proof.
  intros s. split; [reflexivity|].
  destruct (proj1 (preview_shows_the_live_camera allow_all Page.camera_on)
              Webcam.camera eq_refl) as (_ & H & _ & Hm & _).
  split; [exact H | exact Hm].
Defined.

(** X23: on the page, whenever a narration is playing, the source is the
    animation and there is an animation in the library whose audio is
    the narration and whose video is the one the video element plays,
    with its own sound on and no capture stream: what is heard always
    belongs to what is seen. *)
Theorem narration_belongs_to_the_picture (policy : Policy) (events : list Page.Event) :
  let s := Page.run policy events (Page.initial policy) in
  playing (Page.preview s) <> [] ->
  App.streamSource (Studio.app (Page.studio s)) = ANIMATION
  /\ exists anim,
       In anim (Studio.animationLibrary (Page.studio s))
       /\ narration (Page.preview s) = Some (ta_audioUrl anim)
       /\ video_surface (Page.preview s) = (None, ta_videoUrl anim, false).
Proof.
  intros s Hplay.
  destruct (page_run_consistent policy events _ (page_initial_consistent policy))
    as (Hs & [Hv Hn] & Hq & Hpr & _ & (_ & Ha & _)).
  fold s in Hs, Hv, Hn, Hq, Hpr, Ha.
  pose proof (playing_rendered _ Hs Hq Hplay) as Hr.
  rewrite Hv, Hn. unfold narration_of. rewrite Hr.
  rewrite Hpr in *. unfold audio_rendered, surface, Page.props_of in *.
  cbn [App.previewProps Studio.setWebcam source stream currentVideoUrl currentAudioUrl
       App.webcam App.streamSource App.currentVideoUrl App.currentAudioUrl] in *.
  apply andb_prop in Hr. destruct Hr as [Hsrc Htr].
  destruct (App.streamSource (Studio.app (Page.studio s))); try discriminate Hsrc.
  split; [reflexivity|].
  destruct (App.currentAudioUrl (Studio.app (Page.studio s))) as [au|] eqn:Hau;
    [|discriminate Htr].
  destruct (Ha au eq_refl) as (anim & Hin & Hvid & ->).
  exists anim. rewrite Hvid, !or_empty_Some. now repeat split.
Qed.

Lemma narration_belongs_to_the_picture_witness :
  let s := Page.run allow_all Page.animation_on (Page.initial allow_all) in
  playing (Page.preview s) = [0%nat]
  /\ App.streamSource (Studio.app (Page.studio s)) = ANIMATION
  /\ exists anim,
       In anim (Studio.animationLibrary (Page.studio s))
       /\ narration (Page.preview s) = Some (ta_audioUrl anim)
       /\ video_surface (Page.preview s) = (None, ta_videoUrl anim, false).
Proof.
  intros s. split; [reflexivity|].
  apply (narration_belongs_to_the_picture allow_all Page.animation_on).
  discriminate.
Defined.
